(** * kbirk/render: render-state cache, uniform binder and program reflection

    A shallow embedding of the Go package [render] (technique.go, shader.go,
    framebuffer.go, renderable.go, the command, uniform-descriptor and
    viewport files) and the properties its specification states about it,
    followed by further properties of the same code: the render-state cache
    step by step, drawing, reflection, framebuffer attachments and the life
    cycle of a program.

    Conventions of the embedding:
    - [int32] and [uint32] values are integers of [Z]; arithmetic that can
      leave the range is wrapped explicitly ([wrap32], [wrapU32]).
    - A Go pointer [*T] is [ptr T]: [None] is [nil], [Some r] carries the
      address (the identity [==] compares) and the struct it points to.
    - Every [gl.*] call that changes device state is recorded, in order, in
      the trace of the [GL] monad.  Read-only queries are answered by a
      record of device answers and leave no entry in the trace.
    - A Go runtime panic (nil dereference, slice bounds, division by zero,
      write to a nil map) is the result [None]. *)

From stdpp Require Import gmap strings list fin_maps.
From Stdlib Require Import ZArith Lia.

Local Open Scope Z_scope.

(** ** Machine integers *)

Definition wrap32 (z : Z) : Z := (z + 2 ^ 31) mod 2 ^ 32 - 2 ^ 31.
Definition wrapU32 (z : Z) : Z := z mod 2 ^ 32.
Definition int32_range (z : Z) : Prop := - 2 ^ 31 <= z < 2 ^ 31.
Definition uint32_range (z : Z) : Prop := 0 <= z < 2 ^ 32.

(** ** Pointers *)

Record Ref (A : Type) : Type := mkRef { addr : positive; target : A }.
Arguments mkRef {A} _ _.
Arguments addr {A} _.
Arguments target {A} _.

Definition ptr (A : Type) : Type := option (Ref A).

Definition isNil {A} (p : ptr A) : bool :=
  match p with None => true | Some _ => false end.

(** Go's [p == q] on pointers: both nil, or the same address. *)
Definition ptr_eqb {A} (p q : ptr A) : bool :=
  match p, q with
  | None, None => true
  | Some a, Some b => Pos.eqb (addr a) (addr b)
  | _, _ => false
  end.

(** ** Constants of the OpenGL 4.1 core binding (github.com/go-gl/gl) *)

Module gl.
Definition ZERO : Z := 0.
Definition ONE : Z := 1.
Definition LESS : Z := 0x0201.
Definition BACK : Z := 0x0405.
Definition SRC_ALPHA : Z := 0x0302.
Definition ONE_MINUS_SRC_ALPHA : Z := 0x0303.
Definition DEPTH_TEST : Z := 0x0B71.
Definition CULL_FACE : Z := 0x0B44.
Definition BLEND : Z := 0x0BE2.
Definition TEXTURE_2D : Z := 0x0DE1.
Definition INT : Z := 0x1404.
Definition UNSIGNED_INT : Z := 0x1405.
Definition FLOAT : Z := 0x1406.
Definition FLOAT_VEC2 : Z := 0x8B50.
Definition FLOAT_VEC3 : Z := 0x8B51.
Definition FLOAT_VEC4 : Z := 0x8B52.
Definition INT_VEC2 : Z := 0x8B53.
Definition BOOL : Z := 0x8B56.
Definition FLOAT_MAT2 : Z := 0x8B5A.
Definition FLOAT_MAT3 : Z := 0x8B5B.
Definition FLOAT_MAT4 : Z := 0x8B5C.
Definition SAMPLER_2D : Z := 0x8B5E.
Definition SAMPLER_CUBE : Z := 0x8B60.
Definition FRAMEBUFFER : Z := 0x8D40.
Definition FRAMEBUFFER_COMPLETE : Z := 0x8CD5.
Definition FRAMEBUFFER_UNDEFINED : Z := 0x8219.
Definition FRAMEBUFFER_INCOMPLETE_ATTACHMENT : Z := 0x8CD6.
Definition FRAMEBUFFER_INCOMPLETE_MISSING_ATTACHMENT : Z := 0x8CD7.
Definition FRAMEBUFFER_INCOMPLETE_DRAW_BUFFER : Z := 0x8CDB.
Definition FRAMEBUFFER_INCOMPLETE_READ_BUFFER : Z := 0x8CDC.
Definition FRAMEBUFFER_UNSUPPORTED : Z := 0x8CDD.
Definition FRAMEBUFFER_INCOMPLETE_MULTISAMPLE : Z := 0x8D56.
Definition FRAMEBUFFER_INCOMPLETE_LAYER_TARGETS : Z := 0x8DA8.
(** *** Device calls

    One constructor per state-changing [gl.*] entry point the modelled code
    reaches.  A [float32] is kept as its bit pattern; a [*int32], [*uint32]
    or [*float32] argument is the address handed to the device ([0] for a
    nil pointer). *)

Inductive glcall : Type :=
  | BindFramebuffer (target_ id : Z)
  | FramebufferTexture2D (target_ attachment textarget texture level : Z)
  | UseProgram (program : Z)
  | Enable (cap : Z)
  | Disable (cap : Z)
  | BlendFunc (sfactor dfactor : Z)
  | CullFace (mode : Z)
  | DepthMask (flag : bool)
  | DepthFunc (xfunc : Z)
  | Viewport (x y width height : Z)
  | ActiveTexture (unit_ : Z)
  | BindTexture (target_ id : Z)
  | BindVertexArray (id : Z)
  | DrawElements (mode count typ : Z) (byteOffset : Z)
  | DrawElementsInstanced (mode count typ : Z) (byteOffset : Z) (primcount : Z)
  | DrawArrays (mode first count : Z)
  | DrawArraysInstanced (mode first count primcount : Z)
  | Uniform1i (location value : Z)
  | Uniform1ui (location value : Z)
  | Uniform1f (location : Z) (bits : Z)
  | Uniform1iv (location count : Z) (value : Z)
  | Uniform1uiv (location count : Z) (value : Z)
  | Uniform1fv (location count : Z) (value : Z)
  | Uniform2fv (location count : Z) (value : Z)
  | Uniform3fv (location count : Z) (value : Z)
  | Uniform4fv (location count : Z) (value : Z)
  | UniformMatrix3fv (location count : Z) (transpose : bool) (value : Z)
  | UniformMatrix4fv (location count : Z) (transpose : bool) (value : Z)
  | UniformBlockBinding (program blockIndex blockBinding : Z).

End gl.

Abbreviation glcall := gl.glcall.

#[global] Instance glcall_eq_dec : EqDecision glcall.
Proof. solve_decision. Defined.

(** *** Calls that create, attach, link and delete device objects

    The entry points the shader's life cycle reaches ([AttachShader],
    [LinkProgram], [deleteShaders], [Destroy]).  They are recorded in a trace
    of their own. *)
Module globj.
Inductive call : Type :=
  | CreateProgram
  | AttachShader (program shader : Z)
  | LinkProgram (program : Z)
  | DeleteShader (shader : Z)
  | DeleteProgram (program : Z).
End globj.

(** ** The [GL] monad: a trace of device calls and a result, [None] after a
    runtime panic (the trace then holds the calls issued before it). *)

Definition GL (A : Type) : Type := (list glcall * option A)%type.

Definition trace {A} (m : GL A) : list glcall := m.1.
Definition result {A} (m : GL A) : option A := m.2.

Definition panic {A} : GL A := ([], None).
Definition call (c : glcall) : GL unit := ([c], Some tt).

#[global] Instance GL_ret : MRet GL := λ A a, ([], Some a).
#[global] Instance GL_bind : MBind GL := λ A B f m,
  match m with
  | (tr, Some a) => (tr ++ (f a).1, (f a).2)
  | (tr, None) => (tr, None)
  end.

(** [for _, x := range xs { body }] with the loop-carried state [a]. *)
Fixpoint forM {A B} (body : A → B → GL A) (xs : list B) (a : A) : GL A :=
  match xs with
  | [] => mret a
  | x :: rest => a' ← body a x; forM body rest a'
  end.

(** Reading a field through a pointer: a nil pointer panics. *)
Definition deref {A} (p : ptr A) : GL A :=
  match p with
  | Some r => mret (target r)
  | None => panic
  end.

(** [xs[i]] on a slice: out of range panics. *)
Definition index {A} (xs : list A) (i : Z) : GL A :=
  if decide (0 <= i) then
    match xs !! Z.to_nat i with
    | Some x => mret x
    | None => panic
    end
  else panic.

(** [xs[i] = v] on a slice: out of range panics. *)
Definition store {A} (xs : list A) (i : Z) (v : A) : GL (list A) :=
  if decide (0 <= i < Z.of_nat (length xs)) then mret (<[Z.to_nat i := v]> xs)
  else panic.

(** ** Uniform descriptors (the descriptor files of the package) *)

Module UniformBlockDescriptor.
(** <<
    type UniformBlockDescriptor struct {
        Name string; Index uint32; Size int32
        Offsets map[string]int32; Alignment int32 }
    >> *)
Record T : Type := mk {
  Name : string;
  Index : Z;
  Size : Z;
  Offsets : gmap string Z;
  Alignment : Z
}.

(** [return u.Size + u.Alignment - (u.Size % u.Alignment)]: Go's [%]
    truncates towards zero ([Z.rem]) and panics on a zero divisor; the sum
    is an [int32] and wraps around. *)
Definition AlignedSize (u : T) : option Z :=
  if decide (Alignment u = 0) then None
  else Some (wrap32 (Size u + Alignment u - Z.rem (Size u) (Alignment u))).

Definition UnAlignedSize (u : T) : Z := Size u.

(** [fmt.Errorf("name `%s` not recognizied in the block", name)] *)
Inductive offsetError : Type :=
  | ErrNotRecognizedInBlock (name : string).

(** [offset, ok := u.Offsets[name]; if !ok { return -1, fmt.Errorf(...) };
    return offset, nil] *)
Definition Offset (u : T) (name : string) : Z * option offsetError :=
  match Offsets u !! name with
  | Some offset => (offset, None)
  | None => (-1, Some (ErrNotRecognizedInBlock name))
  end.
End UniformBlockDescriptor.

Module UniformDescriptor.
(** <<
    type UniformDescriptor struct {
        Name string; Type uint32; Count int32; Location int32 }
    >> *)
Record T : Type := mk {
  Name : string;
  Type_ : Z;
  Count : Z;
  Location : Z
}.
End UniformDescriptor.

(** What the specification asks of the aligned size: the least multiple of
    [a] that is not below [s]. *)
Definition least_multiple_geq (a s r : Z) : Prop :=
  (a | r) ∧ s <= r ∧ ∀ r', (a | r') → s <= r' → r <= r'.

(** ** Values of type [interface{}] handed to the uniform binder

    The dynamic types the binder asserts, and [VOther] for a value of any
    other dynamic type (named by [typ]), the nil interface included. *)

Inductive value : Type :=
  | VInt32 (v : Z)
  | VUint32 (v : Z)
  | VFloat32 (bits : Z)
  | VPtrInt32 (address : Z)
  | VPtrUint32 (address : Z)
  | VPtrFloat32 (address : Z)
  | VOther (typ : string).

(** The dynamic type of a value, as the type assertions see it. *)
Inductive shape : Type :=
  | TInt32 | TUint32 | TFloat32 | TPtrInt32 | TPtrUint32 | TPtrFloat32
  | TOther.

Definition shape_of (v : value) : shape :=
  match v with
  | VInt32 _ => TInt32
  | VUint32 _ => TUint32
  | VFloat32 _ => TFloat32
  | VPtrInt32 _ => TPtrInt32
  | VPtrUint32 _ => TPtrUint32
  | VPtrFloat32 _ => TPtrFloat32
  | VOther _ => TOther
  end.

#[global] Instance shape_eq_dec : EqDecision shape.
Proof. solve_decision. Defined.

(** ** Errors ([fmt.Errorf] results, kept structured) *)

Inductive error : Type :=
  (** ["%v is not of type T"] *)
  | ErrNotOfType (arg : value) (typ : string)
  (** ["uniform `%s` was not recognized"] *)
  | ErrUniformNotRecognized (name : string)
  (** ["texture already attached to attachment `%d`"] *)
  | ErrAlreadyAttached (attachment : Z)
  (** the constant messages of [checkAttachmentError] *)
  | ErrFramebufferStatus (msg : string).

Definition is_type_mismatch (e : error) : bool :=
  match e with ErrNotOfType _ _ => true | _ => false end.

(** ** texture.go *)

Module Texture.
(** [type Texture struct { id, width, height, format uint32;
    internalFormat int32; typ uint32 }] *)
Record T : Type := mk {
  id : Z;
  width : Z;
  height : Z;
  format : Z;
  internalFormat : Z;
  typ : Z
}.

(** [gl.ActiveTexture(location); gl.BindTexture(gl.TEXTURE_2D, t.id)]: the
    receiver is read only for the second call. *)
Definition Bind (t : ptr T) (location : Z) : GL unit :=
  call (gl.ActiveTexture location);;
  r ← deref t;
  call (gl.BindTexture gl.TEXTURE_2D (id r)).

(** [return t.id] *)
Definition ID (t : ptr T) : GL Z :=
  r ← deref t; mret (id r).
End Texture.

(** ** shader.go: the uniform binder *)

Module Shader.
(** [type Shader struct { id uint32; shaders []uint32;
    descriptors map[string]*UniformDescriptor;
    blockDescriptors map[string]*UniformBlockDescriptor }].  A nil map reads
    as the empty map, and the code allocates both maps before it writes to
    them; the descriptors stored are never nil. *)
Record T : Type := mk {
  id : Z;
  shaders : list Z;
  descriptors : gmap string UniformDescriptor.T;
  blockDescriptors : gmap string UniformBlockDescriptor.T
}.

(** [gl.UseProgram(s.id)] *)
Definition Use (s : ptr T) : GL unit :=
  r ← deref s; call (gl.UseProgram (id r)).

(** [value, ok := arg.(int32); if !ok { return fmt.Errorf(...) };
    gl.Uniform1i(location, value); return nil] *)
Definition SetUniform1i (location : Z) (arg : value) : GL (option error) :=
  match arg with
  | VInt32 v => call (gl.Uniform1i location v);; mret None
  | _ => mret (Some (ErrNotOfType arg "int32"))
  end.

Definition SetUniform1ui (location : Z) (arg : value) : GL (option error) :=
  match arg with
  | VUint32 v => call (gl.Uniform1ui location v);; mret None
  | _ => mret (Some (ErrNotOfType arg "uint32"))
  end.

Definition SetUniform1f (location : Z) (arg : value) : GL (option error) :=
  match arg with
  | VFloat32 v => call (gl.Uniform1f location v);; mret None
  | _ => mret (Some (ErrNotOfType arg "float32"))
  end.

Definition SetUniform1iv (location count : Z) (arg : value)
  : GL (option error) :=
  match arg with
  | VPtrInt32 v => call (gl.Uniform1iv location count v);; mret None
  | _ => mret (Some (ErrNotOfType arg "*int32"))
  end.

Definition SetUniform1uiv (location count : Z) (arg : value)
  : GL (option error) :=
  match arg with
  | VPtrUint32 v => call (gl.Uniform1uiv location count v);; mret None
  | _ => mret (Some (ErrNotOfType arg "*uint32"))
  end.

Definition SetUniform1fv (location count : Z) (arg : value)
  : GL (option error) :=
  match arg with
  | VPtrFloat32 v => call (gl.Uniform1fv location count v);; mret None
  | _ => mret (Some (ErrNotOfType arg "*float32"))
  end.

Definition SetUniform2fv (location count : Z) (arg : value)
  : GL (option error) :=
  match arg with
  | VPtrFloat32 v => call (gl.Uniform2fv location count v);; mret None
  | _ => mret (Some (ErrNotOfType arg "*float32"))
  end.

Definition SetUniform3fv (location count : Z) (arg : value)
  : GL (option error) :=
  match arg with
  | VPtrFloat32 v => call (gl.Uniform3fv location count v);; mret None
  | _ => mret (Some (ErrNotOfType arg "*float32"))
  end.

Definition SetUniform4fv (location count : Z) (arg : value)
  : GL (option error) :=
  match arg with
  | VPtrFloat32 v => call (gl.Uniform4fv location count v);; mret None
  | _ => mret (Some (ErrNotOfType arg "*float32"))
  end.

Definition SetUniformMatrix3fv (location count : Z) (arg : value)
  : GL (option error) :=
  match arg with
  | VPtrFloat32 v => call (gl.UniformMatrix3fv location count false v);; mret None
  | _ => mret (Some (ErrNotOfType arg "*float32"))
  end.

Definition SetUniformMatrix4fv (location count : Z) (arg : value)
  : GL (option error) :=
  match arg with
  | VPtrFloat32 v => call (gl.UniformMatrix4fv location count false v);; mret None
  | _ => mret (Some (ErrNotOfType arg "*float32"))
  end.

(** The [switch descriptor.Type] of [SetUniform]; a type that matches no
    case falls through to the final [return nil]. *)
Definition dispatch (descriptor : UniformDescriptor.T) (arg : value)
  : GL (option error) :=
  let ty := UniformDescriptor.Type_ descriptor in
  let location := UniformDescriptor.Location descriptor in
  let count := UniformDescriptor.Count descriptor in
  if ty =? gl.SAMPLER_2D then SetUniform1i location arg
  else if ty =? gl.SAMPLER_CUBE then SetUniform1i location arg
  else if ty =? gl.INT then
    if 1 <? count then SetUniform1iv location count arg
    else SetUniform1i location arg
  else if ty =? gl.UNSIGNED_INT then
    if 1 <? count then SetUniform1uiv location count arg
    else SetUniform1ui location arg
  else if ty =? gl.FLOAT then
    if 1 <? count then SetUniform1fv location count arg
    else SetUniform1f location arg
  else if ty =? gl.FLOAT_VEC2 then SetUniform2fv location count arg
  else if ty =? gl.FLOAT_VEC3 then SetUniform3fv location count arg
  else if ty =? gl.FLOAT_VEC4 then SetUniform4fv location count arg
  else if ty =? gl.FLOAT_MAT3 then SetUniformMatrix3fv location count arg
  else if ty =? gl.FLOAT_MAT4 then SetUniformMatrix4fv location count arg
  else mret None.

(** [descriptor, ok := s.descriptors[name]; if !ok { return
    fmt.Errorf(...) }; switch descriptor.Type { ... }; return nil] *)
Definition SetUniform (s : ptr T) (name : string) (arg : value)
  : GL (option error) :=
  r ← deref s;
  match descriptors r !! name with
  | None => mret (Some (ErrUniformNotRecognized name))
  | Some descriptor => dispatch descriptor arg
  end.
(** *** Reflection

    What the device answers about a linked program.  [ActiveUniformName i]
    and [ActiveUniformBlockName i] are the byte buffers the name queries
    leave behind: the reported name followed by its null terminator, as many
    bytes as the reported name length. *)
Record Device : Type := mkDevice {
  ACTIVE_UNIFORMS : Z;
  ActiveUniformName : Z → list Byte.byte;
  UNIFORM_TYPE : Z → Z;
  UNIFORM_SIZE : Z → Z;
  UNIFORM_BLOCK_INDEX : Z → Z;
  UNIFORM_OFFSET : Z → Z;
  UniformLocation : string → Z;
  ACTIVE_UNIFORM_BLOCKS : Z;
  ActiveUniformBlockName : Z → list Byte.byte;
  UNIFORM_BLOCK_DATA_SIZE : Z → Z;
  UNIFORM_BUFFER_OFFSET_ALIGNMENT : Z
}.

(** [b := make([]byte, len(buff)); ...; return string(b[:len(b)-1])]: the
    slice expression panics on an empty buffer. *)
Definition toString (buff : list Byte.byte) : GL string :=
  if decide (length buff = 0%nat) then panic
  else mret (String.string_of_list_byte (take (length buff - 1) buff)).

Definition toUint32 (arr : list Z) : list Z := wrapU32 <$> arr.

(** [name[:len(name)-1]] on a string. *)
Definition dropLast (name : string) : GL string :=
  if decide (String.length name = 0%nat) then panic
  else mret (String.substring 0 (String.length name - 1) name).

(** The indices [0, 1, ..., n-1]. *)
Definition indicesUpTo (n : Z) : list Z := Z.of_nat <$> seq 0 (Z.to_nat n).

(** [indices := make([]uint32, n); for i := int32(0); i < n; i++ {
    indices[i] = uint32(i) }]: [make] panics on a negative length. *)
Definition iota (n : Z) : GL (list Z) :=
  if decide (n < 0) then panic else mret (indicesUpTo n).

Definition queryUniformIndices (d : Device) : GL (list Z) :=
  iota (ACTIVE_UNIFORMS d).

(** One round of the loop of [queryUniformNames]: [&name[0]] panics on an
    empty buffer, then [names[index] = toString(name)]. *)
Definition nameStep (fetch : Z → list Byte.byte) (names : list string) (index : Z)
  : GL (list string) :=
  let name := fetch index in
  (if decide (length name = 0%nat) then panic else mret tt);;
  str ← toString name;
  store names index str.

Definition queryUniformNames (d : Device) (indices : list Z)
  : GL (list string) :=
  if decide (length indices = 0%nat) then mret []
  else forM (nameStep (ActiveUniformName d)) indices
            (replicate (length indices) EmptyString).

Definition queryUniformTypes (d : Device) (indices : list Z) : list Z :=
  toUint32 (UNIFORM_TYPE d <$> indices).

Definition queryUniformCounts (d : Device) (indices : list Z) : list Z :=
  UNIFORM_SIZE d <$> indices.

Definition queryParentBlockIndices (d : Device) (indices : list Z) : list Z :=
  UNIFORM_BLOCK_INDEX d <$> indices.

Definition queryUniformOffsets (d : Device) (indices : list Z) : list Z :=
  UNIFORM_OFFSET d <$> indices.

Definition queryUniformLocations (d : Device) (names : list string) : list Z :=
  UniformLocation d <$> names.

Definition queryUniformBlockIndices (d : Device) : GL (list Z) :=
  iota (ACTIVE_UNIFORM_BLOCKS d).

Definition queryUniformBlockNames (d : Device) (indices : list Z)
  : GL (list string) :=
  forM (nameStep (ActiveUniformBlockName d)) indices
       (replicate (length indices) EmptyString).

Definition queryUniformBlockSizes (d : Device) (indices : list Z)
  : GL (list Z) :=
  forM (λ sizes index, store sizes index (UNIFORM_BLOCK_DATA_SIZE d index))
       indices (replicate (length indices) 0).

Definition queryUniformBufferAlignment (d : Device) : Z :=
  UNIFORM_BUFFER_OFFSET_ALIGNMENT d.

(** The body of [for _, index := range uniformIndices]: a uniform outside
    every block is recorded under its name. *)
Definition descriptorStep (uniformNames : list string)
    (uniformTypes uniformCounts parentBlockIndices uniformLocations : list Z)
    (descs : gmap string UniformDescriptor.T) (i : Z)
  : GL (gmap string UniformDescriptor.T) :=
  parent ← index parentBlockIndices i;
  if parent =? -1 then
    name ← index uniformNames i;
    typ ← index uniformTypes i;
    count ← index uniformCounts i;
    location ← index uniformLocations i;
    short ← dropLast name;
    mret (<[name := UniformDescriptor.mk short typ count location]> descs)
  else mret descs.

(** The body of [for i, parentIndex := range parentBlockIndices] for the
    block [blockIndex]. *)
Definition offsetStep (uniformNames : list string) (uniformOffsets : list Z)
    (blockIndex : Z) (offsets : gmap string Z) (ip : Z * Z)
  : GL (gmap string Z) :=
  if ip.2 =? wrap32 blockIndex then
    name ← index uniformNames ip.1;
    offset ← index uniformOffsets ip.1;
    mret (<[name := offset]> offsets)
  else mret offsets.

Definition blockOffsets (uniformNames : list string)
    (uniformOffsets parentBlockIndices : list Z) (blockIndex : Z)
  : GL (gmap string Z) :=
  forM (offsetStep uniformNames uniformOffsets blockIndex)
       (imap (λ i p, (Z.of_nat i, p)) parentBlockIndices) ∅.

(** The body of [for _, index := range blockIndices]. *)
Definition blockStep (program : Z) (uniformNames : list string)
    (uniformOffsets parentBlockIndices : list Z)
    (blockNames : list string) (blockIndices blockSizes : list Z)
    (bufferAlignment : Z)
    (blocks : gmap string UniformBlockDescriptor.T) (i : Z)
  : GL (gmap string UniformBlockDescriptor.T) :=
  offsets ← blockOffsets uniformNames uniformOffsets parentBlockIndices i;
  blockName ← index blockNames i;
  blockIndex ← index blockIndices i;
  blockSize ← index blockSizes i;
  call (gl.UniformBlockBinding program blockIndex blockIndex);;
  mret (<[blockName := UniformBlockDescriptor.mk blockName blockIndex
                         blockSize offsets bufferAlignment]> blocks).

(** [func (s *Shader) queryUniforms()]; the result is the shader with its
    two descriptor maps rebuilt. *)
Definition queryUniforms (s : ptr T) (d : Device) : GL T :=
  r ← deref s;
  uniformIndices ← queryUniformIndices d;
  uniformNames ← queryUniformNames d uniformIndices;
  let uniformTypes := queryUniformTypes d uniformIndices in
  let uniformCounts := queryUniformCounts d uniformIndices in
  let parentBlockIndices := queryParentBlockIndices d uniformIndices in
  let uniformOffsets := queryUniformOffsets d uniformIndices in
  let uniformLocations := queryUniformLocations d uniformNames in
  descs ← forM (descriptorStep uniformNames uniformTypes uniformCounts
                  parentBlockIndices uniformLocations) uniformIndices ∅;
  blockIndices ← queryUniformBlockIndices d;
  blockNames ← queryUniformBlockNames d blockIndices;
  blockSizes ← queryUniformBlockSizes d blockIndices;
  let bufferAlignment := queryUniformBufferAlignment d in
  blocks ← forM (blockStep (id r) uniformNames uniformOffsets
                   parentBlockIndices blockNames blockIndices blockSizes
                   bufferAlignment) blockIndices ∅;
  mret (mk (id r) (shaders r) descs blocks).

(** *** Life cycle

    [s.shaders] is a slice that is nil or non-empty everywhere in the
    package ([AttachShader] appends right after allocating it,
    [deleteShaders] resets it to nil), so the empty list stands for nil. *)

(** <<
    if s.id == 0 { s.id = gl.CreateProgram() }
    if s.shaders == nil {
        s.shaders = make([]uint32, 0)
        s.shaders = append(s.shaders, shader)
    }
    gl.AttachShader(s.id, shader)
    >>
    [created] is the name [gl.CreateProgram] returns when it is called. *)
Definition AttachShader (s : T) (shader : Z) (created : Z)
  : list globj.call * T :=
  let create := id s =? 0 in
  let id1 := if create then created else id s in
  let shaders1 :=
    match shaders s with
    | [] => [] ++ [shader]
    | _ :: _ => shaders s
    end in
  ((if create then [globj.CreateProgram] else [])
     ++ [globj.AttachShader id1 shader],
   mk id1 shaders1 (descriptors s) (blockDescriptors s)).

(** [if s.shaders != nil { for _, shader := range s.shaders {
    gl.DeleteShader(shader) }; s.shaders = nil }] *)
Definition deleteShaders (s : T) : list globj.call * T :=
  (globj.DeleteShader <$> shaders s,
   mk (id s) [] (descriptors s) (blockDescriptors s)).

(** [if s.id != 0 { gl.DeleteProgram(s.id); s.id = 0 }] *)
Definition Destroy (s : T) : list globj.call * T :=
  if id s =? 0 then ([], s)
  else ([globj.DeleteProgram (id s)],
        mk 0 (shaders s) (descriptors s) (blockDescriptors s)).

(** [fmt.Errorf("failed to link program: %v", log)] *)
Inductive linkError : Type :=
  | ErrLinkFailed (log : string).

(** [LinkProgram]: [status] is the [LINK_STATUS] the device reports after
    linking, [logLength] its [INFO_LOG_LENGTH] and [log] the info log buffer
    it fills, [d] its answers to reflection.  [strings.Repeat] panics on a
    negative count, and [logLength+1] is an [int32] sum.  The trace
    interleaves life-cycle calls ([inl]) and the calls of [queryUniforms]
    ([inr]); the result is the shader as the call leaves it and the error
    returned, [None] after a panic. *)
Definition LinkProgram (s : Ref T) (status logLength : Z) (log : string)
    (d : Device)
  : list (globj.call + glcall) * option (T * option linkError) :=
  let link := [inl (globj.LinkProgram (id (target s)))] in
  let deleted := deleteShaders (target s) in
  if status =? 0 then
    if wrap32 (logLength + 1) <? 0 then (link, None)
    else
      (link ++ (inl <$> deleted.1),
       Some (deleted.2, Some (ErrLinkFailed log)))
  else
    let reflected := queryUniforms (Some (mkRef (addr s) deleted.2)) d in
    (link ++ (inl <$> deleted.1) ++ (inr <$> reflected.1),
     (λ s', (s', None)) <$> reflected.2).

(** [return s.descriptors] and [return s.blockDescriptors] *)
Definition UniformDescriptors (s : T) : gmap string UniformDescriptor.T :=
  descriptors s.

Definition UniformBlockDescriptors (s : T)
  : gmap string UniformBlockDescriptor.T :=
  blockDescriptors s.
End Shader.

(** ** framebuffer.go *)

Module FrameBuffer.
(** [type FrameBuffer struct { id uint32; textures map[uint32]*Texture }];
    [textures] is [None] for the nil map of a zero-valued struct, which
    reads as empty and panics when written. *)
Record T : Type := mk {
  id : Z;
  textures : option (gmap Z (ptr Texture.T))
}.

(** [gl.BindFramebuffer(gl.FRAMEBUFFER, f.id)] *)
Definition Bind (f : ptr T) : GL unit :=
  r ← deref f; call (gl.BindFramebuffer gl.FRAMEBUFFER (id r)).

(** [gl.BindFramebuffer(gl.FRAMEBUFFER, 0)]: the receiver is not read. *)
Definition Unbind (f : ptr T) : GL unit :=
  call (gl.BindFramebuffer gl.FRAMEBUFFER 0).

(** [checkAttachmentError], on the status [gl.CheckFramebufferStatus]
    reported. *)
Definition checkAttachmentError (status : Z) : option error :=
  if status =? gl.FRAMEBUFFER_COMPLETE then None
  else if status =? gl.FRAMEBUFFER_UNDEFINED then
    Some (ErrFramebufferStatus "target is the default framebuffer, but the default framebuffer does not exist")
  else if status =? gl.FRAMEBUFFER_INCOMPLETE_ATTACHMENT then
    Some (ErrFramebufferStatus "any of the framebuffer attachment points are framebuffer incomplete")
  else if status =? gl.FRAMEBUFFER_INCOMPLETE_MISSING_ATTACHMENT then
    Some (ErrFramebufferStatus "the framebuffer does not have at least one image attached to it.")
  else if status =? gl.FRAMEBUFFER_INCOMPLETE_DRAW_BUFFER then
    Some (ErrFramebufferStatus "the value of gl.FRAMEBUFFER_ATTACHMENT_OBJECT_TYPE is gl.NONE for any color attachment point(s) named by gl.DRAW_BUFFERi.")
  else if status =? gl.FRAMEBUFFER_INCOMPLETE_READ_BUFFER then
    Some (ErrFramebufferStatus "gl.READ_BUFFER is not gl.NONE and the value of gl.FRAMEBUFFER_ATTACHMENT_OBJECT_TYPE is gl.NONE for the color attachment point named by gl.READ_BUFFER.")
  else if status =? gl.FRAMEBUFFER_UNSUPPORTED then
    Some (ErrFramebufferStatus "the combination of internal formats of the attached images violates an implementation-dependent set of restrictions.")
  else if status =? gl.FRAMEBUFFER_INCOMPLETE_MULTISAMPLE then
    Some (ErrFramebufferStatus "the value of gl.RENDERBUFFER_SAMPLES is not the same for all attached renderbuffers; if the value of gl.TEXTURE_SAMPLES is the not same for all attached textures; or, if the attached images are a mix of renderbuffers and textures, the value of gl.RENDERBUFFER_SAMPLES does not match the value of gl.TEXTURE_SAMPLES. Or the value of gl.TEXTURE_FIXED_SAMPLE_LOCATIONS is not the same for all attached textures; or, if the attached images are a mix of renderbuffers and textures, the value of gl.TEXTURE_FIXED_SAMPLE_LOCATIONS is not gl.TRUE for all attached textures.")
  else if status =? gl.FRAMEBUFFER_INCOMPLETE_LAYER_TARGETS then
    Some (ErrFramebufferStatus "any framebuffer attachment is layered, and any populated attachment is not layered, or if all populated color attachments are not from textures of the same target.")
  else Some (ErrFramebufferStatus "unrecognized framebuffer error").

(** [f.textures[attachment]] read: a nil map has no entry. *)
Definition lookupTexture (r : T) (attachment : Z) : option (ptr Texture.T) :=
  match textures r with
  | Some m => m !! attachment
  | None => None
  end.

(** [AttachTexture]; [status] is what [gl.CheckFramebufferStatus] answers
    once the texture is attached.  The result pairs the framebuffer as the
    call leaves it with the error returned. *)
Definition AttachTexture (f : ptr T) (attachment : Z) (texture : ptr Texture.T)
    (status : Z) : GL (T * option error) :=
  r ← deref f;
  match lookupTexture r attachment with
  | Some _ => mret (r, Some (ErrAlreadyAttached attachment))
  | None =>
      Bind f;;
      tid ← Texture.ID texture;
      call (gl.FramebufferTexture2D gl.FRAMEBUFFER attachment gl.TEXTURE_2D tid 0);;
      let err := checkAttachmentError status in
      Unbind f;;
      match err with
      | None =>
          match textures r with
          | Some m => mret (mk (id r) (Some (<[attachment := texture]> m)), None)
          | None => panic
          end
      | Some e => mret (r, Some e)
      end
  end.

(** [tex, ok := f.textures[attachment]; return tex, ok] *)
Definition Texture_ (f : ptr T) (attachment : Z)
  : GL (ptr Texture.T * bool) :=
  r ← deref f;
  match lookupTexture r attachment with
  | Some tex => mret (tex, true)
  | None => mret (None, false)
  end.
End FrameBuffer.

(** ** Vertex and index buffers, renderable.go *)

Module VertexBuffer.
Record T : Type := mk { id : Z }.

(** [gl.DrawArrays(mode, first, count)]: the receiver is not read. *)
Definition Draw (v : ptr T) (mode first count : Z) : GL unit :=
  call (gl.DrawArrays mode first count).

Definition DrawInstanced (v : ptr T) (mode first count primcount : Z)
  : GL unit :=
  call (gl.DrawArraysInstanced mode first count primcount).
End VertexBuffer.

Module IndexBuffer.
Record T : Type := mk { id : Z }.

(** [gl.DrawElements(mode, count, typ, gl.PtrOffset(byteOffset))] *)
Definition Draw (i : ptr T) (mode count typ byteOffset : Z) : GL unit :=
  call (gl.DrawElements mode count typ byteOffset).

Definition DrawInstanced (i : ptr T) (mode count typ byteOffset primcount : Z)
  : GL unit :=
  call (gl.DrawElementsInstanced mode count typ byteOffset primcount).
End IndexBuffer.

Module Renderable.
(** The struct without its attribute-pointer tables ([pointers],
    [instanced]), which only [Upload] reads. *)
Record T : Type := mk {
  id : Z;
  vertexbuffer : ptr VertexBuffer.T;
  indexbuffer : ptr IndexBuffer.T;
  mode : Z;
  count : Z;
  first : Z;
  typ : Z;
  byteOffset : Z;
  primcount : Z
}.

(** [gl.BindVertexArray(r.id)] *)
Definition Bind (r : ptr T) : GL unit :=
  v ← deref r; call (gl.BindVertexArray (id v)).

(** [gl.BindVertexArray(0)]: the receiver is not read. *)
Definition Unbind (r : ptr T) : GL unit :=
  call (gl.BindVertexArray 0).

Definition Draw (r : ptr T) : GL unit :=
  v ← deref r;
  if negb (isNil (indexbuffer v)) then
    if 0 <? primcount v then
      IndexBuffer.DrawInstanced (indexbuffer v) (mode v) (count v) (typ v)
        (byteOffset v) (primcount v)
    else
      IndexBuffer.Draw (indexbuffer v) (mode v) (count v) (typ v)
        (byteOffset v)
  else
    if 0 <? primcount v then
      VertexBuffer.DrawInstanced (vertexbuffer v) (mode v) (first v) (count v)
        (primcount v)
    else
      VertexBuffer.Draw (vertexbuffer v) (mode v) (first v) (count v).

(** The setters: each assigns exactly the fields it names. *)
Definition SetVertexBuffer (r : T) (vb : ptr VertexBuffer.T) : T :=
  mk (id r) vb (indexbuffer r) (mode r) (count r) (first r) (typ r)
     (byteOffset r) (primcount r).

Definition SetIndexBuffer (r : T) (ib : ptr IndexBuffer.T) : T :=
  mk (id r) (vertexbuffer r) ib (mode r) (count r) (first r) (typ r)
     (byteOffset r) (primcount r).

(** [r.mode = mode; r.first = first; r.count = count] *)
Definition SetDrawArrays (r : T) (mode first count : Z) : T :=
  mk (id r) (vertexbuffer r) (indexbuffer r) mode count first (typ r)
     (byteOffset r) (primcount r).

(** [r.mode = mode; r.count = count; r.typ = typ;
    r.byteOffset = byteOffset] *)
Definition SetDrawElements (r : T) (mode count typ byteOffset : Z) : T :=
  mk (id r) (vertexbuffer r) (indexbuffer r) mode count (first r) typ
     byteOffset (primcount r).

(** [r.mode = mode; r.first = first; r.count = count;
    r.primcount = primcount] *)
Definition SetDrawArraysInstanced (r : T) (mode first count primcount : Z)
  : T :=
  mk (id r) (vertexbuffer r) (indexbuffer r) mode count first (typ r)
     (byteOffset r) primcount.

(** [r.mode = mode; r.count = count; r.typ = typ;
    r.byteOffset = byteOffset; r.primcount = primcount] *)
Definition SetDrawElementsInstanced (r : T)
    (mode count typ byteOffset primcount : Z) : T :=
  mk (id r) (vertexbuffer r) (indexbuffer r) mode count (first r) typ
     byteOffset primcount.
End Renderable.

(** ** The command file

    [type Command struct { uniforms map[string]interface{};
    textures map[uint32]*Texture; renderable *Renderable }].  Both maps are
    only read by [Execute] (a nil map ranges as the empty one).  Go leaves
    the order of a map range unspecified; the embedding ranges in the order
    of [map_to_list], and no statement below depends on that order. *)

Module Command.
Record T : Type := mk {
  uniforms : gmap string value;
  textures : gmap Z (ptr Texture.T);
  renderable : ptr Renderable.T
}.

Definition Uniform (c : T) (name : string) (v : value) : T :=
  mk (<[name := v]> (uniforms c)) (textures c) (renderable c).

Definition Texture_ (c : T) (location : Z) (texture : ptr Texture.T) : T :=
  mk (uniforms c) (<[location := texture]> (textures c)) (renderable c).

Definition Renderable_ (c : T) (r : ptr Renderable.T) : T :=
  mk (uniforms c) (textures c) r.

(** <<
    for location, texture := range c.textures { texture.Bind(location) }
    for name, value := range c.uniforms { shader.SetUniform(name, value) }
    c.renderable.Bind(); c.renderable.Draw(); c.renderable.Unbind()
    >>
    The error [SetUniform] returns is dropped. *)
Definition Execute (c : ptr T) (shader : ptr Shader.T) : GL unit :=
  v ← deref c;
  forM (λ _ lt, Texture.Bind lt.2 lt.1) (map_to_list (textures v)) tt;;
  forM (λ _ nv, Shader.SetUniform shader nv.1 nv.2;; mret tt)
       (map_to_list (uniforms v)) tt;;
  Renderable.Bind (renderable v);;
  Renderable.Draw (renderable v);;
  Renderable.Unbind (renderable v).
End Command.

(** ** The viewport file *)

Module Viewport.
Record T : Type := mk { X : Z; Y : Z; Width : Z; Height : Z }.

(** [return other != nil && v.X == other.X && ...] *)
Definition Equals (v : T) (other : option T) : bool :=
  match other with
  | None => false
  | Some o =>
      (X v =? X o) && (Y v =? Y o) && (Width v =? Width o)
      && (Height v =? Height o)
  end.
End Viewport.

(** ** technique.go: the render-state cache *)

Record blendFunc : Type := mkBlendFunc { sfactor : Z; dfactor : Z }.
Record cullFace : Type := mkCullFace { mode : Z }.
Record depthMask : Type := mkDepthMask { flag : bool }.
Record depthFunc : Type := mkDepthFunc { xfunc : Z }.
Record clearColor : Type := mkClearColor { r : Z; g : Z; b : Z; a : Z }.

Definition blendFunc_Equals (b : blendFunc) (other : option blendFunc) : bool :=
  match other with
  | None => false
  | Some o => (sfactor b =? sfactor o) && (dfactor b =? dfactor o)
  end.

Definition cullFace_Equals (c : cullFace) (other : option cullFace) : bool :=
  match other with
  | None => false
  | Some o => mode c =? mode o
  end.

Definition depthMask_Equals (d : depthMask) (other : option depthMask) : bool :=
  match other with
  | None => false
  | Some o => eqb (flag d) (flag o)
  end.

Definition depthFunc_Equals (d : depthFunc) (other : option depthFunc) : bool :=
  match other with
  | None => false
  | Some o => xfunc d =? xfunc o
  end.

(** The package-level [prev*] variables.  The fixed-function and viewport
    pointers are only ever compared through [Equals], never by identity, so
    they are kept as optional values; [prevEnables] is the
    [map[uint32]bool] itself. *)
Record Snapshot : Type := mkSnapshot {
  prevBlendFunc : option blendFunc;
  prevCullFace : option cullFace;
  prevDepthMask : option depthMask;
  prevDepthFunc : option depthFunc;
  prevViewport : option Viewport.T;
  prevShader : ptr Shader.T;
  prevFrameBuffer : ptr FrameBuffer.T;
  prevEnables : gmap Z bool
}.

(** The state the package starts in. *)
Definition initialSnapshot : Snapshot :=
  mkSnapshot None None None None None None None ∅.

(** [prevEnables[state]]: a missing key reads as [false]. *)
Definition enabled (m : gmap Z bool) (state : Z) : bool :=
  default false (m !! state).

Module Technique.
Record T : Type := mk {
  enables : list Z;
  shader : ptr Shader.T;
  viewport : option Viewport.T;
  framebuffer : ptr FrameBuffer.T;
  blendFunc_ : option blendFunc;
  cullFace_ : option cullFace;
  depthMask_ : option depthMask;
  depthFunc_ : option depthFunc;
  clearColor_ : option clearColor
}.

Definition NewTechnique : T :=
  mk [] None None None
     (Some (mkBlendFunc gl.ONE gl.ZERO))
     (Some (mkCullFace gl.BACK))
     (Some (mkDepthMask true))
     (Some (mkDepthFunc gl.LESS))
     None.

Definition Enable (t : T) (enable : Z) : T :=
  mk (enables t ++ [enable]) (shader t) (viewport t) (framebuffer t)
     (blendFunc_ t) (cullFace_ t) (depthMask_ t) (depthFunc_ t) (clearColor_ t).

Definition Shader_ (t : T) (s : ptr Shader.T) : T :=
  mk (enables t) s (viewport t) (framebuffer t)
     (blendFunc_ t) (cullFace_ t) (depthMask_ t) (depthFunc_ t) (clearColor_ t).

Definition Viewport_ (t : T) (v : option Viewport.T) : T :=
  mk (enables t) (shader t) v (framebuffer t)
     (blendFunc_ t) (cullFace_ t) (depthMask_ t) (depthFunc_ t) (clearColor_ t).

Definition BlendFunc (t : T) (sfactor dfactor : Z) : T :=
  mk (enables t) (shader t) (viewport t) (framebuffer t)
     (Some (mkBlendFunc sfactor dfactor)) (cullFace_ t) (depthMask_ t)
     (depthFunc_ t) (clearColor_ t).

Definition CullFace (t : T) (mode : Z) : T :=
  mk (enables t) (shader t) (viewport t) (framebuffer t)
     (blendFunc_ t) (Some (mkCullFace mode)) (depthMask_ t) (depthFunc_ t)
     (clearColor_ t).

Definition DepthMask (t : T) (flag : bool) : T :=
  mk (enables t) (shader t) (viewport t) (framebuffer t)
     (blendFunc_ t) (cullFace_ t) (Some (mkDepthMask flag)) (depthFunc_ t)
     (clearColor_ t).

Definition DepthFunc (t : T) (xfunc : Z) : T :=
  mk (enables t) (shader t) (viewport t) (framebuffer t)
     (blendFunc_ t) (cullFace_ t) (depthMask_ t) (Some (mkDepthFunc xfunc))
     (clearColor_ t).

Definition ClearColor (t : T) (r g b a : Z) : T :=
  mk (enables t) (shader t) (viewport t) (framebuffer t)
     (blendFunc_ t) (cullFace_ t) (depthMask_ t) (depthFunc_ t)
     (Some (mkClearColor r g b a)).

(** *** The steps of [setup], in source order *)

(** <<
    if t.framebuffer == nil && prevFrameBuffer != nil { prevFrameBuffer.Unbind() }
    if t.framebuffer != nil && t.framebuffer != prevFrameBuffer {
        t.framebuffer.Bind(); prevFrameBuffer = t.framebuffer }
    >> *)
Definition setupFramebuffer (t : T) (prev : ptr FrameBuffer.T)
  : GL (ptr FrameBuffer.T) :=
  (if isNil (framebuffer t) && negb (isNil prev)
   then FrameBuffer.Unbind prev else mret tt);;
  if negb (isNil (framebuffer t)) && negb (ptr_eqb (framebuffer t) prev)
  then FrameBuffer.Bind (framebuffer t);; mret (framebuffer t)
  else mret prev.

(** [if prevShader != t.shader { t.shader.Use(); prevShader = t.shader }] *)
Definition setupShader (t : T) (prev : ptr Shader.T) : GL (ptr Shader.T) :=
  if negb (ptr_eqb prev (shader t))
  then Shader.Use (shader t);; mret (shader t)
  else mret prev.

(** [staleEnables := make(map[uint32]bool);
    for state := range prevEnables { staleEnables[state] = true }] *)
Definition staleOf (prev : gmap Z bool) : gmap Z bool :=
  (λ _, true) <$> prev.

(** <<
    for _, state := range t.enables {
        if !prevEnables[state] { gl.Enable(state); prevEnables[state] = true }
        delete(staleEnables, state) }
    >> *)
Definition enableStep (ps : gmap Z bool * gmap Z bool) (state : Z)
  : GL (gmap Z bool * gmap Z bool) :=
  prev ← (if negb (enabled ps.1 state)
          then call (gl.Enable state);; mret (<[state := true]> ps.1)
          else mret ps.1);
  mret (prev, delete state ps.2).

(** [for state := range staleEnables { gl.Disable(state);
    delete(prevEnables, state) }] *)
Definition disableStep (prev : gmap Z bool) (state : Z) : GL (gmap Z bool) :=
  call (gl.Disable state);; mret (delete state prev).

Definition setupEnables (t : T) (prev : gmap Z bool) : GL (gmap Z bool) :=
  ps ← forM enableStep (enables t) (prev, staleOf prev);
  forM disableStep (map_to_list ps.2).*1 ps.1.

(** [if t.blendFunc != nil && !t.blendFunc.Equals(prevBlendFunc) {
    gl.BlendFunc(...); prevBlendFunc = t.blendFunc }], and likewise for the
    other three state functions and the viewport. *)
Definition setupBlendFunc (t : T) (prev : option blendFunc)
  : GL (option blendFunc) :=
  match blendFunc_ t with
  | Some bf =>
      if negb (blendFunc_Equals bf prev)
      then call (gl.BlendFunc (sfactor bf) (dfactor bf));; mret (Some bf)
      else mret prev
  | None => mret prev
  end.

Definition setupCullFace (t : T) (prev : option cullFace)
  : GL (option cullFace) :=
  match cullFace_ t with
  | Some cf =>
      if negb (cullFace_Equals cf prev)
      then call (gl.CullFace (mode cf));; mret (Some cf)
      else mret prev
  | None => mret prev
  end.

Definition setupDepthMask (t : T) (prev : option depthMask)
  : GL (option depthMask) :=
  match depthMask_ t with
  | Some dm =>
      if negb (depthMask_Equals dm prev)
      then call (gl.DepthMask (flag dm));; mret (Some dm)
      else mret prev
  | None => mret prev
  end.

Definition setupDepthFunc (t : T) (prev : option depthFunc)
  : GL (option depthFunc) :=
  match depthFunc_ t with
  | Some df =>
      if negb (depthFunc_Equals df prev)
      then call (gl.DepthFunc (xfunc df));; mret (Some df)
      else mret prev
  | None => mret prev
  end.

Definition setupViewport (t : T) (prev : option Viewport.T)
  : GL (option Viewport.T) :=
  match viewport t with
  | Some v =>
      if negb (Viewport.Equals v prev)
      then call (gl.Viewport (Viewport.X v) (Viewport.Y v) (Viewport.Width v)
                           (Viewport.Height v));;
           mret (Some v)
      else mret prev
  | None => mret prev
  end.

(** [func (t *Technique) setup()], on the snapshot it finds; the result is
    the snapshot it leaves. *)
Definition setup (t : T) (s : Snapshot) : GL Snapshot :=
  fb ← setupFramebuffer t (prevFrameBuffer s);
  sh ← setupShader t (prevShader s);
  en ← setupEnables t (prevEnables s);
  bf ← setupBlendFunc t (prevBlendFunc s);
  cf ← setupCullFace t (prevCullFace s);
  dm ← setupDepthMask t (prevDepthMask s);
  df ← setupDepthFunc t (prevDepthFunc s);
  vp ← setupViewport t (prevViewport s);
  mret (mkSnapshot bf cf dm df vp sh fb en).

(** [t.setup(); for _, command := range commands {
    command.Execute(t.shader) }] *)
Definition Draw (t : T) (commands : list (ptr Command.T)) (s : Snapshot)
  : GL Snapshot :=
  s' ← setup t s;
  forM (λ _ command, Command.Execute command (shader t)) commands tt;;
  mret s'.
End Technique.

(** ** Vocabulary of the specification *)

(** The device "set uniform" entry points, as the specification names them:
    three scalar calls and eight array-style calls. *)
Inductive setter : Type :=
  | ScalarInt | ScalarUint | ScalarFloat
  | ArrayInt | ArrayUint | ArrayFloat
  | ArrayVec2 | ArrayVec3 | ArrayVec4 | ArrayMat3 | ArrayMat4.

Definition array_style (k : setter) : bool :=
  match k with
  | ScalarInt | ScalarUint | ScalarFloat => false
  | _ => true
  end.

(** Which entry point a recorded device call is, if it sets a uniform. *)
Definition setter_of_call (c : glcall) : option setter :=
  match c with
  | gl.Uniform1i _ _ => Some ScalarInt
  | gl.Uniform1ui _ _ => Some ScalarUint
  | gl.Uniform1f _ _ => Some ScalarFloat
  | gl.Uniform1iv _ _ _ => Some ArrayInt
  | gl.Uniform1uiv _ _ _ => Some ArrayUint
  | gl.Uniform1fv _ _ _ => Some ArrayFloat
  | gl.Uniform2fv _ _ _ => Some ArrayVec2
  | gl.Uniform3fv _ _ _ => Some ArrayVec3
  | gl.Uniform4fv _ _ _ => Some ArrayVec4
  | gl.UniformMatrix3fv _ _ _ _ => Some ArrayMat3
  | gl.UniformMatrix4fv _ _ _ _ => Some ArrayMat4
  | _ => None
  end.

(** The location a uniform-setting call writes to. *)
Definition location_of_call (c : glcall) : option Z :=
  match c with
  | gl.Uniform1i l _ | gl.Uniform1ui l _ | gl.Uniform1f l _
  | gl.Uniform1iv l _ _ | gl.Uniform1uiv l _ _ | gl.Uniform1fv l _ _
  | gl.Uniform2fv l _ _ | gl.Uniform3fv l _ _ | gl.Uniform4fv l _ _
  | gl.UniformMatrix3fv l _ _ _ | gl.UniformMatrix4fv l _ _ _ => Some l
  | _ => None
  end.

(** The scalar or pointer shape each entry point expects of the value. *)
Definition setter_shape (k : setter) : shape :=
  match k with
  | ScalarInt => TInt32
  | ScalarUint => TUint32
  | ScalarFloat => TFloat32
  | ArrayInt => TPtrInt32
  | ArrayUint => TPtrUint32
  | _ => TPtrFloat32
  end.

(** The uniform types the binder handles. *)
Definition handledTypes : list Z :=
  [gl.SAMPLER_2D; gl.SAMPLER_CUBE; gl.INT; gl.UNSIGNED_INT; gl.FLOAT;
   gl.FLOAT_VEC2; gl.FLOAT_VEC3; gl.FLOAT_VEC4; gl.FLOAT_MAT3; gl.FLOAT_MAT4].

(** The dispatch table in the words of the specification: samplers are
    scalar-int; int, uint and float are array-style exactly when the count
    exceeds one; vectors and matrices are always array-style. *)
Definition resolved (d : UniformDescriptor.T) : option setter :=
  let ty := UniformDescriptor.Type_ d in
  let many := bool_decide (1 < UniformDescriptor.Count d) in
  if decide (ty = gl.SAMPLER_2D ∨ ty = gl.SAMPLER_CUBE) then Some ScalarInt
  else if decide (ty = gl.INT) then
    Some (if many then ArrayInt else ScalarInt)
  else if decide (ty = gl.UNSIGNED_INT) then
    Some (if many then ArrayUint else ScalarUint)
  else if decide (ty = gl.FLOAT) then
    Some (if many then ArrayFloat else ScalarFloat)
  else if decide (ty = gl.FLOAT_VEC2) then Some ArrayVec2
  else if decide (ty = gl.FLOAT_VEC3) then Some ArrayVec3
  else if decide (ty = gl.FLOAT_VEC4) then Some ArrayVec4
  else if decide (ty = gl.FLOAT_MAT3) then Some ArrayMat3
  else if decide (ty = gl.FLOAT_MAT4) then Some ArrayMat4
  else None.

(** Calls that toggle a capability. *)
Definition is_capability_call (c : glcall) : bool :=
  match c with
  | gl.Enable _ | gl.Disable _ => true
  | _ => false
  end.

(** Calls that bind, draw or unbind a drawable. *)
Definition is_drawable_call (c : glcall) : bool :=
  match c with
  | gl.BindVertexArray _ | gl.DrawElements _ _ _ _
  | gl.DrawElementsInstanced _ _ _ _ _ | gl.DrawArrays _ _ _
  | gl.DrawArraysInstanced _ _ _ _ => true
  | _ => false
  end.

(** *** Reflection *)

(** A name buffer as the device fills it: null-terminated and at least [n]
    bytes long. *)
Definition nullTerminated (n : nat) (buf : list Byte.byte) : Prop :=
  last buf = Some Byte.x00 ∧ (n ≤ length buf)%nat.

(** A buffer without its last byte, as a string. *)
Definition strippedName (buf : list Byte.byte) : string :=
  String.string_of_list_byte (take (length buf - 1) buf).

(** The device answers reflection relies on: non-negative counts that fit
    an [int32], null-terminated names that are not empty, and no name
    reported twice among the uniforms or among the blocks. *)
Record Device_wf (d : Shader.Device) : Prop := mkDevice_wf {
  wf_uniforms : 0 <= Shader.ACTIVE_UNIFORMS d < 2 ^ 31;
  wf_blocks : 0 <= Shader.ACTIVE_UNIFORM_BLOCKS d < 2 ^ 31;
  wf_uniform_name : ∀ i, 0 <= i < Shader.ACTIVE_UNIFORMS d →
    nullTerminated 2 (Shader.ActiveUniformName d i);
  wf_block_name : ∀ b, 0 <= b < Shader.ACTIVE_UNIFORM_BLOCKS d →
    nullTerminated 2 (Shader.ActiveUniformBlockName d b);
  wf_uniform_names_distinct : ∀ i j,
    0 <= i < Shader.ACTIVE_UNIFORMS d → 0 <= j < Shader.ACTIVE_UNIFORMS d →
    Shader.ActiveUniformName d i = Shader.ActiveUniformName d j → i = j;
  wf_block_names_distinct : ∀ a b,
    0 <= a < Shader.ACTIVE_UNIFORM_BLOCKS d →
    0 <= b < Shader.ACTIVE_UNIFORM_BLOCKS d →
    Shader.ActiveUniformBlockName d a = Shader.ActiveUniformBlockName d b →
    a = b
}.

(** The names reflection works with: the reported buffers without their
    last byte. *)
Definition uniformName (d : Shader.Device) (i : Z) : string :=
  strippedName (Shader.ActiveUniformName d i).

Definition uniformBlockName (d : Shader.Device) (b : Z) : string :=
  strippedName (Shader.ActiveUniformBlockName d b).

Definition reflectedNames (d : Shader.Device) : list string :=
  uniformName d <$> Shader.indicesUpTo (Shader.ACTIVE_UNIFORMS d).

(** The descriptor the first loop of [queryUniforms] records for the
    uniform [i]. *)
Definition reflectedDescriptor (d : Shader.Device) (i : Z) : UniformDescriptor.T :=
  UniformDescriptor.mk
    (String.substring 0 (String.length (uniformName d i) - 1)
       (uniformName d i))
    (wrapU32 (Shader.UNIFORM_TYPE d i))
    (Shader.UNIFORM_SIZE d i)
    (Shader.UniformLocation d (uniformName d i)).

(** The offsets map and the descriptor the second loop builds for the
    block [b]. *)
Definition reflectedOffsets (d : Shader.Device) (b : Z) : gmap string Z :=
  default ∅
    (result (Shader.blockOffsets (reflectedNames d)
       (Shader.queryUniformOffsets d
          (Shader.indicesUpTo (Shader.ACTIVE_UNIFORMS d)))
       (Shader.queryParentBlockIndices d
          (Shader.indicesUpTo (Shader.ACTIVE_UNIFORMS d))) b)).

Definition reflectedBlock (d : Shader.Device) (b : Z) : UniformBlockDescriptor.T :=
  UniformBlockDescriptor.mk (uniformBlockName d b) b
    (Shader.UNIFORM_BLOCK_DATA_SIZE d b) (reflectedOffsets d b)
    (Shader.queryUniformBufferAlignment d).

(** The bytes of a name followed by the null terminator. *)
Definition cstring (name : string) : list Byte.byte :=
  String.list_byte_of_string name ++ [Byte.x00].

(** *** The render-state cache *)

(** The step of [setup] a device call belongs to. *)
Inductive stage : Type :=
  | SFramebuffer | SShader | SEnables | SBlendFunc | SCullFace | SDepthMask
  | SDepthFunc | SViewport.

Definition stage_of (c : glcall) : option stage :=
  match c with
  | gl.BindFramebuffer _ _ => Some SFramebuffer
  | gl.UseProgram _ => Some SShader
  | gl.Enable _ | gl.Disable _ => Some SEnables
  | gl.BlendFunc _ _ => Some SBlendFunc
  | gl.CullFace _ => Some SCullFace
  | gl.DepthMask _ => Some SDepthMask
  | gl.DepthFunc _ => Some SDepthFunc
  | gl.Viewport _ _ _ _ => Some SViewport
  | _ => None
  end.

#[global] Instance stage_eq_dec : EqDecision stage.
Proof. solve_decision. Defined.

(** The techniques a client of the package can build: [NewTechnique]
    followed by the exported setters. *)
Inductive built : Technique.T → Prop :=
  | built_NewTechnique : built Technique.NewTechnique
  | built_Enable t enable : built t → built (Technique.Enable t enable)
  | built_Shader t shader : built t → built (Technique.Shader_ t shader)
  | built_Viewport t viewport :
      built t → built (Technique.Viewport_ t viewport)
  | built_BlendFunc t sfactor dfactor :
      built t → built (Technique.BlendFunc t sfactor dfactor)
  | built_CullFace t mode : built t → built (Technique.CullFace t mode)
  | built_DepthMask t flag : built t → built (Technique.DepthMask t flag)
  | built_DepthFunc t xfunc : built t → built (Technique.DepthFunc t xfunc)
  | built_ClearColor t r g b a :
      built t → built (Technique.ClearColor t r g b a).

(** The techniques there are: the field [framebuffer] is assigned nowhere in
    the package ([NewTechnique] leaves it nil, no method writes it, and
    being unexported it cannot be named from outside), so it is nil in
    every technique. *)
Definition withoutFramebuffer (t : Technique.T) : Prop :=
  Technique.framebuffer t = None.

(** The snapshots the package variables can hold: the initial one, and the
    one any returning [setup] of a technique satisfying [P] leaves. *)
Inductive applied (P : Technique.T → Prop) : Snapshot → Prop :=
  | applied_initial : applied P initialSnapshot
  | applied_setup t s s' :
      P t → applied P s → result (Technique.setup t s) = Some s' →
      applied P s'.

#[global] Instance blendFunc_eq_dec : EqDecision blendFunc.
Proof. solve_decision. Defined.
#[global] Instance cullFace_eq_dec : EqDecision cullFace.
Proof. solve_decision. Defined.
#[global] Instance depthMask_eq_dec : EqDecision depthMask.
Proof. solve_decision. Defined.
#[global] Instance depthFunc_eq_dec : EqDecision depthFunc.
Proof. solve_decision. Defined.
#[global] Instance Viewport_eq_dec : EqDecision Viewport.T.
Proof. solve_decision. Defined.

(** The calls one step of [setup] issues on the snapshot [s]. *)
Definition stageTrace (t : Technique.T) (s : Snapshot) (k : stage)
  : list glcall :=
  match k with
  | SFramebuffer => trace (Technique.setupFramebuffer t (prevFrameBuffer s))
  | SShader => trace (Technique.setupShader t (prevShader s))
  | SEnables => trace (Technique.setupEnables t (prevEnables s))
  | SBlendFunc => trace (Technique.setupBlendFunc t (prevBlendFunc s))
  | SCullFace => trace (Technique.setupCullFace t (prevCullFace s))
  | SDepthMask => trace (Technique.setupDepthMask t (prevDepthMask s))
  | SDepthFunc => trace (Technique.setupDepthFunc t (prevDepthFunc s))
  | SViewport => trace (Technique.setupViewport t (prevViewport s))
  end.

(** *** The life cycle of a program *)

(** The shader objects a life-cycle trace deletes, in order. *)
Definition deletedShaders (tr : list (globj.call + glcall)) : list Z :=
  omap (λ c, match c with
             | inl (globj.DeleteShader shader) => Some shader
             | _ => None
             end) tr.

(** A program object fresh from [&Shader{}]: no program name yet, no shader
    recorded, no descriptors. *)
Definition freshShader : Shader.T := Shader.mk 0 [] ∅ ∅.

(** ** Sample inputs *)

Definition sampleBlock (size alignment : Z) : UniformBlockDescriptor.T :=
  UniformBlockDescriptor.mk "Matrices" 0 size ∅ alignment.

Definition sampleShader (descs : gmap string UniformDescriptor.T)
  : Ref Shader.T :=
  mkRef 1 (Shader.mk 7 [] descs ∅).

Definition sampleDescriptors : gmap string UniformDescriptor.T :=
  {[ "uTexture" := UniformDescriptor.mk "uTexture" gl.SAMPLER_2D 1 0;
     "uLights" := UniformDescriptor.mk "uLights" gl.FLOAT 4 1;
     "uModel" := UniformDescriptor.mk "uModel" gl.FLOAT_MAT4 1 2;
     "uFlag" := UniformDescriptor.mk "uFlag" gl.BOOL 1 3 ]}.

Definition COLOR_ATTACHMENT0 : Z := 0x8CE0.
Definition COLOR_ATTACHMENT1 : Z := 0x8CE1.

Definition sampleTexture : Ref Texture.T :=
  mkRef 11 (Texture.mk 5 64 64 0x1908 0x1908 0x1401).

(** A framebuffer as [NewFrameBuffer] and one successful attachment leave
    it. *)
Definition sampleFrameBuffer : Ref FrameBuffer.T :=
  mkRef 21 (FrameBuffer.mk 3 (Some {[ COLOR_ATTACHMENT0 := Some sampleTexture ]})).

(** A command on which [Renderable] was never called, with one uniform and
    one texture. *)
Definition drawablelessCommand : Ref Command.T :=
  mkRef 31 (Command.Texture_
              (Command.Uniform (Command.mk ∅ ∅ None) "uTexture" (VInt32 0))
              0x84C0 (Some sampleTexture)).

(** A technique as [NewTechnique] builds it, with a shader. *)
Definition sampleTechnique : Technique.T :=
  Technique.Shader_ Technique.NewTechnique
    (Some (sampleShader sampleDescriptors)).

(** A snapshot with capabilities X = DEPTH_TEST and Y = BLEND enabled, and a
    technique requesting Y = BLEND and Z = CULL_FACE. *)
Definition snapshotXY : Snapshot :=
  mkSnapshot None None None None None (Some (sampleShader sampleDescriptors))
    None {[ gl.DEPTH_TEST := true; gl.BLEND := true ]}.

Definition techniqueYZ : Technique.T :=
  Technique.Enable (Technique.Enable sampleTechnique gl.BLEND) gl.CULL_FACE.

(** The sample technique rendering into the sample framebuffer, and the
    snapshot it leaves when it is the first technique applied. *)
Definition offscreenTechnique : Technique.T :=
  Technique.mk [] (Some (sampleShader sampleDescriptors)) None
    (Some sampleFrameBuffer)
    (Some (mkBlendFunc gl.ONE gl.ZERO)) (Some (mkCullFace gl.BACK))
    (Some (mkDepthMask true)) (Some (mkDepthFunc gl.LESS)) None.

Definition snapshotWithFramebuffer : Snapshot :=
  mkSnapshot (Some (mkBlendFunc gl.ONE gl.ZERO)) (Some (mkCullFace gl.BACK))
    (Some (mkDepthMask true)) (Some (mkDepthFunc gl.LESS)) None
    (Some (sampleShader sampleDescriptors)) (Some sampleFrameBuffer) ∅.

(** A program with the uniform [color] outside every block and the uniform
    [model] in its only block, [Matrices]. *)
Definition sampleDevice : Shader.Device :=
  Shader.mkDevice 2
    (λ i, if i =? 0 then cstring "color" else cstring "model")
    (λ i, if i =? 0 then gl.FLOAT_VEC4 else gl.FLOAT_MAT4)
    (λ _, 1)
    (λ i, if i =? 0 then -1 else 0)
    (λ i, if i =? 0 then -1 else 0)
    (λ name, if String.eqb name "color" then 4 else -1)
    1
    (λ _, cstring "Matrices")
    (λ _, 64)
    256.

(** The snapshot the sample technique leaves when it is the first one
    applied. *)
Definition snapshotAfterSample : Snapshot :=
  mkSnapshot (Some (mkBlendFunc gl.ONE gl.ZERO)) (Some (mkCullFace gl.BACK))
    (Some (mkDepthMask true)) (Some (mkDepthFunc gl.LESS)) None
    (Some (sampleShader sampleDescriptors)) None ∅.

(** The snapshot the technique requesting Y and Z leaves when it is the
    first one applied. *)
Definition snapshotYZ : Snapshot :=
  mkSnapshot (Some (mkBlendFunc gl.ONE gl.ZERO)) (Some (mkCullFace gl.BACK))
    (Some (mkDepthMask true)) (Some (mkDepthFunc gl.LESS)) None
    (Some (sampleShader sampleDescriptors)) None
    {[ gl.BLEND := true; gl.CULL_FACE := true ]}.

(** A renderable drawn from its vertex buffer, and the sample command with
    it as its drawable. *)
Definition sampleRenderable : Ref Renderable.T :=
  mkRef 41 (Renderable.mk 9 (Some (mkRef 42 (VertexBuffer.mk 6))) None
              4 3 0 0 0 0).

Definition sampleCommand : Ref Command.T :=
  mkRef 32 (Command.Renderable_ (target drawablelessCommand)
              (Some sampleRenderable)).

(** The sample command with one more uniform, which the sample shader does
    not declare. *)
Definition sloppyCommand : Ref Command.T :=
  mkRef 33 (Command.Uniform (target sampleCommand) "doesNotExist"
              (VFloat32 0)).

(** * Properties *)

(** ** The [GL] monad *)

Lemma bind_ret_l {A B} (a : A) (f : A → GL B) : (mret a ≫= f) = f a.
Proof. unfold mbind, GL_bind, mret, GL_ret. simpl. by destruct (f a). Qed.

Lemma bind_panic_l {A B} (f : A → GL B) : (panic ≫= f) = panic.
Proof. reflexivity. Qed.

Lemma bind_pair {A B} (tr : list glcall) (a : A) (f : A → GL B) :
  ((tr, Some a) ≫= f) = (tr ++ (f a).1, (f a).2).
Proof. reflexivity. Qed.

(** ** Aligned size (texture.go / uniform block descriptor) *)

Lemma wrap32_id z : int32_range z → wrap32 z = z.
Proof.
  unfold int32_range, wrap32. intros H.
  rewrite Z.mod_small by lia. lia.
Qed.

(** When the size is an exact positive multiple of the alignment the
    formula adds a whole alignment unit. *)
Lemma AlignedSize_multiple_overpads name idx offs size alignment :
  0 < alignment → 0 <= size → (alignment | size) →
  size + alignment < 2 ^ 31 →
  UniformBlockDescriptor.AlignedSize
    (UniformBlockDescriptor.mk name idx size offs alignment)
  = Some (size + alignment).
Proof.
  intros Ha Hs Hdiv Hfit. unfold UniformBlockDescriptor.AlignedSize. simpl.
  destruct (decide (alignment = 0)) as [->|_]; [lia|].
  f_equal. apply Z.rem_divide in Hdiv; [|lia]. rewrite Hdiv, Z.sub_0_r.
  apply wrap32_id. unfold int32_range. lia.
Qed.

(** When the size is not a multiple of the alignment the formula does round
    up to the least multiple. *)
Lemma AlignedSize_not_multiple_rounds_up name idx offs size alignment :
  0 < alignment → 0 <= size → ¬ (alignment | size) →
  size + alignment < 2 ^ 31 →
  ∃ r, UniformBlockDescriptor.AlignedSize
         (UniformBlockDescriptor.mk name idx size offs alignment) = Some r
       ∧ least_multiple_geq alignment size r.
Proof.
  intros Ha Hs Hnd Hfit. unfold UniformBlockDescriptor.AlignedSize. simpl.
  destruct (decide (alignment = 0)) as [->|_]; [lia|].
  rewrite Z.rem_mod_nonneg by lia.
  pose proof (Z.mod_pos_bound size alignment Ha) as Hb.
  pose proof (Z.div_mod size alignment ltac:(lia)) as Hdm.
  assert (size mod alignment ≠ 0) as Hne.
  { intros Hz. apply Hnd. apply Z.mod_divide; lia. }
  rewrite wrap32_id by (unfold int32_range; lia).
  eexists. split; [reflexivity|].
  split; [|split].
  - exists (size / alignment + 1). nia.
  - lia.
  - intros r' [k ->] Hle.
    assert (size / alignment < k) by nia. nia.
Qed.

(** C1 (code defect).  At Size = 16, Alignment = 16 the code answers 32,
    although 16 is the least multiple of the alignment that is not below
    the size: an exact multiple is padded by a whole alignment unit. *)
Theorem AlignedSize_exact_multiple_is_overpadded :
  UniformBlockDescriptor.AlignedSize (sampleBlock 16 16) = Some 32
  ∧ least_multiple_geq 16 16 16
  ∧ ¬ least_multiple_geq 16 16 32.
Proof.
  split; [reflexivity|]. split.
  - split; [exists 1; lia|]. split; [lia|]. intros r' _ H. exact H.
  - intros (_ & _ & Hmin). specialize (Hmin 16). 
    assert (32 <= 16); [|lia]. apply Hmin; [exists 1; lia|lia].
Qed.

(** ** The uniform binder (shader.go) *)

Lemma SetUniform_known (s : Ref Shader.T) name d arg :
  Shader.descriptors (target s) !! name = Some d →
  Shader.SetUniform (Some s) name arg = Shader.dispatch d arg.
Proof.
  intros Hd. unfold Shader.SetUniform, deref. rewrite bind_ret_l. simpl.
  by rewrite Hd.
Qed.

(** Splits [ty ∈ handledTypes] into its ten cases. *)
Ltac handled_cases H :=
  unfold handledTypes in H;
  repeat (apply elem_of_cons in H as [H|H]);
  [..|by apply elem_of_nil in H].

(** C6.  A name absent from the descriptor map is rejected with the
    unknown-uniform error and reaches no device call. *)
Theorem SetUniform_unknown_name (s : Ref Shader.T) (name : string)
    (arg : value) :
  Shader.descriptors (target s) !! name = None →
  Shader.SetUniform (Some s) name arg
  = ([], Some (Some (ErrUniformNotRecognized name))).
Proof.
  intros Hd. unfold Shader.SetUniform, deref. rewrite bind_ret_l. simpl.
  by rewrite Hd.
Qed.

Lemma SetUniform_unknown_name_witness :
  Shader.SetUniform (Some (sampleShader sampleDescriptors)) "doesNotExist"
    (VFloat32 0)
  = ([], Some (Some (ErrUniformNotRecognized "doesNotExist"))).
Proof. apply SetUniform_unknown_name. vm_compute. reflexivity. Defined.

(** C10.  A known uniform whose type is none of the ten handled ones is
    accepted without any device call. *)
Theorem SetUniform_unhandled_type_ignored (s : Ref Shader.T) (name : string)
    (d : UniformDescriptor.T) (arg : value) :
  Shader.descriptors (target s) !! name = Some d →
  UniformDescriptor.Type_ d ∉ handledTypes →
  Shader.SetUniform (Some s) name arg = ([], Some None).
Proof.
  intros Hd Hty. rewrite (SetUniform_known _ _ _ _ Hd).
  unfold Shader.dispatch.
  repeat match goal with
  | |- context [?x =? ?c] =>
      destruct (Z.eqb_spec x c) as [Heq|_];
      [exfalso; apply Hty; rewrite Heq; unfold handledTypes; set_solver|]
  end.
  reflexivity.
Qed.

Lemma SetUniform_unhandled_type_ignored_witness :
  Shader.SetUniform (Some (sampleShader sampleDescriptors)) "uFlag" (VInt32 1)
  = ([], Some None).
Proof.
  apply (SetUniform_unhandled_type_ignored _ _
           (UniformDescriptor.mk "uFlag" gl.BOOL 1 3)).
  - vm_compute. reflexivity.
  - vm_compute. intros H. handled_cases H; discriminate H.
Defined.

(** The code follows the dispatch table of the specification on every
    handled type: the call made is decided by [resolved]. *)
Lemma dispatch_resolved (d : UniformDescriptor.T) (arg : value) (k : setter) :
  resolved d = Some k →
  (shape_of arg = setter_shape k →
     ∃ c, Shader.dispatch d arg = ([c], Some None)
          ∧ setter_of_call c = Some k
          ∧ location_of_call c = Some (UniformDescriptor.Location d))
  ∧ (shape_of arg ≠ setter_shape k →
     ∃ e, Shader.dispatch d arg = ([], Some (Some e))
          ∧ is_type_mismatch e = true).
Proof.
  destruct d as [nm ty cnt loc]. unfold resolved, Shader.dispatch. simpl.
  intros Hk.
  repeat match type of Hk with
  | context [decide ?P] => destruct (decide P) as [?|?]
  end;
  repeat match goal with
  | H : _ ∨ _ |- _ => destruct H
  | H : ¬ (_ ∨ _) |- _ => apply Decidable.not_or in H as [? ?]
  end; subst; try discriminate Hk;
  repeat match goal with
  | |- context [?x =? ?c] =>
      destruct (Z.eqb_spec x c); [try (exfalso; congruence; fail)|try congruence]
  end;
  try (case_bool_decide; destruct (Z.ltb_spec 1 cnt); try lia);
  simplify_eq; (split; intros Hshape; destruct arg; simpl in Hshape;
    try discriminate Hshape; try congruence; simpl; eauto).
Qed.

Lemma handled_resolved (d : UniformDescriptor.T) :
  UniformDescriptor.Type_ d ∈ handledTypes ↔ is_Some (resolved d).
Proof.
  destruct d as [nm ty cnt loc]. unfold resolved. simpl. split.
  - intros H. handled_cases H; subst; vm_compute; eauto.
  - intros [k Hk]. unfold handledTypes.
    repeat match type of Hk with
    | context [decide ?P] => destruct (decide P) as [?|?]
    end; try discriminate Hk;
    repeat match goal with H : _ ∨ _ |- _ => destruct H end;
    subst; set_solver.
Qed.

(** [resolved] is the table the specification words: scalar-int for
    samplers, array-style by count for int, uint and float, always
    array-style for vectors and matrices. *)
Lemma resolved_table (d : UniformDescriptor.T) (k : setter) :
  resolved d = Some k →
  let ty := UniformDescriptor.Type_ d in
  (ty ∈ [gl.SAMPLER_2D; gl.SAMPLER_CUBE] → k = ScalarInt)
  ∧ (ty ∈ [gl.INT; gl.UNSIGNED_INT; gl.FLOAT] →
       (array_style k = true ↔ 1 < UniformDescriptor.Count d))
  ∧ (ty ∈ [gl.FLOAT_VEC2; gl.FLOAT_VEC3; gl.FLOAT_VEC4; gl.FLOAT_MAT3;
           gl.FLOAT_MAT4] → array_style k = true).
Proof.
  destruct d as [nm ty cnt loc]. unfold resolved. simpl. intros Hk.
  repeat match type of Hk with
  | context [decide ?P] => destruct (decide P) as [?|?]
  end;
  repeat match goal with
  | H : _ ∨ _ |- _ => destruct H
  end; subst; try discriminate Hk;
  (split; [|split]); intros Hin;
  repeat (apply elem_of_cons in Hin as [Hin|Hin]);
  try (by apply elem_of_nil in Hin);
  try (vm_compute in Hin; discriminate Hin);
  try case_bool_decide; simplify_eq; simpl; try done;
  split; try done; try lia; discriminate.
Qed.

(** C7 (as stated).  A uniform the shader knows, of type [gl.BOOL]: the
    call succeeds and makes no device call at all, so "on success exactly
    one device call" does not hold for every known name. *)
Lemma SetUniform_known_name_without_call :
  ¬ (∀ (s : Ref Shader.T) name d arg,
       Shader.descriptors (target s) !! name = Some d →
       result (Shader.SetUniform (Some s) name arg) = Some None →
       ∃ c, trace (Shader.SetUniform (Some s) name arg) = [c]).
Proof.
  intros H.
  destruct (H (sampleShader sampleDescriptors) "uFlag"
              (UniformDescriptor.mk "uFlag" gl.BOOL 1 3) (VInt32 1))
    as [c Hc].
  - vm_compute. reflexivity.
  - vm_compute. reflexivity.
  - vm_compute in Hc. discriminate Hc.
Qed.

(** C7 (amended).  For a known uniform of one of the ten handled types the
    call is resolved by the descriptor alone, through the table: samplers go
    to the scalar-int call; int, uint and float go to the array-style call
    of their type exactly when the count exceeds one, and to the scalar call
    otherwise; vectors and matrices always go to their array-style call.
    Whatever the value, a success issues exactly that one call, at the
    descriptor's location, and a value of the shape that call expects does
    succeed. *)
Theorem SetUniform_dispatch_handled (s : Ref Shader.T) (name : string)
    (d : UniformDescriptor.T) :
  Shader.descriptors (target s) !! name = Some d →
  UniformDescriptor.Type_ d ∈ handledTypes →
  let ty := UniformDescriptor.Type_ d in
  ∃ k,
    resolved d = Some k
    ∧ (ty ∈ [gl.SAMPLER_2D; gl.SAMPLER_CUBE] → k = ScalarInt)
    ∧ (ty ∈ [gl.INT; gl.UNSIGNED_INT; gl.FLOAT] →
         (array_style k = true ↔ 1 < UniformDescriptor.Count d))
    ∧ (ty ∈ [gl.FLOAT_VEC2; gl.FLOAT_VEC3; gl.FLOAT_VEC4; gl.FLOAT_MAT3;
             gl.FLOAT_MAT4] → array_style k = true)
    ∧ ∀ arg : value,
        let run := Shader.SetUniform (Some s) name arg in
        (result run = Some None →
           ∃ c, trace run = [c] ∧ setter_of_call c = Some k
                ∧ location_of_call c = Some (UniformDescriptor.Location d))
        ∧ (shape_of arg = setter_shape k →
             ∃ c, run = ([c], Some None) ∧ setter_of_call c = Some k
                  ∧ location_of_call c
                    = Some (UniformDescriptor.Location d)).
Proof.
  intros Hd Hty ty.
  destruct (proj1 (handled_resolved d) Hty) as [k Hk]. exists k.
  destruct (resolved_table d k Hk) as (Hs & Hi & Hv).
  split; [exact Hk|]. split; [exact Hs|]. split; [exact Hi|].
  split; [exact Hv|].
  intros arg run. subst run. rewrite (SetUniform_known _ _ _ _ Hd).
  destruct (dispatch_resolved d arg k Hk) as [Hok Hbad].
  split.
  - intros Hres. destruct (decide (shape_of arg = setter_shape k)) as [Hsh|Hsh].
    + destruct (Hok Hsh) as (c & Hc & Hkc & Hl). exists c.
      rewrite Hc. auto.
    + destruct (Hbad Hsh) as (e & He & _). rewrite He in Hres. discriminate.
  - intros Hsh. exact (Hok Hsh).
Qed.

Lemma SetUniform_dispatch_handled_witness :
  ∃ k,
    resolved (UniformDescriptor.mk "uLights" gl.FLOAT 4 1) = Some k
    ∧ (gl.FLOAT ∈ [gl.SAMPLER_2D; gl.SAMPLER_CUBE] → k = ScalarInt)
    ∧ (gl.FLOAT ∈ [gl.INT; gl.UNSIGNED_INT; gl.FLOAT] →
         (array_style k = true ↔ 1 < 4))
    ∧ (gl.FLOAT ∈ [gl.FLOAT_VEC2; gl.FLOAT_VEC3; gl.FLOAT_VEC4;
                   gl.FLOAT_MAT3; gl.FLOAT_MAT4] → array_style k = true)
    ∧ ∀ arg : value,
        let run := Shader.SetUniform (Some (sampleShader sampleDescriptors))
                     "uLights" arg in
        (result run = Some None →
           ∃ c, trace run = [c] ∧ setter_of_call c = Some k
                ∧ location_of_call c = Some 1)
        ∧ (shape_of arg = setter_shape k →
             ∃ c, run = ([c], Some None) ∧ setter_of_call c = Some k
                  ∧ location_of_call c = Some 1).
Proof.
  apply (SetUniform_dispatch_handled (sampleShader sampleDescriptors)
           "uLights" (UniformDescriptor.mk "uLights" gl.FLOAT 4 1)).
  - vm_compute. reflexivity.
  - unfold handledTypes. simpl. set_solver.
Defined.

(** C8.  For a known uniform whose value does not have the shape the
    resolved call expects, [SetUniform] returns the type-mismatch error and
    reaches no device call. *)
Theorem SetUniform_type_mismatch (s : Ref Shader.T) (name : string)
    (d : UniformDescriptor.T) (k : setter) (arg : value) :
  Shader.descriptors (target s) !! name = Some d →
  resolved d = Some k →
  shape_of arg ≠ setter_shape k →
  ∃ e, Shader.SetUniform (Some s) name arg = ([], Some (Some e))
       ∧ is_type_mismatch e = true.
Proof.
  intros Hd Hk Hsh. rewrite (SetUniform_known _ _ _ _ Hd).
  by apply (dispatch_resolved d arg k Hk).
Qed.

Lemma SetUniform_type_mismatch_witness :
  ∃ e, Shader.SetUniform (Some (sampleShader sampleDescriptors)) "uModel"
         (VFloat32 1065353216) = ([], Some (Some e))
       ∧ is_type_mismatch e = true.
Proof.
  apply (SetUniform_type_mismatch (sampleShader sampleDescriptors) "uModel"
           (UniformDescriptor.mk "uModel" gl.FLOAT_MAT4 1 2) ArrayMat4).
  - vm_compute. reflexivity.
  - vm_compute. reflexivity.
  - simpl. discriminate.
Defined.

(** ** Framebuffer attachments (framebuffer.go) *)

Lemma checkAttachmentError_complete status :
  FrameBuffer.checkAttachmentError status = None
  ↔ status = gl.FRAMEBUFFER_COMPLETE.
Proof.
  unfold FrameBuffer.checkAttachmentError. split.
  - repeat match goal with
    | |- context [?x =? ?c] => destruct (Z.eqb_spec x c); try done
    end.
  - intros ->. reflexivity.
Qed.

Lemma checkAttachmentError_incomplete status :
  status ≠ gl.FRAMEBUFFER_COMPLETE →
  ∃ msg, FrameBuffer.checkAttachmentError status
         = Some (ErrFramebufferStatus msg).
Proof.
  intros Hs. unfold FrameBuffer.checkAttachmentError.
  repeat match goal with
  | |- context [?x =? ?c] => destruct (Z.eqb_spec x c); [try done; eauto|]
  end.
  eauto.
Qed.

(** C9.  [AttachTexture] on a framebuffer [f]:
    - an attachment id that already holds a texture is refused with the
      already-attached error, before any device call;
    - a status other than [FRAMEBUFFER_COMPLETE] is reported as an error
      naming the cause;
    - whenever an error is returned the framebuffer, and with it the
      attachment map, is as it was;
    - the texture is recorded under the id exactly when no error is
      returned. *)
Theorem AttachTexture_errors_leave_attachments (f : Ref FrameBuffer.T)
    (attachment : Z) (texture : ptr Texture.T) (status : Z) :
  let run := FrameBuffer.AttachTexture (Some f) attachment texture status in
  (is_Some (FrameBuffer.lookupTexture (target f) attachment) →
     run = ([], Some (target f, Some (ErrAlreadyAttached attachment))))
  ∧ (FrameBuffer.lookupTexture (target f) attachment = None →
     texture ≠ None → status ≠ gl.FRAMEBUFFER_COMPLETE →
     ∃ msg, result run = Some (target f, Some (ErrFramebufferStatus msg)))
  ∧ (∀ f' e, result run = Some (f', Some e) → f' = target f)
  ∧ (∀ f', result run = Some (f', None) →
       FrameBuffer.lookupTexture (target f) attachment = None
       ∧ FrameBuffer.lookupTexture f' attachment = Some texture
       ∧ ∀ other, other ≠ attachment →
           FrameBuffer.lookupTexture f' other
           = FrameBuffer.lookupTexture (target f) other).
Proof.
  destruct f as [a [fid tex]]. simpl.
  unfold FrameBuffer.AttachTexture, deref. rewrite bind_ret_l. simpl.
  destruct (FrameBuffer.lookupTexture _ attachment) as [old|] eqn:Hl.
  - split; [done|]. split; [done|]. split.
    + intros f' e H. simpl in H. by simplify_eq.
    + intros f' H. simpl in H. by simplify_eq.
  - split; [by intros [? ?]|].
    destruct texture as [t|]; simpl.
    + destruct (FrameBuffer.checkAttachmentError status) as [e|] eqn:He;
        simpl.
      * split; [intros _ _ Hs|split].
        -- destruct (checkAttachmentError_incomplete status Hs) as [msg Hm].
           exists msg. congruence.
        -- intros f' e' H. by simplify_eq.
        -- intros f' H. by simplify_eq.
      * apply checkAttachmentError_complete in He.
        split; [intros _ _ Hs; done|].
        unfold FrameBuffer.lookupTexture in *. simpl in *.
        destruct tex as [m|]; simpl.
        -- split; [intros f' e H; by simplify_eq|].
           intros f' H. simplify_eq. simpl. split; [done|].
           split; [apply lookup_insert_eq|].
           intros other Ho. by apply lookup_insert_ne.
        -- split; [intros f' e H; by simplify_eq|].
           intros f' H. by simplify_eq.
    + split; [intros _ Ht; done|]. split.
      * intros f' e H. by simplify_eq.
      * intros f' H. by simplify_eq.
Qed.

Lemma AttachTexture_errors_leave_attachments_witness :
  FrameBuffer.AttachTexture (Some sampleFrameBuffer) COLOR_ATTACHMENT0
    (Some sampleTexture) gl.FRAMEBUFFER_COMPLETE
  = ([], Some (target sampleFrameBuffer,
               Some (ErrAlreadyAttached COLOR_ATTACHMENT0))).
Proof.
  apply (AttachTexture_errors_leave_attachments sampleFrameBuffer
           COLOR_ATTACHMENT0 (Some sampleTexture) gl.FRAMEBUFFER_COMPLETE).
  vm_compute. eauto.
Defined.

(** A free attachment point and a complete framebuffer: bind, attach,
    unbind, and the texture is recorded. *)
Example AttachTexture_success :
  FrameBuffer.AttachTexture (Some sampleFrameBuffer) COLOR_ATTACHMENT1
    (Some sampleTexture) gl.FRAMEBUFFER_COMPLETE
  = ([gl.BindFramebuffer gl.FRAMEBUFFER 3;
      gl.FramebufferTexture2D gl.FRAMEBUFFER COLOR_ATTACHMENT1 gl.TEXTURE_2D 5 0;
      gl.BindFramebuffer gl.FRAMEBUFFER 0],
     Some (FrameBuffer.mk 3
             (Some (<[COLOR_ATTACHMENT1 := Some sampleTexture]>
                      {[ COLOR_ATTACHMENT0 := Some sampleTexture ]})),
           None)).
Proof. reflexivity. Qed.

(** The same attachment on an incomplete framebuffer: the device calls are
    made, the cause is reported and nothing is recorded. *)
Example AttachTexture_incomplete :
  FrameBuffer.AttachTexture (Some sampleFrameBuffer) COLOR_ATTACHMENT1
    (Some sampleTexture) gl.FRAMEBUFFER_UNSUPPORTED
  = ([gl.BindFramebuffer gl.FRAMEBUFFER 3;
      gl.FramebufferTexture2D gl.FRAMEBUFFER COLOR_ATTACHMENT1 gl.TEXTURE_2D 5 0;
      gl.BindFramebuffer gl.FRAMEBUFFER 0],
     Some (target sampleFrameBuffer,
           Some (ErrFramebufferStatus "the combination of internal formats of the attached images violates an implementation-dependent set of restrictions."))).
Proof. reflexivity. Qed.

(** ** Traces and results of composed runs *)

Lemma trace_bind {A B} (m : GL A) (f : A → GL B) :
  trace (m ≫= f)
  = trace m ++ match result m with Some a => trace (f a) | None => [] end.
Proof. destruct m as [tr [a|]]; simpl; [done|by rewrite app_nil_r]. Qed.

Lemma result_bind {A B} (m : GL A) (f : A → GL B) :
  result (m ≫= f) = result m ≫= λ a, result (f a).
Proof. by destruct m as [tr [a|]]. Qed.

Lemma result_bind_panic_l {A B} (m : GL A) (f : A → GL B) :
  result m = None → result (m ≫= f) = None.
Proof. intros H. by rewrite result_bind, H. Qed.

Lemma result_bind_panic_r {A B} (m : GL A) (f : A → GL B) :
  (∀ a, result (f a) = None) → result (m ≫= f) = None.
Proof. intros H. rewrite result_bind. destruct (result m); simpl; auto. Qed.

(** A loop whose body panics at one of its elements panics. *)
Lemma forM_panic {A B} (body : A → B → GL A) (xs : list B) (x : B) (a : A) :
  x ∈ xs → (∀ a', result (body a' x) = None) → result (forM body xs a) = None.
Proof.
  intros Hin Hx. revert a.
  induction xs as [|y xs IH]; intros a; [by apply elem_of_nil in Hin|].
  simpl. apply elem_of_cons in Hin as [->|Hin].
  - apply result_bind_panic_l, Hx.
  - apply result_bind_panic_r. intros a'. by apply IH.
Qed.

(** A loop issues only calls its rounds issue. *)
Lemma forM_trace_Forall {A B} (P : glcall → Prop) (body : A → B → GL A)
    (xs : list B) (a : A) :
  (∀ a' x, x ∈ xs → Forall P (trace (body a' x))) →
  Forall P (trace (forM body xs a)).
Proof.
  revert a. induction xs as [|y xs IH]; intros a Hb; simpl; [constructor|].
  rewrite trace_bind. apply Forall_app. split.
  - apply Hb. by left.
  - destruct (result (body a y)); [|constructor].
    apply IH. intros a' x Hx. apply Hb. by right.
Qed.

(** ** Commands without a drawable *)

Lemma Texture_Bind_no_drawable_call (t : ptr Texture.T) (location : Z) :
  Forall (λ c, is_drawable_call c = false) (trace (Texture.Bind t location)).
Proof. destruct t as [[? ?]|]; repeat constructor. Qed.

Lemma dispatch_no_drawable_call (d : UniformDescriptor.T) (arg : value) :
  Forall (λ c, is_drawable_call c = false) (trace (Shader.dispatch d arg)).
Proof.
  unfold Shader.dispatch.
  repeat match goal with
  | |- context [if ?b then _ else _] => destruct b
  end; destruct arg; repeat constructor.
Qed.

Lemma SetUniform_no_drawable_call (s : ptr Shader.T) name (arg : value) :
  Forall (λ c, is_drawable_call c = false)
         (trace (Shader.SetUniform s name arg)).
Proof.
  destruct s as [[a sh]|]; [|constructor].
  unfold Shader.SetUniform, deref. rewrite bind_ret_l. simpl.
  destruct (Shader.descriptors sh !! name); [|constructor].
  apply dispatch_no_drawable_call.
Qed.

(** C3 (code defect).  Executing a command whose drawable was never set
    does issue no drawable call, but it does not complete: binding the nil
    renderable reads its id and the run panics, and so does every
    [Technique.Draw] over a list holding such a command. *)
Theorem Execute_without_renderable_panics (c : Ref Command.T)
    (t : Technique.T) (commands : list (ptr Command.T)) (s : Snapshot) :
  Command.renderable (target c) = None →
  result (Command.Execute (Some c) (Technique.shader t)) = None
  ∧ Forall (λ call, is_drawable_call call = false)
           (trace (Command.Execute (Some c) (Technique.shader t)))
  ∧ (Some c ∈ commands → result (Technique.Draw t commands s) = None).
Proof.
  intros Hr.
  assert (result (Command.Execute (Some c) (Technique.shader t)) = None)
    as Hpanic.
  { unfold Command.Execute, deref. rewrite bind_ret_l, Hr.
    apply result_bind_panic_r. intros _.
    apply result_bind_panic_r. intros _.
    reflexivity. }
  split; [exact Hpanic|]. split.
  - clear Hpanic. unfold Command.Execute, deref. rewrite bind_ret_l, Hr.
    rewrite trace_bind. apply Forall_app. split.
    { apply forM_trace_Forall. intros _ lt _.
      apply Texture_Bind_no_drawable_call. }
    match goal with |- context [result ?m] => destruct (result m) end;
      [|constructor].
    rewrite trace_bind. apply Forall_app. split.
    { apply forM_trace_Forall. intros _ nv _.
      rewrite trace_bind. apply Forall_app. split.
      - apply SetUniform_no_drawable_call.
      - destruct (result (Shader.SetUniform _ _ _)); apply Forall_nil_2. }
    match goal with |- context [result ?m] => destruct (result m) end;
      apply Forall_nil_2.
  - intros Hin. unfold Technique.Draw.
    apply result_bind_panic_r. intros s'.
    apply result_bind_panic_l.
    apply (forM_panic _ _ (Some c)); [exact Hin|].
    intros _. exact Hpanic.
Qed.

Lemma Execute_without_renderable_panics_witness :
  result (Command.Execute (Some drawablelessCommand)
            (Technique.shader sampleTechnique)) = None
  ∧ Forall (λ call, is_drawable_call call = false)
           (trace (Command.Execute (Some drawablelessCommand)
                     (Technique.shader sampleTechnique)))
  ∧ (Some drawablelessCommand ∈ [Some drawablelessCommand] →
     result (Technique.Draw sampleTechnique [Some drawablelessCommand]
               initialSnapshot) = None).
Proof.
  apply (Execute_without_renderable_panics drawablelessCommand sampleTechnique
           [Some drawablelessCommand] initialSnapshot).
  reflexivity.
Defined.

(** The run on the sample command: the texture is bound, the uniform is
    set, then the run stops at the nil renderable. *)
Example Execute_drawableless_sample :
  Command.Execute (Some drawablelessCommand) (Technique.shader sampleTechnique)
  = ([gl.ActiveTexture 0x84C0; gl.BindTexture gl.TEXTURE_2D 5;
      gl.Uniform1i 0 0], None).
Proof. vm_compute. reflexivity. Qed.

(** ** The render-state cache (technique.go): capability reconciliation *)

Lemma enabled_true (m : gmap Z bool) (c : Z) :
  enabled m c = true ↔ m !! c = Some true.
Proof.
  unfold enabled. destruct (m !! c) as [[|]|]; simpl; split; congruence.
Qed.

Lemma enabled_insert (m : gmap Z bool) (x c : Z) :
  enabled (<[x := true]> m) c = false ↔ c ≠ x ∧ enabled m c = false.
Proof.
  unfold enabled. destruct (decide (c = x)) as [->|Hne].
  - rewrite lookup_insert_eq. simpl. split; [done|]. by intros [? _].
  - rewrite lookup_insert_ne by done. tauto.
Qed.

Lemma enableStep_eq (prev stale : gmap Z bool) (x : Z) :
  Technique.enableStep (prev, stale) x
  = if enabled prev x then ([], Some (prev, delete x stale))
    else ([gl.Enable x], Some (<[x := true]> prev, delete x stale)).
Proof. unfold Technique.enableStep. by destruct (enabled prev x) eqn:E; simpl; rewrite E. Qed.

Lemma disableStep_eq (prev : gmap Z bool) (x : Z) :
  Technique.disableStep prev x = ([gl.Disable x], Some (delete x prev)).
Proof. reflexivity. Qed.

(** The enabling loop: every requested capability ends up recorded as
    enabled and leaves the stale set; [gl.Enable] is called for exactly the
    requested capabilities that were not enabled before. *)
Lemma enableLoop_spec (l : list Z) (prev stale : gmap Z bool) :
  ∃ tr prev' stale',
    forM Technique.enableStep l (prev, stale) = (tr, Some (prev', stale'))
    ∧ (∀ c, c ∈ l → prev' !! c = Some true ∧ stale' !! c = None)
    ∧ (∀ c, c ∉ l → prev' !! c = prev !! c ∧ stale' !! c = stale !! c)
    ∧ (∀ call, call ∈ tr ↔
         ∃ c, call = gl.Enable c ∧ c ∈ l ∧ enabled prev c = false).
Proof.
  revert prev stale. induction l as [|x l IH]; intros prev stale.
  - exists [], prev, stale. split; [done|].
    split; [intros c H; by apply elem_of_nil in H|]. split; [done|].
    intros call. split; [intros H; by apply elem_of_nil in H|].
    intros (c & _ & H & _). by apply elem_of_nil in H.
  - cbn [forM]. rewrite enableStep_eq.
    destruct (enabled prev x) eqn:Hx; rewrite bind_pair; cbn [fst snd app].
    + destruct (IH prev (delete x stale))
        as (tr & prev' & stale' & Hrun & Hin & Hout & Ht).
      exists tr, prev', stale'. rewrite Hrun.
      split; [done|]. apply enabled_true in Hx.
      split; [|split].
      * intros c Hc. destruct (decide (c ∈ l)) as [Hl|Hl]; [by apply Hin|].
        apply elem_of_cons in Hc as [->|Hc]; [|done].
        destruct (Hout x Hl) as [-> ->]. by rewrite lookup_delete_eq.
      * intros c Hc. apply not_elem_of_cons in Hc as [Hne Hl].
        destruct (Hout c Hl) as [-> ->]. by rewrite lookup_delete_ne.
      * intros call. rewrite Ht. split.
        -- intros (c & -> & Hc & He). exists c.
           split; [done|]. split; [by right|done].
        -- intros (c & -> & Hc & He). exists c. split; [done|].
           split; [|done]. apply elem_of_cons in Hc as [->|Hc]; [|done].
           apply enabled_true in Hx. congruence.
    + destruct (IH (<[x := true]> prev) (delete x stale))
        as (tr & prev' & stale' & Hrun & Hin & Hout & Ht).
      exists (gl.Enable x :: tr), prev', stale'. rewrite Hrun.
      split; [done|]. split; [|split].
      * intros c Hc. destruct (decide (c ∈ l)) as [Hl|Hl]; [by apply Hin|].
        apply elem_of_cons in Hc as [->|Hc]; [|done].
        destruct (Hout x Hl) as [-> ->].
        by rewrite lookup_insert_eq, lookup_delete_eq.
      * intros c Hc. apply not_elem_of_cons in Hc as [Hne Hl].
        destruct (Hout c Hl) as [-> ->].
        by rewrite lookup_insert_ne, lookup_delete_ne.
      * intros call. rewrite elem_of_cons, Ht. split.
        -- intros [->|(c & -> & Hc & He)].
           ++ exists x. split; [done|]. split; [by left|done].
           ++ exists c. split; [done|]. split; [by right|].
              by apply enabled_insert in He as [_ He].
        -- intros (c & -> & Hc & He).
           destruct (decide (c = x)) as [->|Hne]; [by left|right].
           exists c. split; [done|].
           apply elem_of_cons in Hc as [?|Hc]; [done|]. split; [done|].
           apply enabled_insert. by split.
Qed.

(** The disabling loop calls [gl.Disable] for every stale capability and
    removes it from the snapshot. *)
Lemma disableLoop_spec (ks : list Z) (prev : gmap Z bool) :
  ∃ prev',
    forM Technique.disableStep ks prev = (gl.Disable <$> ks, Some prev')
    ∧ (∀ c, c ∈ ks → prev' !! c = None)
    ∧ (∀ c, c ∉ ks → prev' !! c = prev !! c).
Proof.
  revert prev. induction ks as [|k ks IH]; intros prev.
  - exists prev. split; [done|].
    split; [intros c H; by apply elem_of_nil in H|done].
  - destruct (IH (delete k prev)) as (prev' & Hrun & Hin & Hout).
    exists prev'. cbn [forM]. rewrite disableStep_eq, bind_pair, Hrun.
    split; [done|]. split.
    + intros c Hc. destruct (decide (c ∈ ks)) as [Hl|Hl]; [by apply Hin|].
      apply elem_of_cons in Hc as [->|Hc]; [|done].
      rewrite (Hout k Hl). apply lookup_delete_eq.
    + intros c Hc. apply not_elem_of_cons in Hc as [Hne Hl].
      rewrite (Hout c Hl). by apply lookup_delete_ne.
Qed.

(** The capability step as a whole. *)
Lemma setupEnables_spec (t : Technique.T) (prev : gmap Z bool) :
  ∃ tr prev',
    Technique.setupEnables t prev = (tr, Some prev')
    ∧ (∀ c, c ∈ Technique.enables t → prev' !! c = Some true)
    ∧ (∀ c, c ∉ Technique.enables t → prev' !! c = None)
    ∧ (∀ c, gl.Enable c ∈ tr ↔
            c ∈ Technique.enables t ∧ enabled prev c = false)
    ∧ (∀ c, gl.Disable c ∈ tr ↔
            is_Some (prev !! c) ∧ c ∉ Technique.enables t)
    ∧ Forall (λ call, is_capability_call call = true) tr.
Proof.
  unfold Technique.setupEnables.
  destruct (enableLoop_spec (Technique.enables t) prev (Technique.staleOf prev))
    as (tr1 & prev1 & stale1 & Hrun1 & Hin1 & Hout1 & Ht1).
  rewrite Hrun1, bind_pair. cbn [fst snd].
  destruct (disableLoop_spec (map_to_list stale1).*1 prev1)
    as (prev2 & Hrun2 & Hin2 & Hout2).
  rewrite Hrun2. cbn [fst snd].
  assert (Hkeys : ∀ c, c ∈ (map_to_list stale1).*1 ↔
            is_Some (prev !! c) ∧ c ∉ Technique.enables t).
  { intros c. rewrite list_elem_of_fmap. split.
    - intros ([k v] & -> & Hkv). cbn [fst].
      apply elem_of_map_to_list in Hkv.
      destruct (decide (k ∈ Technique.enables t)) as [Hk|Hk].
      { destruct (Hin1 k Hk) as [_ Hs]. congruence. }
      split; [|done]. destruct (Hout1 k Hk) as [_ Hs]. rewrite Hs in Hkv.
      unfold Technique.staleOf in Hkv.
      rewrite lookup_fmap in Hkv. destruct (prev !! k); [eauto|done].
    - intros [[v Hv] Hnin]. exists (c, true). split; [done|].
      apply elem_of_map_to_list. destruct (Hout1 c Hnin) as [_ ->].
      unfold Technique.staleOf. by rewrite lookup_fmap, Hv. }
  exists (tr1 ++ (gl.Disable <$> (map_to_list stale1).*1)), prev2.
  split; [done|]. split; [|split; [|split; [|split]]].
  - intros c Hc. rewrite Hout2; [by apply Hin1|]. rewrite Hkeys. tauto.
  - intros c Hc.
    destruct (decide (c ∈ (map_to_list stale1).*1)) as [Hk|Hk];
      [by apply Hin2|].
    rewrite (Hout2 c Hk). destruct (Hout1 c Hc) as [-> _].
    rewrite Hkeys in Hk. destruct (prev !! c) eqn:E; [|done].
    exfalso. apply Hk. eauto.
  - intros c. rewrite elem_of_app, Ht1, list_elem_of_fmap. split.
    + intros [(c' & [= ->] & Hc & He)|(k & [=] & _)]. done.
    + intros [Hc He]. left. eauto.
  - intros c. rewrite elem_of_app, Ht1, list_elem_of_fmap. split.
    + intros [(c' & [=] & _)|(k & [= ->] & Hk)]. by apply Hkeys.
    + intros H. right. exists c. split; [done|]. by apply Hkeys.
  - apply Forall_app. split.
    + apply Forall_forall. intros call Hcall. apply Ht1 in Hcall.
      by destruct Hcall as (c & -> & _).
    + apply Forall_forall. intros call Hcall.
      apply list_elem_of_fmap in Hcall. by destruct Hcall as (c & -> & _).
Qed.

(** ** The render-state cache: the other steps *)

Lemma ptr_eqb_refl {A} (p : ptr A) : ptr_eqb p p = true.
Proof. destruct p as [[a x]|]; simpl; [apply Pos.eqb_refl|done]. Qed.

(** The framebuffer, state-function and viewport steps never panic and
    never toggle a capability; the shader step panics only on a nil shader
    that differs from the cached one. *)
Lemma setupFramebuffer_total (t : Technique.T) (prev : ptr FrameBuffer.T) :
  ∃ tr fb, Technique.setupFramebuffer t prev = (tr, Some fb)
           ∧ Forall (λ c, is_capability_call c = false) tr.
Proof.
  unfold Technique.setupFramebuffer.
  destruct (Technique.framebuffer t) as [[a f]|], prev as [[a' f']|];
    simpl; try destruct (Pos.eqb a a'); simpl; eauto 10.
Qed.

Lemma setupShader_total (t : Technique.T) (prev : ptr Shader.T) :
  (Technique.shader t = None → prev = None) →
  ∃ tr sh, Technique.setupShader t prev = (tr, Some sh)
           ∧ Forall (λ c, is_capability_call c = false) tr.
Proof.
  intros Hs. unfold Technique.setupShader.
  destruct (Technique.shader t) as [[a f]|].
  - destruct prev as [[a' f']|]; simpl; try destruct (Pos.eqb a' a); simpl;
      eauto 10.
  - rewrite (Hs eq_refl). simpl. eauto.
Qed.

Lemma setupBlendFunc_total (t : Technique.T) (prev : option blendFunc) :
  ∃ tr x, Technique.setupBlendFunc t prev = (tr, Some x)
          ∧ Forall (λ c, is_capability_call c = false) tr.
Proof.
  unfold Technique.setupBlendFunc.
  destruct (Technique.blendFunc_ t) as [v|]; [|eauto].
  destruct (blendFunc_Equals v prev); simpl; eauto 10.
Qed.

Lemma setupCullFace_total (t : Technique.T) (prev : option cullFace) :
  ∃ tr x, Technique.setupCullFace t prev = (tr, Some x)
          ∧ Forall (λ c, is_capability_call c = false) tr.
Proof.
  unfold Technique.setupCullFace.
  destruct (Technique.cullFace_ t) as [v|]; [|eauto].
  destruct (cullFace_Equals v prev); simpl; eauto 10.
Qed.

Lemma setupDepthMask_total (t : Technique.T) (prev : option depthMask) :
  ∃ tr x, Technique.setupDepthMask t prev = (tr, Some x)
          ∧ Forall (λ c, is_capability_call c = false) tr.
Proof.
  unfold Technique.setupDepthMask.
  destruct (Technique.depthMask_ t) as [v|]; [|eauto].
  destruct (depthMask_Equals v prev); simpl; eauto 10.
Qed.

Lemma setupDepthFunc_total (t : Technique.T) (prev : option depthFunc) :
  ∃ tr x, Technique.setupDepthFunc t prev = (tr, Some x)
          ∧ Forall (λ c, is_capability_call c = false) tr.
Proof.
  unfold Technique.setupDepthFunc.
  destruct (Technique.depthFunc_ t) as [v|]; [|eauto].
  destruct (depthFunc_Equals v prev); simpl; eauto 10.
Qed.

Lemma setupViewport_total (t : Technique.T) (prev : option Viewport.T) :
  ∃ tr x, Technique.setupViewport t prev = (tr, Some x)
          ∧ Forall (λ c, is_capability_call c = false) tr.
Proof.
  unfold Technique.setupViewport.
  destruct (Technique.viewport t) as [v|]; [|eauto].
  destruct (Viewport.Equals v prev); simpl; eauto 10.
Qed.

(** [setup] from the runs of its eight steps. *)
Lemma setup_steps (t : Technique.T) (s : Snapshot)
    tr1 fb tr2 sh tr3 en tr4 bf tr5 cf tr6 dm tr7 df tr8 vp :
  Technique.setupFramebuffer t (prevFrameBuffer s) = (tr1, Some fb) →
  Technique.setupShader t (prevShader s) = (tr2, Some sh) →
  Technique.setupEnables t (prevEnables s) = (tr3, Some en) →
  Technique.setupBlendFunc t (prevBlendFunc s) = (tr4, Some bf) →
  Technique.setupCullFace t (prevCullFace s) = (tr5, Some cf) →
  Technique.setupDepthMask t (prevDepthMask s) = (tr6, Some dm) →
  Technique.setupDepthFunc t (prevDepthFunc s) = (tr7, Some df) →
  Technique.setupViewport t (prevViewport s) = (tr8, Some vp) →
  Technique.setup t s
  = (tr1 ++ tr2 ++ tr3 ++ tr4 ++ tr5 ++ tr6 ++ tr7 ++ tr8,
     Some (mkSnapshot bf cf dm df vp sh fb en)).
Proof.
  intros H1 H2 H3 H4 H5 H6 H7 H8. unfold Technique.setup.
  rewrite H1, H2, H3, H4, H5, H6, H7, H8.
  rewrite !bind_pair. cbn [fst snd]. unfold mret, GL_ret. cbn [fst snd].
  by rewrite app_nil_r.
Qed.

(** Conversely, a [setup] that returns ran each of its steps. *)
Lemma setup_inv (t : Technique.T) (s s' : Snapshot) :
  result (Technique.setup t s) = Some s' →
  ∃ tr1 tr2 tr3 tr4 tr5 tr6 tr7 tr8,
    Technique.setupFramebuffer t (prevFrameBuffer s)
      = (tr1, Some (prevFrameBuffer s'))
    ∧ Technique.setupShader t (prevShader s) = (tr2, Some (prevShader s'))
    ∧ Technique.setupEnables t (prevEnables s) = (tr3, Some (prevEnables s'))
    ∧ Technique.setupBlendFunc t (prevBlendFunc s)
      = (tr4, Some (prevBlendFunc s'))
    ∧ Technique.setupCullFace t (prevCullFace s)
      = (tr5, Some (prevCullFace s'))
    ∧ Technique.setupDepthMask t (prevDepthMask s)
      = (tr6, Some (prevDepthMask s'))
    ∧ Technique.setupDepthFunc t (prevDepthFunc s)
      = (tr7, Some (prevDepthFunc s'))
    ∧ Technique.setupViewport t (prevViewport s)
      = (tr8, Some (prevViewport s'))
    ∧ trace (Technique.setup t s)
      = tr1 ++ tr2 ++ tr3 ++ tr4 ++ tr5 ++ tr6 ++ tr7 ++ tr8.
Proof.
  intros Hres.
  destruct (setupFramebuffer_total t (prevFrameBuffer s)) as (tr1 & fb & H1 & _).
  destruct (setupEnables_spec t (prevEnables s)) as (tr3 & en & H3 & _).
  destruct (setupBlendFunc_total t (prevBlendFunc s)) as (tr4 & bf & H4 & _).
  destruct (setupCullFace_total t (prevCullFace s)) as (tr5 & cf & H5 & _).
  destruct (setupDepthMask_total t (prevDepthMask s)) as (tr6 & dm & H6 & _).
  destruct (setupDepthFunc_total t (prevDepthFunc s)) as (tr7 & df & H7 & _).
  destruct (setupViewport_total t (prevViewport s)) as (tr8 & vp & H8 & _).
  destruct (Technique.setupShader t (prevShader s)) as [tr2 [sh|]] eqn:H2.
  - rewrite (setup_steps t s _ _ _ _ _ _ _ _ _ _ _ _ _ _ _ _
               H1 H2 H3 H4 H5 H6 H7 H8) in Hres |- *.
    cbn in Hres. injection Hres as <-. cbn.
    exists tr1, tr2, tr3, tr4, tr5, tr6, tr7, tr8. by repeat split.
  - exfalso. revert Hres. unfold Technique.setup.
    rewrite H1, bind_pair, H2. cbn. discriminate.
Qed.

(** [setup] returns unless it has to activate a nil shader, that is, unless
    the technique has no shader while the snapshot holds one. *)
Lemma setup_returns (t : Technique.T) (s : Snapshot) :
  (Technique.shader t = None → prevShader s = None) →
  ∃ s', result (Technique.setup t s) = Some s'.
Proof.
  intros Hs.
  destruct (setupFramebuffer_total t (prevFrameBuffer s)) as (tr1 & fb & H1 & _).
  destruct (setupShader_total t (prevShader s) Hs) as (tr2 & sh & H2 & _).
  destruct (setupEnables_spec t (prevEnables s)) as (tr3 & en & H3 & _).
  destruct (setupBlendFunc_total t (prevBlendFunc s)) as (tr4 & bf & H4 & _).
  destruct (setupCullFace_total t (prevCullFace s)) as (tr5 & cf & H5 & _).
  destruct (setupDepthMask_total t (prevDepthMask s)) as (tr6 & dm & H6 & _).
  destruct (setupDepthFunc_total t (prevDepthFunc s)) as (tr7 & df & H7 & _).
  destruct (setupViewport_total t (prevViewport s)) as (tr8 & vp & H8 & _).
  rewrite (setup_steps t s _ _ _ _ _ _ _ _ _ _ _ _ _ _ _ _
             H1 H2 H3 H4 H5 H6 H7 H8). eauto.
Qed.





(** The scenario of the specification: from {X, Y} and a request for
    {Y, Z}, Z is enabled, X is disabled, Y sees no call, and the snapshot
    holds {Y, Z}. *)
Example setup_XY_to_YZ :
  let run := Technique.setup techniqueYZ snapshotXY in
  filter (λ c, is_capability_call c = true) (trace run)
  = [gl.Enable gl.CULL_FACE; gl.Disable gl.DEPTH_TEST]
  ∧ (prevEnables <$> result run)
    = Some {[ gl.BLEND := true; gl.CULL_FACE := true ]}.
Proof. vm_compute. split; reflexivity. Qed.


(** ** The render-state cache: applying a technique twice *)

(** Each step, run again on what it left, finds nothing to do.  For the
    framebuffer step this needs the technique to name a framebuffer or the
    snapshot to hold none. *)
Lemma setupFramebuffer_again (t : Technique.T) (prev fb : ptr FrameBuffer.T)
    tr :
  Technique.framebuffer t ≠ None ∨ prev = None →
  Technique.setupFramebuffer t prev = (tr, Some fb) →
  Technique.setupFramebuffer t fb = ([], Some fb).
Proof.
  unfold Technique.setupFramebuffer.
  destruct (Technique.framebuffer t) as [[a f]|], prev as [[a' f']|];
    simpl; intros Hc; try (destruct (Pos.eqb a a') eqn:E); simpl;
    intros [= <- <-]; simpl; rewrite ?Pos.eqb_refl, ?E; try done.
  by destruct Hc.
Qed.

(** Without a framebuffer on the technique, a framebuffer left in the
    snapshot is unbound on every run and stays in the snapshot. *)
Lemma setupFramebuffer_unbinds (t : Technique.T) (prev : ptr FrameBuffer.T) :
  Technique.framebuffer t = None → prev ≠ None →
  Technique.setupFramebuffer t prev
  = ([gl.BindFramebuffer gl.FRAMEBUFFER 0], Some prev).
Proof.
  unfold Technique.setupFramebuffer. intros -> Hp.
  destruct prev as [[a f]|]; [reflexivity|done].
Qed.

Lemma setupShader_again (t : Technique.T) (prev sh : ptr Shader.T) tr :
  Technique.setupShader t prev = (tr, Some sh) →
  Technique.setupShader t sh = ([], Some sh).
Proof.
  unfold Technique.setupShader.
  destruct (ptr_eqb prev (Technique.shader t)) eqn:E; simpl.
  - intros [= <- <-]. by rewrite E.
  - destruct (Technique.shader t) as [[a f]|]; simpl; [|discriminate].
    intros [= <- <-]. simpl. by rewrite Pos.eqb_refl.
Qed.

Lemma setupEnables_again (t : Technique.T) (prev en : gmap Z bool) tr :
  Technique.setupEnables t prev = (tr, Some en) →
  Technique.setupEnables t en = ([], Some en).
Proof.
  intros Hrun.
  destruct (setupEnables_spec t prev)
    as (tr1 & en1 & Hrun1 & Hin1 & Hout1 & _).
  rewrite Hrun in Hrun1. injection Hrun1 as <- <-.
  destruct (setupEnables_spec t en)
    as (tr2 & en2 & Hrun2 & Hin2 & Hout2 & HE & HD & Hcap).
  rewrite Hrun2. f_equal.
  - destruct tr2 as [|call tr2]; [done|]. exfalso.
    apply Forall_cons in Hcap as [Hcall _].
    destruct call; try discriminate Hcall.
    + destruct (HE cap) as [[Hc He] _]; [by left|].
      assert (enabled en cap = true); [|congruence].
      apply enabled_true. by apply Hin1.
    + destruct (HD cap) as [[[v Hv] Hc] _]; [by left|].
      rewrite (Hout1 cap Hc) in Hv. discriminate.
  - f_equal. apply map_eq. intros c.
    destruct (decide (c ∈ Technique.enables t)) as [Hc|Hc].
    + by rewrite Hin1, Hin2.
    + by rewrite Hout1, Hout2.
Qed.

Lemma setupBlendFunc_again (t : Technique.T) (prev x : option blendFunc) tr :
  Technique.setupBlendFunc t prev = (tr, Some x) →
  Technique.setupBlendFunc t x = ([], Some x).
Proof.
  unfold Technique.setupBlendFunc.
  destruct (Technique.blendFunc_ t) as [v|]; [|by intros [= <- <-]].
  destruct (blendFunc_Equals v prev) eqn:E; simpl; intros [= <- <-].
  - by rewrite E.
  - simpl. by rewrite !Z.eqb_refl.
Qed.

Lemma setupCullFace_again (t : Technique.T) (prev x : option cullFace) tr :
  Technique.setupCullFace t prev = (tr, Some x) →
  Technique.setupCullFace t x = ([], Some x).
Proof.
  unfold Technique.setupCullFace.
  destruct (Technique.cullFace_ t) as [v|]; [|by intros [= <- <-]].
  destruct (cullFace_Equals v prev) eqn:E; simpl; intros [= <- <-].
  - by rewrite E.
  - simpl. by rewrite !Z.eqb_refl.
Qed.

Lemma setupDepthMask_again (t : Technique.T) (prev x : option depthMask) tr :
  Technique.setupDepthMask t prev = (tr, Some x) →
  Technique.setupDepthMask t x = ([], Some x).
Proof.
  unfold Technique.setupDepthMask.
  destruct (Technique.depthMask_ t) as [v|]; [|by intros [= <- <-]].
  destruct (depthMask_Equals v prev) eqn:E; simpl; intros [= <- <-].
  - by rewrite E.
  - simpl. by destruct (flag v).
Qed.

Lemma setupDepthFunc_again (t : Technique.T) (prev x : option depthFunc) tr :
  Technique.setupDepthFunc t prev = (tr, Some x) →
  Technique.setupDepthFunc t x = ([], Some x).
Proof.
  unfold Technique.setupDepthFunc.
  destruct (Technique.depthFunc_ t) as [v|]; [|by intros [= <- <-]].
  destruct (depthFunc_Equals v prev) eqn:E; simpl; intros [= <- <-].
  - by rewrite E.
  - simpl. by rewrite !Z.eqb_refl.
Qed.

Lemma setupViewport_again (t : Technique.T) (prev x : option Viewport.T) tr :
  Technique.setupViewport t prev = (tr, Some x) →
  Technique.setupViewport t x = ([], Some x).
Proof.
  unfold Technique.setupViewport.
  destruct (Technique.viewport t) as [v|]; [|by intros [= <- <-]].
  destruct (Viewport.Equals v prev) eqn:E; simpl; intros [= <- <-].
  - by rewrite E.
  - simpl. by rewrite !Z.eqb_refl.
Qed.

(** Applying a technique twice in a row: the second run is silent when the
    technique names a framebuffer or the snapshot held none. *)
Lemma setup_again_silent (t : Technique.T) (s s1 : Snapshot) :
  Technique.framebuffer t ≠ None ∨ prevFrameBuffer s = None →
  result (Technique.setup t s) = Some s1 →
  Technique.setup t s1 = ([], Some s1).
Proof.
  intros Hfb Hres.
  destruct (setup_inv t s s1 Hres)
    as (tr1 & tr2 & tr3 & tr4 & tr5 & tr6 & tr7 & tr8
        & H1 & H2 & H3 & H4 & H5 & H6 & H7 & H8 & _).
  rewrite (setup_steps t s1 _ _ _ _ _ _ _ _ _ _ _ _ _ _ _ _
             (setupFramebuffer_again _ _ _ _ Hfb H1)
             (setupShader_again _ _ _ _ H2)
             (setupEnables_again _ _ _ _ H3)
             (setupBlendFunc_again _ _ _ _ H4)
             (setupCullFace_again _ _ _ _ H5)
             (setupDepthMask_again _ _ _ _ H6)
             (setupDepthFunc_again _ _ _ _ H7)
             (setupViewport_again _ _ _ _ H8)).
  by destruct s1.
Qed.

(** Otherwise (no framebuffer on the technique, one left in the snapshot)
    every further run unbinds the framebuffer once more. *)
Lemma setup_again_unbinds (t : Technique.T) (s s1 : Snapshot) :
  Technique.framebuffer t = None → prevFrameBuffer s ≠ None →
  result (Technique.setup t s) = Some s1 →
  Technique.setup t s1 = ([gl.BindFramebuffer gl.FRAMEBUFFER 0], Some s1).
Proof.
  intros Hfb Hprev Hres.
  destruct (setup_inv t s s1 Hres)
    as (tr1 & tr2 & tr3 & tr4 & tr5 & tr6 & tr7 & tr8
        & H1 & H2 & H3 & H4 & H5 & H6 & H7 & H8 & _).
  rewrite (setupFramebuffer_unbinds t _ Hfb Hprev) in H1.
  injection H1 as _ H1.
  assert (prevFrameBuffer s1 ≠ None) as Hprev1 by congruence.
  rewrite (setup_steps t s1 _ _ _ _ _ _ _ _ _ _ _ _ _ _ _ _
             (setupFramebuffer_unbinds t _ Hfb Hprev1)
             (setupShader_again _ _ _ _ H2)
             (setupEnables_again _ _ _ _ H3)
             (setupBlendFunc_again _ _ _ _ H4)
             (setupCullFace_again _ _ _ _ H5)
             (setupDepthMask_again _ _ _ _ H6)
             (setupDepthFunc_again _ _ _ _ H7)
             (setupViewport_again _ _ _ _ H8)).
  by destruct s1.
Qed.

(** No technique carries a framebuffer, so no run of [setup] ever records
    one. *)
Lemma applied_withoutFramebuffer (s : Snapshot) :
  applied withoutFramebuffer s → prevFrameBuffer s = None.
Proof.
  induction 1 as [|t s s' Ht _ IH Hres]; [reflexivity|].
  destruct (setup_inv t s s' Hres) as (tr1 & _ & _ & _ & _ & _ & _ & _ & H1 & _).
  revert H1. unfold Technique.setupFramebuffer.
  rewrite Ht, IH. cbn. by intros [= _ <-].
Qed.

(** C2.  For every technique and every cache state the package can reach
    (the initial one, and what runs of [setup] that returned left behind):
    when [setup] has just run for a technique, running it again for the
    same technique issues no device call at all, and leaves the cache as it
    is. *)
Theorem setup_twice_issues_nothing (t : Technique.T) (s s1 : Snapshot) :
  applied withoutFramebuffer s →
  result (Technique.setup t s) = Some s1 →
  Technique.setup t s1 = ([], Some s1)
  ∧ ∀ call, call ∉ trace (Technique.setup t s1).
Proof.
  intros Hs Hres.
  assert (Technique.setup t s1 = ([], Some s1)) as Hrun.
  { apply (setup_again_silent t s s1); [|exact Hres].
    right. by apply applied_withoutFramebuffer. }
  split; [exact Hrun|]. intros call. rewrite Hrun. cbn. apply not_elem_of_nil.
Qed.

Lemma setup_twice_issues_nothing_witness :
  Technique.setup techniqueYZ snapshotYZ = ([], Some snapshotYZ)
  ∧ ∀ call, call ∉ trace (Technique.setup techniqueYZ snapshotYZ).
Proof.
  apply (setup_twice_issues_nothing techniqueYZ initialSnapshot snapshotYZ).
  - apply applied_initial.
  - vm_compute. reflexivity.
Defined.

(** The side condition of [setup_again_silent] is not idle.  Were a
    technique to carry a framebuffer, the snapshot would record it; a
    technique without one applied next would unbind it and leave it
    recorded, and unbind it again on every further run. *)
Lemma setup_twice_unbinds_framebuffer_again :
  ∃ s1,
    result (Technique.setup sampleTechnique snapshotWithFramebuffer) = Some s1
    ∧ Technique.setup sampleTechnique s1
      = ([gl.BindFramebuffer gl.FRAMEBUFFER 0], Some s1)
    ∧ prevFrameBuffer s1 = Some sampleFrameBuffer.
Proof.
  destruct (setup_returns sampleTechnique snapshotWithFramebuffer)
    as [s1 Hres]; [intros H; discriminate H|].
  exists s1. split; [exact Hres|]. split.
  - by apply (setup_again_unbinds _ snapshotWithFramebuffer).
  - destruct (setup_inv _ _ _ Hres) as (tr1 & _ & _ & _ & _ & _ & _ & _ & H1 & _).
    rewrite setupFramebuffer_unbinds in H1 by done. by injection H1 as _ <-.
Qed.

(** The run that left that snapshot. *)
Example setup_offscreen_first :
  Technique.setup offscreenTechnique initialSnapshot
  = ([gl.BindFramebuffer gl.FRAMEBUFFER 3; gl.UseProgram 7;
      gl.BlendFunc gl.ONE gl.ZERO; gl.CullFace gl.BACK; gl.DepthMask true;
      gl.DepthFunc gl.LESS],
     Some snapshotWithFramebuffer).
Proof. vm_compute. reflexivity. Qed.

(** Every run of the technique without a framebuffer on that snapshot:
    one unbind, and the framebuffer stays recorded. *)
Example setup_onscreen_after_offscreen :
  Technique.setup sampleTechnique snapshotWithFramebuffer
  = ([gl.BindFramebuffer gl.FRAMEBUFFER 0], Some snapshotWithFramebuffer).
Proof. vm_compute. reflexivity. Qed.

(** The snapshot is stale after the unbind: going back to the off-screen
    technique binds nothing, although the device has no framebuffer
    bound. *)
Example setup_offscreen_after_unbind :
  Technique.setup offscreenTechnique snapshotWithFramebuffer
  = ([], Some snapshotWithFramebuffer).
Proof. vm_compute. reflexivity. Qed.

(** ** Reflection (shader.go): slices and loops *)

Lemma elem_of_indicesUpTo (n i : Z) :
  i ∈ Shader.indicesUpTo n ↔ 0 <= i < n.
Proof.
  unfold Shader.indicesUpTo. rewrite list_elem_of_fmap. split.
  - intros (k & -> & Hk). apply elem_of_seq in Hk. lia.
  - intros Hi. exists (Z.to_nat i). split; [lia|]. apply elem_of_seq. lia.
Qed.

Lemma NoDup_indicesUpTo (n : Z) : NoDup (Shader.indicesUpTo n).
Proof.
  unfold Shader.indicesUpTo. apply NoDup_fmap_2; [|apply NoDup_seq].
  intros x y H. lia.
Qed.

Lemma length_indicesUpTo (n : Z) :
  length (Shader.indicesUpTo n) = Z.to_nat n.
Proof. unfold Shader.indicesUpTo. by rewrite length_fmap, length_seq. Qed.

Lemma iota_ok (n : Z) : 0 <= n → Shader.iota n = mret (Shader.indicesUpTo n).
Proof. intros Hn. unfold Shader.iota. by rewrite decide_False by lia. Qed.

(** Reading a slice built by a batch query. *)
Lemma index_fmap_indices {A} (f : Z → A) (n i : Z) :
  0 <= i < n → index (f <$> Shader.indicesUpTo n) i = mret (f i).
Proof.
  intros Hi. unfold index, Shader.indicesUpTo.
  rewrite decide_True by lia.
  rewrite !list_lookup_fmap, lookup_seq_lt by lia. simpl.
  by rewrite Z2Nat.id by lia.
Qed.

(** A loop that stores [g i] at every index [i] of a fresh slice fills it
    with the values of [g]. *)
Lemma forM_store_from {A} (body : list A → Z → GL (list A)) (g : Z → A)
    (dflt : A) (k m : nat) (pre : list A) :
  (∀ arr i, Z.of_nat k <= i < Z.of_nat (k + m) →
     body arr i = store arr i (g i)) →
  length pre = k →
  forM body (Z.of_nat <$> seq k m) (pre ++ replicate m dflt)
  = mret (pre ++ (g <$> (Z.of_nat <$> seq k m))).
Proof.
  revert k pre. induction m as [|m IH]; intros k pre Hbody Hlen.
  - done.
  - cbn [seq fmap list_fmap forM replicate].
    rewrite Hbody by lia. unfold store.
    rewrite decide_True by (rewrite length_app; simpl; lia).
    rewrite bind_ret_l, Nat2Z.id.
    rewrite insert_app_r_alt by lia.
    replace (k - length pre)%nat with 0%nat by lia.
    change (<[0%nat:=g (Z.of_nat k)]> (dflt :: replicate m dflt))
      with (g (Z.of_nat k) :: replicate m dflt).
    replace (pre ++ g (Z.of_nat k) :: replicate m dflt)
      with ((pre ++ [g (Z.of_nat k)]) ++ replicate m dflt)
      by (by rewrite <- app_assoc).
    rewrite (IH (S k) (pre ++ [g (Z.of_nat k)])).
    + by rewrite <- app_assoc.
    + intros arr i Hi. apply Hbody. lia.
    + rewrite length_app. simpl. lia.
Qed.

Lemma forM_store_indices {A} (body : list A → Z → GL (list A)) (g : Z → A)
    (dflt : A) (n : Z) :
  (∀ arr i, 0 <= i < n → body arr i = store arr i (g i)) →
  forM body (Shader.indicesUpTo n)
       (replicate (length (Shader.indicesUpTo n)) dflt)
  = mret (g <$> Shader.indicesUpTo n).
Proof.
  intros Hbody. rewrite length_indicesUpTo. unfold Shader.indicesUpTo.
  apply (forM_store_from body g dflt 0 (Z.to_nat n) []); [|done].
  intros arr i Hi. apply Hbody. lia.
Qed.

(** [toString] on a buffer with a last byte returns the bytes before it. *)
Lemma strippedName_cstring (name : string) :
  strippedName (cstring name) = name.
Proof.
  unfold strippedName, cstring. rewrite length_app. simpl.
  rewrite take_app_length' by lia.
  apply String.string_of_list_byte_of_string.
Qed.

Lemma toString_ok (buf : list Byte.byte) :
  buf ≠ [] → Shader.toString buf = mret (strippedName buf).
Proof.
  intros Hb. unfold Shader.toString.
  rewrite decide_False; [done|]. by destruct buf.
Qed.

Lemma nameStep_ok (fetch : Z → list Byte.byte) (names : list string) (i : Z) :
  fetch i ≠ [] →
  Shader.nameStep fetch names i = store names i (strippedName (fetch i)).
Proof.
  intros Hb. unfold Shader.nameStep.
  rewrite decide_False by (by destruct (fetch i)).
  by rewrite bind_ret_l, toString_ok, bind_ret_l.
Qed.

Lemma nullTerminated_nonempty (n : nat) (buf : list Byte.byte) :
  nullTerminated n buf → buf ≠ [].
Proof. intros [Hl _] ->. discriminate Hl. Qed.

(** A null-terminated buffer is the C string of its stripped name. *)
Lemma nullTerminated_cstring (n : nat) (buf : list Byte.byte) :
  nullTerminated n buf → buf = cstring (strippedName buf).
Proof.
  intros [Hl _]. apply last_Some in Hl as [l ->].
  unfold strippedName, cstring. rewrite length_app. simpl.
  rewrite take_app_length' by lia.
  by rewrite String.list_byte_of_string_of_list_byte.
Qed.

Lemma strippedName_nonempty (buf : list Byte.byte) :
  nullTerminated 2 buf → String.length (strippedName buf) ≠ 0%nat.
Proof.
  intros Hn. pose proof (nullTerminated_cstring _ _ Hn) as Hc.
  destruct Hn as [_ Hlen]. rewrite Hc in Hlen.
  destruct (strippedName buf); [|done].
  unfold cstring in Hlen. simpl in Hlen. lia.
Qed.

(** A loop that inserts [val x] under [key x] for the elements it keeps,
    over distinct elements with distinct keys. *)
Lemma forM_insert_spec {B V} (body : gmap string V → B → GL (gmap string V))
    (tr : B → list glcall) (keep : B → bool) (key : B → string) (val : B → V)
    (xs : list B) (m0 : gmap string V) :
  (∀ m x, x ∈ xs →
     body m x = (tr x, Some (if keep x then <[key x := val x]> m else m))) →
  NoDup xs →
  (∀ x y, x ∈ xs → y ∈ xs → keep x = true → keep y = true →
     key x = key y → x = y) →
  ∃ m, forM body xs m0 = (concat (tr <$> xs), Some m)
    ∧ (∀ x, x ∈ xs → keep x = true → m !! key x = Some (val x))
    ∧ (∀ k, (∀ x, x ∈ xs → keep x = true → key x ≠ k) → m !! k = m0 !! k).
Proof.
  revert m0. induction xs as [|y ys IH]; intros m0 Hbody Hnd Hinj.
  - exists m0. split; [done|]. split; [|done].
    intros x Hx. by apply elem_of_nil in Hx.
  - apply NoDup_cons in Hnd as [Hy Hnd].
    cbn [forM]. rewrite Hbody by left. rewrite bind_pair.
    destruct (IH (if keep y then <[key y := val y]> m0 else m0))
      as (m & Hrun & Hin & Hframe).
    { intros m' x Hx. apply Hbody. by right. }
    { exact Hnd. }
    { intros x z Hx Hz. apply Hinj; by right. }
    exists m. rewrite Hrun. split; [done|]. split.
    + intros x Hx Hk. apply elem_of_cons in Hx as [->|Hx]; [|by apply Hin].
      rewrite Hframe.
      * rewrite Hk. apply lookup_insert_eq.
      * intros x Hx Hkx Heq. apply Hy.
        rewrite <- (Hinj x y); [done|by right|by left|done|done|done].
    + intros k Hk. rewrite Hframe.
      * destruct (keep y) eqn:Hky; [|done].
        apply lookup_insert_ne. apply Hk; [by left|done].
      * intros x Hx. apply Hk. by right.
Qed.

Lemma bind_nil_l {A B} (a : A) (f : A → GL B) :
  ((([], Some a) : GL A) ≫= f) = f a.
Proof. apply bind_ret_l. Qed.

Lemma concat_fmap_nil {B} (xs : list B) :
  concat ((λ _, @nil glcall) <$> xs) = [].
Proof. by induction xs. Qed.

Lemma concat_fmap_singleton {B} (f : B → glcall) (xs : list B) :
  concat ((λ x, [f x]) <$> xs) = f <$> xs.
Proof. induction xs as [|x xs IH]; [done|]. cbn. by f_equal. Qed.

(** [for i, p := range xs] over a slice built by a batch query. *)
Lemma imap_indices (f : Z → Z) (n : Z) :
  imap (λ i p, (Z.of_nat i, p)) (f <$> Shader.indicesUpTo n)
  = (λ i, (i, f i)) <$> Shader.indicesUpTo n.
Proof.
  unfold Shader.indicesUpTo. rewrite !imap_fmap.
  rewrite (imap_ext _ (λ j _, (Z.of_nat j, f (Z.of_nat j)))).
  - rewrite imap_seq_0, length_seq. by rewrite <- list_fmap_compose.
  - intros i x Hx. apply lookup_seq in Hx as [-> _]. done.
Qed.

Section reflection.
Variable d : Shader.Device.
Hypothesis wf : Device_wf d.

Local Abbreviation n := (Shader.ACTIVE_UNIFORMS d).
Local Abbreviation nb := (Shader.ACTIVE_UNIFORM_BLOCKS d).
Local Abbreviation uname := (uniformName d).
Local Abbreviation bname := (uniformBlockName d).
Local Abbreviation names := (reflectedNames d).

Lemma queryUniformNames_ok :
  Shader.queryUniformNames d (Shader.indicesUpTo n) = mret names.
Proof.
  unfold Shader.queryUniformNames. case_decide as Hlen.
  - unfold reflectedNames. by destruct (Shader.indicesUpTo n).
  - apply forM_store_indices. intros arr i Hi. apply nameStep_ok.
    eapply nullTerminated_nonempty, (wf_uniform_name d wf). exact Hi.
Qed.

Lemma queryUniformBlockNames_ok :
  Shader.queryUniformBlockNames d (Shader.indicesUpTo nb)
  = mret (bname <$> Shader.indicesUpTo nb).
Proof.
  unfold Shader.queryUniformBlockNames.
  apply forM_store_indices. intros arr i Hi. apply nameStep_ok.
  eapply nullTerminated_nonempty, (wf_block_name d wf). exact Hi.
Qed.

Lemma queryUniformBlockSizes_ok :
  Shader.queryUniformBlockSizes d (Shader.indicesUpTo nb)
  = mret (Shader.UNIFORM_BLOCK_DATA_SIZE d <$> Shader.indicesUpTo nb).
Proof.
  unfold Shader.queryUniformBlockSizes.
  by apply forM_store_indices.
Qed.

Lemma uname_inj (i j : Z) :
  0 <= i < n → 0 <= j < n → uname i = uname j → i = j.
Proof.
  intros Hi Hj Heq. apply (wf_uniform_names_distinct d wf); [done|done|].
  rewrite (nullTerminated_cstring _ _ (wf_uniform_name d wf i Hi)).
  rewrite (nullTerminated_cstring _ _ (wf_uniform_name d wf j Hj)).
  unfold uniformName in Heq. by rewrite Heq.
Qed.

Lemma bname_inj (a b : Z) :
  0 <= a < nb → 0 <= b < nb → bname a = bname b → a = b.
Proof.
  intros Ha Hb Heq. apply (wf_block_names_distinct d wf); [done|done|].
  rewrite (nullTerminated_cstring _ _ (wf_block_name d wf a Ha)).
  rewrite (nullTerminated_cstring _ _ (wf_block_name d wf b Hb)).
  unfold uniformBlockName in Heq. by rewrite Heq.
Qed.

Local Abbreviation descriptorOf := (reflectedDescriptor d).

Lemma descriptorStep_ok (m : gmap string UniformDescriptor.T) (i : Z) :
  i ∈ Shader.indicesUpTo n →
  Shader.descriptorStep names
    (Shader.queryUniformTypes d (Shader.indicesUpTo n))
    (Shader.queryUniformCounts d (Shader.indicesUpTo n))
    (Shader.queryParentBlockIndices d (Shader.indicesUpTo n))
    (Shader.queryUniformLocations d names) m i
  = ([], Some (if Shader.UNIFORM_BLOCK_INDEX d i =? -1
               then <[uname i := descriptorOf i]> m else m)).
Proof.
  intros Hi. apply elem_of_indicesUpTo in Hi.
  unfold Shader.descriptorStep, Shader.queryParentBlockIndices,
    Shader.queryUniformTypes, Shader.queryUniformCounts,
    Shader.queryUniformLocations, Shader.toUint32, reflectedNames.
  rewrite <- !list_fmap_compose.
  rewrite !(index_fmap_indices _ n i Hi), bind_ret_l.
  destruct (Shader.UNIFORM_BLOCK_INDEX d i =? -1); [|done].
  rewrite !bind_ret_l.
  unfold Shader.dropLast. rewrite decide_False.
  - by rewrite bind_ret_l.
  - apply strippedName_nonempty, (wf_uniform_name d wf i Hi).
Qed.

Lemma descriptors_ok :
  ∃ descs,
    forM (Shader.descriptorStep names
            (Shader.queryUniformTypes d (Shader.indicesUpTo n))
            (Shader.queryUniformCounts d (Shader.indicesUpTo n))
            (Shader.queryParentBlockIndices d (Shader.indicesUpTo n))
            (Shader.queryUniformLocations d names))
         (Shader.indicesUpTo n) ∅ = ([], Some descs)
    ∧ ∀ i, 0 <= i < n → Shader.UNIFORM_BLOCK_INDEX d i = -1 →
        descs !! uname i = Some (descriptorOf i).
Proof.
  destruct (forM_insert_spec
              (Shader.descriptorStep names
                 (Shader.queryUniformTypes d (Shader.indicesUpTo n))
                 (Shader.queryUniformCounts d (Shader.indicesUpTo n))
                 (Shader.queryParentBlockIndices d (Shader.indicesUpTo n))
                 (Shader.queryUniformLocations d names))
              (λ _, []) (λ i, Shader.UNIFORM_BLOCK_INDEX d i =? -1)
              uname descriptorOf (Shader.indicesUpTo n) ∅)
    as (descs & Hrun & Hin & _).
  - intros m i Hi. by apply descriptorStep_ok.
  - apply NoDup_indicesUpTo.
  - intros i j Hi Hj _ _. apply uname_inj; by apply elem_of_indicesUpTo.
  - exists descs. split; [by rewrite Hrun, concat_fmap_nil|].
    intros i Hi Hp. apply Hin; [by apply elem_of_indicesUpTo|].
    rewrite Hp. reflexivity.
Qed.

(** The member offsets recorded for the block [b]. *)
Lemma offsetStep_ok (b : Z) (m : gmap string Z) (ip : Z * Z) :
  ip ∈ (λ i, (i, Shader.UNIFORM_BLOCK_INDEX d i)) <$> Shader.indicesUpTo n →
  Shader.offsetStep names
    (Shader.queryUniformOffsets d (Shader.indicesUpTo n)) b m ip
  = ([], Some (if ip.2 =? wrap32 b
               then <[uname ip.1 := Shader.UNIFORM_OFFSET d ip.1]> m
               else m)).
Proof.
  intros Hip. apply list_elem_of_fmap in Hip as (i & -> & Hi).
  apply elem_of_indicesUpTo in Hi. cbn [fst snd].
  unfold Shader.offsetStep, Shader.queryUniformOffsets, reflectedNames.
  cbn [fst snd].
  destruct (_ =? _); [|done].
  by rewrite !(index_fmap_indices _ n i Hi), !bind_ret_l.
Qed.

Lemma blockOffsets_ok (b : Z) :
  ∃ offsets,
    Shader.blockOffsets names
      (Shader.queryUniformOffsets d (Shader.indicesUpTo n))
      (Shader.queryParentBlockIndices d (Shader.indicesUpTo n)) b
    = ([], Some offsets)
    ∧ ∀ i, 0 <= i < n → Shader.UNIFORM_BLOCK_INDEX d i = wrap32 b →
        offsets !! uname i = Some (Shader.UNIFORM_OFFSET d i).
Proof.
  unfold Shader.blockOffsets, Shader.queryParentBlockIndices.
  rewrite imap_indices.
  destruct (forM_insert_spec
              (Shader.offsetStep names
                 (Shader.queryUniformOffsets d (Shader.indicesUpTo n)) b)
              (λ _, []) (λ ip, ip.2 =? wrap32 b)
              (λ ip, uname ip.1) (λ ip, Shader.UNIFORM_OFFSET d ip.1)
              ((λ i, (i, Shader.UNIFORM_BLOCK_INDEX d i))
                 <$> Shader.indicesUpTo n) ∅)
    as (offsets & Hrun & Hin & _).
  - intros m ip Hip. by apply offsetStep_ok.
  - apply NoDup_fmap_2; [|apply NoDup_indicesUpTo].
    intros x y H. by injection H.
  - intros x y Hx Hy _ _ Heq.
    apply list_elem_of_fmap in Hx as (i & -> & Hi).
    apply list_elem_of_fmap in Hy as (j & -> & Hj).
    apply elem_of_indicesUpTo in Hi, Hj. cbn [fst] in Heq.
    by rewrite (uname_inj i j Hi Hj Heq).
  - exists offsets. split; [by rewrite Hrun, concat_fmap_nil|].
    intros i Hi Hp.
    apply (Hin (i, Shader.UNIFORM_BLOCK_INDEX d i)).
    + apply list_elem_of_fmap. exists i. split; [done|].
      by apply elem_of_indicesUpTo.
    + cbn [snd]. rewrite Hp. apply Z.eqb_refl.
Qed.

Local Abbreviation offsetsOf := (reflectedOffsets d).
Local Abbreviation blockOf := (reflectedBlock d).

Lemma blockStep_ok (program : Z)
    (m : gmap string UniformBlockDescriptor.T) (b : Z) :
  b ∈ Shader.indicesUpTo nb →
  Shader.blockStep program names
    (Shader.queryUniformOffsets d (Shader.indicesUpTo n))
    (Shader.queryParentBlockIndices d (Shader.indicesUpTo n))
    (bname <$> Shader.indicesUpTo nb) (Shader.indicesUpTo nb)
    (Shader.UNIFORM_BLOCK_DATA_SIZE d <$> Shader.indicesUpTo nb)
    (Shader.queryUniformBufferAlignment d) m b
  = ([gl.UniformBlockBinding program b b],
     Some (if true then <[bname b := blockOf b]> m else m)).
Proof.
  intros Hb. apply elem_of_indicesUpTo in Hb.
  unfold Shader.blockStep, reflectedBlock, reflectedOffsets.
  destruct (blockOffsets_ok b) as (offsets & -> & _).
  rewrite bind_nil_l.
  rewrite !(index_fmap_indices _ nb b Hb), !bind_ret_l.
  rewrite <- (list_fmap_id (Shader.indicesUpTo nb)) at 1.
  by rewrite (index_fmap_indices _ nb b Hb), bind_ret_l.
Qed.

Lemma blocks_ok (program : Z) :
  ∃ blocks,
    forM (Shader.blockStep program names
            (Shader.queryUniformOffsets d (Shader.indicesUpTo n))
            (Shader.queryParentBlockIndices d (Shader.indicesUpTo n))
            (bname <$> Shader.indicesUpTo nb) (Shader.indicesUpTo nb)
            (Shader.UNIFORM_BLOCK_DATA_SIZE d <$> Shader.indicesUpTo nb)
            (Shader.queryUniformBufferAlignment d))
         (Shader.indicesUpTo nb) ∅
    = ((λ b, gl.UniformBlockBinding program b b) <$> Shader.indicesUpTo nb,
       Some blocks)
    ∧ ∀ b, 0 <= b < nb → blocks !! bname b = Some (blockOf b).
Proof.
  destruct (forM_insert_spec
              (Shader.blockStep program names
                 (Shader.queryUniformOffsets d (Shader.indicesUpTo n))
                 (Shader.queryParentBlockIndices d (Shader.indicesUpTo n))
                 (bname <$> Shader.indicesUpTo nb) (Shader.indicesUpTo nb)
                 (Shader.UNIFORM_BLOCK_DATA_SIZE d <$> Shader.indicesUpTo nb)
                 (Shader.queryUniformBufferAlignment d))
              (λ b, [gl.UniformBlockBinding program b b]) (λ _, true)
              bname blockOf (Shader.indicesUpTo nb) ∅)
    as (blocks & Hrun & Hin & _).
  - intros m b Hb. by apply blockStep_ok.
  - apply NoDup_indicesUpTo.
  - intros a b Ha Hb _ _. apply bname_inj; by apply elem_of_indicesUpTo.
  - exists blocks. split; [by rewrite Hrun, concat_fmap_singleton|].
    intros b Hb. apply Hin; [by apply elem_of_indicesUpTo|done].
Qed.

(** Reflection on a well-formed device: it returns, after binding every
    block to the binding point of its index, and both maps are keyed by
    the stripped names. *)
Lemma queryUniforms_ok (s : Ref Shader.T) :
  ∃ s',
    Shader.queryUniforms (Some s) d
    = ((λ b, gl.UniformBlockBinding (Shader.id (target s)) b b)
         <$> Shader.indicesUpTo nb, Some s')
    ∧ (∀ i, 0 <= i < n → Shader.UNIFORM_BLOCK_INDEX d i = -1 →
         Shader.descriptors s' !! uname i = Some (descriptorOf i))
    ∧ (∀ b, 0 <= b < nb →
         ∃ blk, Shader.blockDescriptors s' !! bname b = Some blk
           ∧ UniformBlockDescriptor.Index blk = b
           ∧ ∀ i, 0 <= i < n → Shader.UNIFORM_BLOCK_INDEX d i = b →
               UniformBlockDescriptor.Offsets blk !! uname i
               = Some (Shader.UNIFORM_OFFSET d i)).
Proof.
  destruct descriptors_ok as (descs & Hd & Hdescs).
  destruct (blocks_ok (Shader.id (target s))) as (blocks & Hb & Hblocks).
  exists (Shader.mk (Shader.id (target s)) (Shader.shaders (target s))
            descs blocks).
  split; [|split].
  - unfold Shader.queryUniforms, deref, Shader.queryUniformIndices,
      Shader.queryUniformBlockIndices.
    rewrite bind_ret_l.
    rewrite (iota_ok n) by apply (wf_uniforms d wf).
    rewrite bind_ret_l, queryUniformNames_ok, bind_ret_l.
    cbn zeta. rewrite Hd, bind_nil_l.
    rewrite (iota_ok nb) by apply (wf_blocks d wf).
    rewrite bind_ret_l, queryUniformBlockNames_ok, bind_ret_l.
    rewrite queryUniformBlockSizes_ok, bind_ret_l.
    rewrite Hb. cbn. by rewrite app_nil_r.
  - exact Hdescs.
  - intros b Hbr. exists (blockOf b). split; [by apply Hblocks|].
    split; [done|]. intros i Hi Hp. cbn.
    unfold reflectedOffsets. destruct (blockOffsets_ok b) as (offsets & -> & Ho).
    cbn. apply Ho; [done|]. rewrite Hp.
    pose proof (wf_blocks d wf) as Hnb.
    unfold wrap32. rewrite Z.mod_small by lia. lia.
Qed.
End reflection.

Lemma sampleDevice_wf : Device_wf sampleDevice.
Proof.
  assert (∀ i, 0 <= i < 2 → i = 0 ∨ i = 1) as Hcases by lia.
  split; cbn [sampleDevice Shader.ACTIVE_UNIFORMS Shader.ACTIVE_UNIFORM_BLOCKS
              Shader.ActiveUniformName Shader.ActiveUniformBlockName].
  - lia.
  - lia.
  - intros i Hi. destruct (Hcases i Hi) as [-> | ->];
      (split; [reflexivity|cbn; lia]).
  - intros b Hb. split; [reflexivity|cbn; lia].
  - intros i j Hi Hj. destruct (Hcases i Hi) as [-> | ->];
      destruct (Hcases j Hj) as [-> | ->]; cbn; intros H;
      try reflexivity; discriminate H.
  - intros a b Ha Hb _. lia.
Defined.

(** C4 (as stated).  On the sample program the descriptor emitted for the
    block-less uniform [color] carries the name [colo]: one character is
    removed beyond the null terminator.  And the offset of the block member
    [model] is recorded under the name without its terminator, not under the
    raw bytes the device reported. *)
Lemma queryUniforms_names_counterexample :
  ∃ s' desc blk,
    result (Shader.queryUniforms (Some (sampleShader ∅)) sampleDevice) = Some s'
    ∧ Shader.ActiveUniformName sampleDevice 0 = cstring "color"
    ∧ Shader.UNIFORM_BLOCK_INDEX sampleDevice 0 = -1
    ∧ Shader.descriptors s' !! "color" = Some desc
    ∧ UniformDescriptor.Name desc = "colo"
    ∧ UniformDescriptor.Name desc ≠ "color"
    ∧ Shader.UNIFORM_BLOCK_INDEX sampleDevice 1 = 0
    ∧ Shader.blockDescriptors s' !! "Matrices" = Some blk
    ∧ UniformBlockDescriptor.Offsets blk
        !! String.string_of_list_byte (Shader.ActiveUniformName sampleDevice 1)
      = None
    ∧ UniformBlockDescriptor.Offsets blk !! "model" = Some 0.
Proof.
  eexists _, _, _. split; [vm_compute; reflexivity|].
  repeat split; try (vm_compute; reflexivity). discriminate.
Qed.

(** C4 (amended).  On well-formed device answers reflection returns, and
    both maps are keyed by the reported name without its null terminator and
    nothing else removed: a uniform outside every block has a descriptor
    under that name, with its type, its count and the location resolved by
    that name; a uniform inside a block has its byte offset recorded under
    that name in the offsets of the block's descriptor. *)
Theorem queryUniforms_keys_are_stripped_names (s : Ref Shader.T)
    (d : Shader.Device) :
  Device_wf d →
  ∃ s', result (Shader.queryUniforms (Some s) d) = Some s'
    ∧ (∀ i name,
         0 <= i < Shader.ACTIVE_UNIFORMS d →
         Shader.ActiveUniformName d i = cstring name →
         Shader.UNIFORM_BLOCK_INDEX d i = -1 →
         ∃ desc, Shader.descriptors s' !! name = Some desc
           ∧ UniformDescriptor.Type_ desc = wrapU32 (Shader.UNIFORM_TYPE d i)
           ∧ UniformDescriptor.Count desc = Shader.UNIFORM_SIZE d i
           ∧ UniformDescriptor.Location desc = Shader.UniformLocation d name)
    ∧ (∀ i name b blockName,
         0 <= i < Shader.ACTIVE_UNIFORMS d →
         0 <= b < Shader.ACTIVE_UNIFORM_BLOCKS d →
         Shader.ActiveUniformName d i = cstring name →
         Shader.ActiveUniformBlockName d b = cstring blockName →
         Shader.UNIFORM_BLOCK_INDEX d i = b →
         ∃ blk, Shader.blockDescriptors s' !! blockName = Some blk
           ∧ UniformBlockDescriptor.Index blk = b
           ∧ UniformBlockDescriptor.Offsets blk !! name
             = Some (Shader.UNIFORM_OFFSET d i)).
Proof.
  intros wf. destruct (queryUniforms_ok d wf s) as (s' & Hrun & Hd & Hb).
  exists s'. split; [by rewrite Hrun|]. split.
  - intros i name Hi Hname Hp. specialize (Hd i Hi Hp).
    assert (uniformName d i = name) as Hn.
    { unfold uniformName. rewrite Hname. apply strippedName_cstring. }
    rewrite Hn in Hd. exists (reflectedDescriptor d i).
    split; [exact Hd|]. unfold reflectedDescriptor. cbn. by rewrite Hn.
  - intros i name b blockName Hi Hbr Hname Hbname Hp.
    destruct (Hb b Hbr) as (blk & Hblk & Hidx & Hoff).
    assert (uniformName d i = name) as Hn.
    { unfold uniformName. rewrite Hname. apply strippedName_cstring. }
    assert (uniformBlockName d b = blockName) as Hbn.
    { unfold uniformBlockName. rewrite Hbname. apply strippedName_cstring. }
    rewrite Hbn in Hblk. specialize (Hoff i Hi Hp). rewrite Hn in Hoff.
    eauto.
Qed.

Lemma queryUniforms_keys_are_stripped_names_witness :
  ∃ s', result (Shader.queryUniforms (Some (sampleShader ∅)) sampleDevice)
        = Some s'
    ∧ (∀ i name,
         0 <= i < Shader.ACTIVE_UNIFORMS sampleDevice →
         Shader.ActiveUniformName sampleDevice i = cstring name →
         Shader.UNIFORM_BLOCK_INDEX sampleDevice i = -1 →
         ∃ desc, Shader.descriptors s' !! name = Some desc
           ∧ UniformDescriptor.Type_ desc
             = wrapU32 (Shader.UNIFORM_TYPE sampleDevice i)
           ∧ UniformDescriptor.Count desc = Shader.UNIFORM_SIZE sampleDevice i
           ∧ UniformDescriptor.Location desc
             = Shader.UniformLocation sampleDevice name)
    ∧ (∀ i name b blockName,
         0 <= i < Shader.ACTIVE_UNIFORMS sampleDevice →
         0 <= b < Shader.ACTIVE_UNIFORM_BLOCKS sampleDevice →
         Shader.ActiveUniformName sampleDevice i = cstring name →
         Shader.ActiveUniformBlockName sampleDevice b = cstring blockName →
         Shader.UNIFORM_BLOCK_INDEX sampleDevice i = b →
         ∃ blk, Shader.blockDescriptors s' !! blockName = Some blk
           ∧ UniformBlockDescriptor.Index blk = b
           ∧ UniformBlockDescriptor.Offsets blk !! name
             = Some (Shader.UNIFORM_OFFSET sampleDevice i)).
Proof.
  apply (queryUniforms_keys_are_stripped_names (sampleShader ∅) sampleDevice).
  exact sampleDevice_wf.
Defined.

(** Reflection on the sample program, in full. *)
Example queryUniforms_sample :
  Shader.queryUniforms (Some (sampleShader ∅)) sampleDevice
  = ([gl.UniformBlockBinding 7 0 0],
     Some (Shader.mk 7 []
             {[ "color" := UniformDescriptor.mk "colo" gl.FLOAT_VEC4 1 4 ]}
             {[ "Matrices" := UniformBlockDescriptor.mk "Matrices" 0 64
                                {[ "model" := 0 ]} 256 ]})).
Proof. vm_compute. reflexivity. Qed.

(** * Further properties *)

(** ** Structural comparison (technique.go, the viewport file) *)

Lemma blendFunc_Equals_eq (b : blendFunc) (o : option blendFunc) :
  blendFunc_Equals b o = true ↔ o = Some b.
Proof.
  destruct b as [s1 d1], o as [[s2 d2]|]; simpl; [|split; discriminate].
  rewrite andb_true_iff, !Z.eqb_eq. split.
  - by intros [-> ->].
  - by intros [= -> ->].
Qed.

Lemma cullFace_Equals_eq (c : cullFace) (o : option cullFace) :
  cullFace_Equals c o = true ↔ o = Some c.
Proof.
  destruct c as [m1], o as [[m2]|]; simpl; [|split; discriminate].
  rewrite Z.eqb_eq. split; [by intros ->|by intros [= ->]].
Qed.

Lemma depthMask_Equals_eq (d : depthMask) (o : option depthMask) :
  depthMask_Equals d o = true ↔ o = Some d.
Proof.
  destruct d as [f1], o as [[f2]|]; simpl; [|split; discriminate].
  destruct f1, f2; simpl; split; try done; discriminate.
Qed.

Lemma depthFunc_Equals_eq (d : depthFunc) (o : option depthFunc) :
  depthFunc_Equals d o = true ↔ o = Some d.
Proof.
  destruct d as [f1], o as [[f2]|]; simpl; [|split; discriminate].
  rewrite Z.eqb_eq. split; [by intros ->|by intros [= ->]].
Qed.

Lemma Viewport_Equals_eq (v : Viewport.T) (o : option Viewport.T) :
  Viewport.Equals v o = true ↔ o = Some v.
Proof.
  destruct v as [x1 y1 w1 h1], o as [[x2 y2 w2 h2]|]; simpl;
    [|split; discriminate].
  rewrite !andb_true_iff, !Z.eqb_eq. split.
  - by intros [[[-> ->] ->] ->].
  - by intros [= -> -> -> ->].
Qed.

(** X1.  The [Equals] methods of the four state functions decide equality of
    their fields, and nothing equals nil. *)
Theorem state_Equals_decide_equality :
  (∀ (b : blendFunc) o, blendFunc_Equals b o = true ↔ o = Some b)
  ∧ (∀ (c : cullFace) o, cullFace_Equals c o = true ↔ o = Some c)
  ∧ (∀ (d : depthMask) o, depthMask_Equals d o = true ↔ o = Some d)
  ∧ (∀ (d : depthFunc) o, depthFunc_Equals d o = true ↔ o = Some d).
Proof.
  split; [exact blendFunc_Equals_eq|]. split; [exact cullFace_Equals_eq|].
  split; [exact depthMask_Equals_eq|exact depthFunc_Equals_eq].
Qed.

(** X2.  [Viewport.Equals] holds exactly for a non-nil viewport with the same
    four fields. *)
Theorem Viewport_Equals_decides_equality (v : Viewport.T)
    (other : option Viewport.T) :
  Viewport.Equals v other = true ↔ other = Some v.
Proof. apply Viewport_Equals_eq. Qed.

(** ** The steps of [setup], one by one *)

Lemma setupFramebuffer_stage (t : Technique.T) (prev : ptr FrameBuffer.T) :
  Forall (λ c, stage_of c = Some SFramebuffer)
         (trace (Technique.setupFramebuffer t prev))
  ∧ (length (trace (Technique.setupFramebuffer t prev)) ≤ 1)%nat.
Proof.
  unfold Technique.setupFramebuffer.
  destruct (Technique.framebuffer t) as [[a f]|], prev as [[a' f']|];
    simpl; try destruct (Pos.eqb a a'); simpl; split;
    repeat constructor.
Qed.

Lemma setupShader_run (t : Technique.T) (prev : ptr Shader.T) :
  Technique.setupShader t prev
  = if ptr_eqb prev (Technique.shader t) then ([], Some prev)
    else match Technique.shader t with
         | Some r => ([gl.UseProgram (Shader.id (target r))],
                      Some (Technique.shader t))
         | None => ([], None)
         end.
Proof.
  unfold Technique.setupShader.
  destruct (ptr_eqb prev (Technique.shader t)); simpl; [done|].
  by destruct (Technique.shader t) as [[a f]|].
Qed.

Lemma setupBlendFunc_run (t : Technique.T) (prev : option blendFunc) :
  Technique.setupBlendFunc t prev
  = match Technique.blendFunc_ t with
    | Some b =>
        if decide (prev = Some b) then ([], Some prev)
        else ([gl.BlendFunc (sfactor b) (dfactor b)], Some (Some b))
    | None => ([], Some prev)
    end.
Proof.
  unfold Technique.setupBlendFunc.
  destruct (Technique.blendFunc_ t) as [b|]; [|done].
  destruct (blendFunc_Equals b prev) eqn:E; simpl.
  - apply blendFunc_Equals_eq in E. by rewrite decide_True.
  - rewrite decide_False; [done|]. intros H.
    apply blendFunc_Equals_eq in H. congruence.
Qed.

Lemma setupCullFace_run (t : Technique.T) (prev : option cullFace) :
  Technique.setupCullFace t prev
  = match Technique.cullFace_ t with
    | Some c =>
        if decide (prev = Some c) then ([], Some prev)
        else ([gl.CullFace (mode c)], Some (Some c))
    | None => ([], Some prev)
    end.
Proof.
  unfold Technique.setupCullFace.
  destruct (Technique.cullFace_ t) as [c|]; [|done].
  destruct (cullFace_Equals c prev) eqn:E; simpl.
  - apply cullFace_Equals_eq in E. by rewrite decide_True.
  - rewrite decide_False; [done|]. intros H.
    apply cullFace_Equals_eq in H. congruence.
Qed.

Lemma setupDepthMask_run (t : Technique.T) (prev : option depthMask) :
  Technique.setupDepthMask t prev
  = match Technique.depthMask_ t with
    | Some d =>
        if decide (prev = Some d) then ([], Some prev)
        else ([gl.DepthMask (flag d)], Some (Some d))
    | None => ([], Some prev)
    end.
Proof.
  unfold Technique.setupDepthMask.
  destruct (Technique.depthMask_ t) as [d|]; [|done].
  destruct (depthMask_Equals d prev) eqn:E; simpl.
  - apply depthMask_Equals_eq in E. by rewrite decide_True.
  - rewrite decide_False; [done|]. intros H.
    apply depthMask_Equals_eq in H. congruence.
Qed.

Lemma setupDepthFunc_run (t : Technique.T) (prev : option depthFunc) :
  Technique.setupDepthFunc t prev
  = match Technique.depthFunc_ t with
    | Some d =>
        if decide (prev = Some d) then ([], Some prev)
        else ([gl.DepthFunc (xfunc d)], Some (Some d))
    | None => ([], Some prev)
    end.
Proof.
  unfold Technique.setupDepthFunc.
  destruct (Technique.depthFunc_ t) as [d|]; [|done].
  destruct (depthFunc_Equals d prev) eqn:E; simpl.
  - apply depthFunc_Equals_eq in E. by rewrite decide_True.
  - rewrite decide_False; [done|]. intros H.
    apply depthFunc_Equals_eq in H. congruence.
Qed.

Lemma setupViewport_run (t : Technique.T) (prev : option Viewport.T) :
  Technique.setupViewport t prev
  = match Technique.viewport t with
    | Some v =>
        if decide (prev = Some v) then ([], Some prev)
        else ([gl.Viewport (Viewport.X v) (Viewport.Y v) (Viewport.Width v)
                 (Viewport.Height v)], Some (Some v))
    | None => ([], Some prev)
    end.
Proof.
  unfold Technique.setupViewport.
  destruct (Technique.viewport t) as [v|]; [|done].
  destruct (Viewport.Equals v prev) eqn:E; simpl.
  - apply Viewport_Equals_eq in E. by rewrite decide_True.
  - rewrite decide_False; [done|]. intros H.
    apply Viewport_Equals_eq in H. congruence.
Qed.

Lemma stageTrace_stage (t : Technique.T) (s : Snapshot) (k : stage) :
  Forall (λ c, stage_of c = Some k) (stageTrace t s k).
Proof.
  destruct k; cbn [stageTrace].
  - apply setupFramebuffer_stage.
  - rewrite setupShader_run. destruct (ptr_eqb _ _); [constructor|].
    destruct (Technique.shader t); repeat constructor.
  - destruct (setupEnables_spec t (prevEnables s))
      as (tr & en & -> & _ & _ & _ & _ & Hcap).
    cbn [trace fst]. eapply Forall_impl; [exact Hcap|].
    intros c Hc. by destruct c.
  - rewrite setupBlendFunc_run. destruct (Technique.blendFunc_ t);
      [case_decide|]; repeat constructor.
  - rewrite setupCullFace_run. destruct (Technique.cullFace_ t);
      [case_decide|]; repeat constructor.
  - rewrite setupDepthMask_run. destruct (Technique.depthMask_ t);
      [case_decide|]; repeat constructor.
  - rewrite setupDepthFunc_run. destruct (Technique.depthFunc_ t);
      [case_decide|]; repeat constructor.
  - rewrite setupViewport_run. destruct (Technique.viewport t);
      [case_decide|]; repeat constructor.
Qed.

Lemma enableLoop_NoDup (l : list Z) (prev stale : gmap Z bool) :
  NoDup (trace (forM Technique.enableStep l (prev, stale))).
Proof.
  revert prev stale. induction l as [|x l IH]; intros prev stale.
  - constructor.
  - cbn [forM]. rewrite enableStep_eq.
    destruct (enabled prev x) eqn:Hx; rewrite bind_pair; cbn [trace fst app].
    + apply IH.
    + apply NoDup_cons. split; [|apply IH].
      destruct (enableLoop_spec l (<[x := true]> prev) (delete x stale))
        as (tr & prev' & stale' & Hrun & _ & _ & Ht).
      fold (trace (forM Technique.enableStep l
                     (<[x:=true]> prev, delete x stale))).
      rewrite Hrun. cbn [trace fst]. rewrite Ht.
      intros (c & [= <-] & _ & He). apply enabled_insert in He as [He _].
      done.
Qed.

Lemma setupEnables_NoDup (t : Technique.T) (prev : gmap Z bool) :
  NoDup (trace (Technique.setupEnables t prev)).
Proof.
  unfold Technique.setupEnables.
  pose proof (enableLoop_NoDup (Technique.enables t) prev
                (Technique.staleOf prev)) as Hnd.
  destruct (enableLoop_spec (Technique.enables t) prev (Technique.staleOf prev))
    as (tr1 & prev1 & stale1 & Hrun1 & _ & _ & Ht1).
  rewrite Hrun1 in Hnd |- *. cbn [trace fst] in Hnd.
  rewrite bind_pair. cbn [fst snd].
  destruct (disableLoop_spec (map_to_list stale1).*1 prev1)
    as (prev2 & Hrun2 & _).
  rewrite Hrun2. cbn [trace fst]. apply NoDup_app. split; [exact Hnd|]. split.
  - intros call Hc Hd. apply Ht1 in Hc as (c & -> & _).
    apply list_elem_of_fmap in Hd as (k & [=] & _).
  - apply NoDup_fmap_2; [|apply NoDup_fst_map_to_list].
    intros a b H. by injection H.
Qed.

Lemma stageTrace_NoDup (t : Technique.T) (s : Snapshot) (k : stage) :
  NoDup (stageTrace t s k).
Proof.
  destruct k; cbn [stageTrace].
  - destruct (setupFramebuffer_stage t (prevFrameBuffer s)) as [_ Hlen].
    destruct (trace _) as [|c [|c' l]]; simpl in Hlen;
      [constructor|apply NoDup_singleton|lia].
  - rewrite setupShader_run. destruct (ptr_eqb _ _); [apply NoDup_nil_2|].
    destruct (Technique.shader t); cbn; first [apply NoDup_nil_2|apply NoDup_singleton].
  - apply setupEnables_NoDup.
  - rewrite setupBlendFunc_run. destruct (Technique.blendFunc_ t);
      [case_decide|]; cbn; first [apply NoDup_nil_2|apply NoDup_singleton].
  - rewrite setupCullFace_run. destruct (Technique.cullFace_ t);
      [case_decide|]; cbn; first [apply NoDup_nil_2|apply NoDup_singleton].
  - rewrite setupDepthMask_run. destruct (Technique.depthMask_ t);
      [case_decide|]; cbn; first [apply NoDup_nil_2|apply NoDup_singleton].
  - rewrite setupDepthFunc_run. destruct (Technique.depthFunc_ t);
      [case_decide|]; cbn; first [apply NoDup_nil_2|apply NoDup_singleton].
  - rewrite setupViewport_run. destruct (Technique.viewport t);
      [case_decide|]; cbn; first [apply NoDup_nil_2|apply NoDup_singleton].
Qed.

(** A [setup] that returns issued the calls of its eight steps, in step
    order, and left their results in the snapshot. *)
Lemma setup_decompose (t : Technique.T) (s s' : Snapshot) :
  result (Technique.setup t s) = Some s' →
  trace (Technique.setup t s)
  = stageTrace t s SFramebuffer ++ stageTrace t s SShader
    ++ stageTrace t s SEnables ++ stageTrace t s SBlendFunc
    ++ stageTrace t s SCullFace ++ stageTrace t s SDepthMask
    ++ stageTrace t s SDepthFunc ++ stageTrace t s SViewport
  ∧ result (Technique.setupFramebuffer t (prevFrameBuffer s))
    = Some (prevFrameBuffer s')
  ∧ result (Technique.setupShader t (prevShader s)) = Some (prevShader s')
  ∧ result (Technique.setupEnables t (prevEnables s)) = Some (prevEnables s')
  ∧ result (Technique.setupBlendFunc t (prevBlendFunc s))
    = Some (prevBlendFunc s')
  ∧ result (Technique.setupCullFace t (prevCullFace s))
    = Some (prevCullFace s')
  ∧ result (Technique.setupDepthMask t (prevDepthMask s))
    = Some (prevDepthMask s')
  ∧ result (Technique.setupDepthFunc t (prevDepthFunc s))
    = Some (prevDepthFunc s')
  ∧ result (Technique.setupViewport t (prevViewport s))
    = Some (prevViewport s').
Proof.
  intros Hres.
  destruct (setup_inv t s s' Hres)
    as (tr1 & tr2 & tr3 & tr4 & tr5 & tr6 & tr7 & tr8
        & H1 & H2 & H3 & H4 & H5 & H6 & H7 & H8 & ->).
  cbn [stageTrace]. rewrite H1, H2, H3, H4, H5, H6, H7, H8.
  by repeat split.
Qed.

(** A call of a given step is issued by [setup] exactly when that step
    issues it. *)
Lemma elem_of_setup_trace (t : Technique.T) (s s' : Snapshot) (call : glcall)
    (k : stage) :
  result (Technique.setup t s) = Some s' →
  stage_of call = Some k →
  call ∈ trace (Technique.setup t s) ↔ call ∈ stageTrace t s k.
Proof.
  intros Hres Hk. destruct (setup_decompose t s s' Hres) as [-> _].
  rewrite !elem_of_app. split.
  - assert (∀ k', call ∈ stageTrace t s k' → call ∈ stageTrace t s k) as Hsame.
    { intros k' Hin. pose proof (stageTrace_stage t s k') as F.
      rewrite Forall_forall in F. specialize (F _ Hin).
      rewrite Hk in F. by injection F as ->. }
    intros [H|[H|[H|[H|[H|[H|[H|H]]]]]]]; by eapply Hsame.
  - destruct k; tauto.
Qed.

(** ** What [setup] issues and what it leaves *)

(** X3.  [setup] changes a state function or the viewport exactly when the
    technique carries a value for it and that value differs from the one in
    the snapshot; the call then carries the technique's value. *)
Theorem setup_state_function_calls (t : Technique.T) (s s' : Snapshot) :
  result (Technique.setup t s) = Some s' →
  let tr := trace (Technique.setup t s) in
  (∀ a b, gl.BlendFunc a b ∈ tr ↔
     Technique.blendFunc_ t = Some (mkBlendFunc a b)
     ∧ prevBlendFunc s ≠ Some (mkBlendFunc a b))
  ∧ (∀ m, gl.CullFace m ∈ tr ↔
       Technique.cullFace_ t = Some (mkCullFace m)
       ∧ prevCullFace s ≠ Some (mkCullFace m))
  ∧ (∀ f, gl.DepthMask f ∈ tr ↔
       Technique.depthMask_ t = Some (mkDepthMask f)
       ∧ prevDepthMask s ≠ Some (mkDepthMask f))
  ∧ (∀ f, gl.DepthFunc f ∈ tr ↔
       Technique.depthFunc_ t = Some (mkDepthFunc f)
       ∧ prevDepthFunc s ≠ Some (mkDepthFunc f))
  ∧ (∀ x y w h, gl.Viewport x y w h ∈ tr ↔
       Technique.viewport t = Some (Viewport.mk x y w h)
       ∧ prevViewport s ≠ Some (Viewport.mk x y w h)).
Proof.
  intros Hres tr. subst tr. split; [|split; [|split; [|split]]].
  - intros a b.
    rewrite (elem_of_setup_trace t s s' (gl.BlendFunc a b) SBlendFunc
               Hres eq_refl).
    cbn [stageTrace]. rewrite setupBlendFunc_run.
    destruct (Technique.blendFunc_ t) as [[a' b']|]; [case_decide|];
      cbn [trace fst sfactor dfactor];
      rewrite ?list_elem_of_singleton, ?elem_of_nil; naive_solver.
  - intros m.
    rewrite (elem_of_setup_trace t s s' (gl.CullFace m) SCullFace
               Hres eq_refl).
    cbn [stageTrace]. rewrite setupCullFace_run.
    destruct (Technique.cullFace_ t) as [[m']|]; [case_decide|];
      cbn [trace fst mode];
      rewrite ?list_elem_of_singleton, ?elem_of_nil; naive_solver.
  - intros f.
    rewrite (elem_of_setup_trace t s s' (gl.DepthMask f) SDepthMask
               Hres eq_refl).
    cbn [stageTrace]. rewrite setupDepthMask_run.
    destruct (Technique.depthMask_ t) as [[f']|]; [case_decide|];
      cbn [trace fst flag];
      rewrite ?list_elem_of_singleton, ?elem_of_nil; naive_solver.
  - intros f.
    rewrite (elem_of_setup_trace t s s' (gl.DepthFunc f) SDepthFunc
               Hres eq_refl).
    cbn [stageTrace]. rewrite setupDepthFunc_run.
    destruct (Technique.depthFunc_ t) as [[f']|]; [case_decide|];
      cbn [trace fst xfunc];
      rewrite ?list_elem_of_singleton, ?elem_of_nil; naive_solver.
  - intros x y w h.
    rewrite (elem_of_setup_trace t s s' (gl.Viewport x y w h) SViewport
               Hres eq_refl).
    cbn [stageTrace]. rewrite setupViewport_run.
    destruct (Technique.viewport t) as [[x' y' w' h']|]; [case_decide|];
      cbn [trace fst Viewport.X Viewport.Y Viewport.Width Viewport.Height];
      rewrite ?list_elem_of_singleton, ?elem_of_nil; naive_solver.
Qed.

Lemma setup_state_function_calls_witness :
  gl.BlendFunc gl.ONE gl.ZERO
    ∈ trace (Technique.setup sampleTechnique initialSnapshot)
  ∧ gl.CullFace gl.BACK
    ∉ trace (Technique.setup sampleTechnique snapshotAfterSample).
Proof.
  split.
  - apply (setup_state_function_calls sampleTechnique initialSnapshot
             snapshotAfterSample); [reflexivity|].
    split; [reflexivity|discriminate].
  - intros H.
    apply (setup_state_function_calls sampleTechnique snapshotAfterSample
             snapshotAfterSample) in H; [|reflexivity].
    destruct H as [_ H]. by apply H.
Defined.

(** X4.  [setup] activates a program exactly when the technique's shader is
    not the one the snapshot holds (by identity), and then it is the
    technique's: the cached shader is never activated again. *)
Theorem setup_activates_shader (t : Technique.T) (s s' : Snapshot) :
  result (Technique.setup t s) = Some s' →
  ∀ program,
    gl.UseProgram program ∈ trace (Technique.setup t s) ↔
    ptr_eqb (prevShader s) (Technique.shader t) = false
    ∧ ∃ r, Technique.shader t = Some r ∧ Shader.id (target r) = program.
Proof.
  intros Hres program.
  rewrite (elem_of_setup_trace t s s' (gl.UseProgram program) SShader
             Hres eq_refl).
  cbn [stageTrace]. rewrite setupShader_run.
  destruct (ptr_eqb (prevShader s) (Technique.shader t)).
  - cbn [trace fst]. rewrite elem_of_nil. naive_solver.
  - destruct (Technique.shader t) as [r|]; cbn [trace fst].
    + rewrite list_elem_of_singleton. naive_solver.
    + rewrite elem_of_nil. naive_solver.
Qed.

Lemma setup_activates_shader_witness :
  gl.UseProgram 7 ∈ trace (Technique.setup sampleTechnique initialSnapshot)
  ∧ gl.UseProgram 7
    ∉ trace (Technique.setup sampleTechnique snapshotAfterSample).
Proof.
  split.
  - apply (setup_activates_shader sampleTechnique initialSnapshot
             snapshotAfterSample); [reflexivity|].
    split; [reflexivity|]. by eexists.
  - intros H.
    apply (setup_activates_shader sampleTechnique snapshotAfterSample
             snapshotAfterSample) in H; [|reflexivity].
    destruct H as [H _]. discriminate H.
Defined.

(** X5.  After a [setup] that returns, the snapshot holds the technique's
    shader, every state function and viewport the technique carries, and the
    technique's framebuffer when it has one; what the technique leaves open (a
    nil state function or viewport) stays as it was. *)
Theorem setup_snapshot_follows_technique (t : Technique.T) (s s' : Snapshot) :
  result (Technique.setup t s) = Some s' →
  ptr_eqb (prevShader s') (Technique.shader t) = true
  ∧ (Technique.framebuffer t ≠ None →
     ptr_eqb (prevFrameBuffer s') (Technique.framebuffer t) = true)
  ∧ prevBlendFunc s'
    = (if Technique.blendFunc_ t is Some b then Some b else prevBlendFunc s)
  ∧ prevCullFace s'
    = (if Technique.cullFace_ t is Some c then Some c else prevCullFace s)
  ∧ prevDepthMask s'
    = (if Technique.depthMask_ t is Some d then Some d else prevDepthMask s)
  ∧ prevDepthFunc s'
    = (if Technique.depthFunc_ t is Some d then Some d else prevDepthFunc s)
  ∧ prevViewport s'
    = (if Technique.viewport t is Some v then Some v else prevViewport s).
Proof.
  intros Hres.
  destruct (setup_decompose t s s' Hres)
    as (_ & H1 & H2 & _ & H4 & H5 & H6 & H7 & H8).
  split; [|split; [|split; [|split; [|split; [|split]]]]].
  - rewrite setupShader_run in H2.
    destruct (ptr_eqb (prevShader s) (Technique.shader t)) eqn:E.
    + injection H2 as <-. exact E.
    + destruct (Technique.shader t); [|discriminate H2].
      injection H2 as <-. apply ptr_eqb_refl.
  - intros Hfb. revert H1. unfold Technique.setupFramebuffer.
    destruct (Technique.framebuffer t) as [[a f]|]; [|done].
    destruct (prevFrameBuffer s) as [[a' f']|]; cbn.
    + destruct (Pos.eqb a a') eqn:E; cbn; intros [= <-]; cbn.
      * by rewrite Pos.eqb_sym.
      * apply Pos.eqb_refl.
    + intros [= <-]. cbn. apply Pos.eqb_refl.
  - rewrite setupBlendFunc_run in H4.
    destruct (Technique.blendFunc_ t); [case_decide|]; cbn in *; congruence.
  - rewrite setupCullFace_run in H5.
    destruct (Technique.cullFace_ t); [case_decide|]; cbn in *; congruence.
  - rewrite setupDepthMask_run in H6.
    destruct (Technique.depthMask_ t); [case_decide|]; cbn in *; congruence.
  - rewrite setupDepthFunc_run in H7.
    destruct (Technique.depthFunc_ t); [case_decide|]; cbn in *; congruence.
  - rewrite setupViewport_run in H8.
    destruct (Technique.viewport t); [case_decide|]; cbn in *; congruence.
Qed.

Lemma setup_snapshot_follows_technique_witness :
  ptr_eqb (prevShader snapshotWithFramebuffer)
          (Technique.shader offscreenTechnique) = true
  ∧ ptr_eqb (prevFrameBuffer snapshotWithFramebuffer)
            (Technique.framebuffer offscreenTechnique) = true.
Proof.
  destruct (setup_snapshot_follows_technique offscreenTechnique
              initialSnapshot snapshotWithFramebuffer) as (H1 & H2 & _);
    [reflexivity|].
  split; [exact H1|]. apply H2. discriminate.
Defined.

(** Every call of a concatenation of steps belongs to one of them. *)
Lemma elem_of_stages (t : Technique.T) (s : Snapshot) (ks : list stage)
    (call : glcall) :
  call ∈ concat (stageTrace t s <$> ks) →
  ∃ k, k ∈ ks ∧ stage_of call = Some k.
Proof.
  induction ks as [|k ks IH]; cbn; [intros H; by apply elem_of_nil in H|].
  rewrite elem_of_app. intros [H|H].
  - exists k. split; [by left|].
    pose proof (stageTrace_stage t s k) as F. rewrite Forall_forall in F.
    by apply F.
  - destruct (IH H) as (k' & Hk' & Hs). exists k'. split; [by right|done].
Qed.

Lemma NoDup_stages (t : Technique.T) (s : Snapshot) (ks : list stage) :
  NoDup ks → NoDup (concat (stageTrace t s <$> ks)).
Proof.
  induction ks as [|k ks IH]; cbn; [constructor|].
  intros Hnd. apply NoDup_cons in Hnd as [Hk Hnd].
  apply NoDup_app. split; [apply stageTrace_NoDup|]. split; [|by apply IH].
  intros call Hin Hrest.
  destruct (elem_of_stages t s ks call Hrest) as (k' & Hk' & Hs).
  pose proof (stageTrace_stage t s k) as F. rewrite Forall_forall in F.
  specialize (F _ Hin). rewrite Hs in F. injection F as ->. done.
Qed.

(** X6.  One [setup] never issues the same device call twice, even when the
    technique lists a capability more than once, and never both enables and
    disables a capability. *)
Theorem setup_never_repeats_a_call (t : Technique.T) (s s' : Snapshot) :
  result (Technique.setup t s) = Some s' →
  NoDup (trace (Technique.setup t s))
  ∧ ∀ c, ¬ (gl.Enable c ∈ trace (Technique.setup t s)
            ∧ gl.Disable c ∈ trace (Technique.setup t s)).
Proof.
  intros Hres. split.
  - destruct (setup_decompose t s s' Hres) as [-> _].
    pose proof (NoDup_stages t s
      [SFramebuffer; SShader; SEnables; SBlendFunc; SCullFace; SDepthMask;
       SDepthFunc; SViewport]) as H.
    cbn in H. rewrite app_nil_r in H. apply H.
    apply NoDup_ListNoDup. repeat constructor; simpl; intuition discriminate.
  - intros c.
    rewrite (elem_of_setup_trace t s s' (gl.Enable c) SEnables Hres eq_refl).
    rewrite (elem_of_setup_trace t s s' (gl.Disable c) SEnables Hres eq_refl).
    cbn [stageTrace].
    destruct (setupEnables_spec t (prevEnables s))
      as (tr & en & -> & _ & _ & HE & HD & _).
    cbn [trace fst]. rewrite HE, HD. tauto.
Qed.

Lemma setup_never_repeats_a_call_witness :
  NoDup (trace (Technique.setup
                  (Technique.Enable techniqueYZ gl.CULL_FACE) snapshotXY)).
Proof.
  destruct (setup_returns (Technique.Enable techniqueYZ gl.CULL_FACE)
              snapshotXY) as [s' Hs']; [intros H; discriminate H|].
  exact (proj1 (setup_never_repeats_a_call _ _ s' Hs')).
Defined.

(** ** Applying techniques in sequence *)

(** X7.  Applying a technique twice in a row: when the technique names a
    framebuffer, or the snapshot held none before the first run, the second
    run issues no device call and leaves the snapshot as it is. *)
Theorem setup_twice_is_silent (t : Technique.T) (s s1 : Snapshot) :
  Technique.framebuffer t ≠ None ∨ prevFrameBuffer s = None →
  result (Technique.setup t s) = Some s1 →
  Technique.setup t s1 = ([], Some s1).
Proof. apply setup_again_silent. Qed.

Lemma setup_twice_is_silent_witness :
  Technique.setup offscreenTechnique snapshotWithFramebuffer
  = ([], Some snapshotWithFramebuffer).
Proof.
  apply (setup_twice_is_silent offscreenTechnique initialSnapshot).
  - left. discriminate.
  - reflexivity.
Defined.

(** X8.  The map of enabled capabilities only ever holds [true]: whatever
    techniques were applied, the keys of [prevEnables] are exactly the enabled
    capabilities. *)
Theorem applied_enables_are_true (s : Snapshot) :
  applied (λ _, True) s →
  ∀ c, is_Some (prevEnables s !! c) ↔ enabled (prevEnables s) c = true.
Proof.
  intros Happ c. rewrite enabled_true. split; [|by intros ->].
  intros [v Hv]. rewrite Hv. f_equal. revert c v Hv.
  induction Happ as [|t s s' _ _ _ Hres]; intros c v.
  - cbn. by rewrite lookup_empty.
  - destruct (setup_decompose t s s' Hres) as (_ & _ & _ & H3 & _).
    destruct (setupEnables_spec t (prevEnables s))
      as (tr & en & Hrun & Hin & Hout & _).
    rewrite Hrun in H3. injection H3 as <-.
    destruct (decide (c ∈ Technique.enables t)) as [Hc|Hc].
    + rewrite (Hin c Hc). congruence.
    + rewrite (Hout c Hc). discriminate.
Qed.

Lemma applied_enables_are_true_witness :
  is_Some (prevEnables snapshotYZ !! gl.BLEND)
  ↔ enabled (prevEnables snapshotYZ) gl.BLEND = true.
Proof.
  apply (applied_enables_are_true snapshotYZ).
  apply (applied_setup _ techniqueYZ initialSnapshot);
    [exact I|constructor|vm_compute; reflexivity].
Defined.

Lemma built_shape (t : Technique.T) :
  built t →
  Technique.framebuffer t = None
  ∧ is_Some (Technique.blendFunc_ t) ∧ is_Some (Technique.cullFace_ t)
  ∧ is_Some (Technique.depthMask_ t) ∧ is_Some (Technique.depthFunc_ t).
Proof.
  induction 1 as [|t e _ IH|t sh _ IH|t v _ IH|t a b _ IH|t m _ IH
                  |t f _ IH|t f _ IH|t r g b a _ IH];
    try (destruct IH as (? & ? & ? & ? & ?)); cbn; eauto 10.
Qed.

(** X9.  A technique built through the exported API has no framebuffer, and
    has all four state functions set. *)
Theorem built_technique_shape (t : Technique.T) :
  built t →
  Technique.framebuffer t = None
  ∧ is_Some (Technique.blendFunc_ t) ∧ is_Some (Technique.cullFace_ t)
  ∧ is_Some (Technique.depthMask_ t) ∧ is_Some (Technique.depthFunc_ t).
Proof. exact (built_shape t). Qed.

Lemma built_technique_shape_witness :
  Technique.framebuffer techniqueYZ = None
  ∧ is_Some (Technique.blendFunc_ techniqueYZ)
  ∧ is_Some (Technique.cullFace_ techniqueYZ)
  ∧ is_Some (Technique.depthMask_ techniqueYZ)
  ∧ is_Some (Technique.depthFunc_ techniqueYZ).
Proof.
  apply built_technique_shape. repeat constructor.
Defined.

Lemma applied_built_no_framebuffer (s : Snapshot) :
  applied built s → prevFrameBuffer s = None.
Proof.
  induction 1 as [|t s s' Hb _ IH Hres]; [done|].
  destruct (setup_decompose t s s' Hres) as (_ & H1 & _).
  destruct (built_shape t Hb) as [Hfb _].
  revert H1. unfold Technique.setupFramebuffer. rewrite Hfb, IH. cbn.
  by intros [= <-].
Qed.

(** X10.  Through the exported API the cache is idempotent: in any snapshot
    reached by applying built techniques, applying a built technique a second
    time in a row issues no device call. *)
Theorem setup_twice_is_silent_for_built (t : Technique.T) (s s1 : Snapshot) :
  built t → applied built s →
  result (Technique.setup t s) = Some s1 →
  Technique.setup t s1 = ([], Some s1).
Proof.
  intros Hb Hs. apply setup_again_silent. right.
  by apply applied_built_no_framebuffer.
Qed.

Lemma setup_twice_is_silent_for_built_witness :
  Technique.setup sampleTechnique snapshotAfterSample
  = ([], Some snapshotAfterSample).
Proof.
  apply (setup_twice_is_silent_for_built sampleTechnique initialSnapshot).
  - repeat constructor.
  - constructor.
  - reflexivity.
Defined.

(** ** Drawing (renderable.go, the command file, [Technique.Draw]) *)

(** A loop without loop-carried state whose rounds all return issues the
    calls of its rounds in order. *)
Lemma forM_unit_ok {B} (f : B → GL unit) (xs : list B) :
  (∀ x, x ∈ xs → result (f x) = Some tt) →
  forM (λ _ x, f x) xs tt = (concat ((λ x, trace (f x)) <$> xs), Some tt).
Proof.
  induction xs as [|x xs IH]; intros Hok; [done|].
  cbn [forM]. pose proof (Hok x ltac:(left)) as Hx.
  destruct (f x) as [tr [[]|]] eqn:E; [|discriminate Hx].
  rewrite bind_pair, IH by (intros y Hy; apply Hok; by right).
  cbn. by rewrite E.
Qed.

Lemma Renderable_Draw_returns (r : Ref Renderable.T) :
  ∃ draw, Renderable.Draw (Some r) = ([draw], Some tt)
          ∧ is_drawable_call draw = true.
Proof.
  destruct r as [a v]. unfold Renderable.Draw, deref. rewrite bind_ret_l.
  cbn [target].
  destruct (Renderable.indexbuffer v); cbn [isNil negb];
    destruct (0 <? Renderable.primcount v); eexists; split; reflexivity.
Qed.

(** [Renderable.Draw] on a renderable issues exactly one draw call: indexed
    when an index buffer is set, instanced when [primcount] is positive. *)
Theorem Renderable_Draw_one_call (r : Ref Renderable.T) :
  let v := target r in
  Renderable.Draw (Some r)
  = ([match Renderable.indexbuffer v, bool_decide (0 < Renderable.primcount v)
      with
      | Some _, true =>
          gl.DrawElementsInstanced (Renderable.mode v) (Renderable.count v)
            (Renderable.typ v) (Renderable.byteOffset v)
            (Renderable.primcount v)
      | Some _, false =>
          gl.DrawElements (Renderable.mode v) (Renderable.count v)
            (Renderable.typ v) (Renderable.byteOffset v)
      | None, true =>
          gl.DrawArraysInstanced (Renderable.mode v) (Renderable.first v)
            (Renderable.count v) (Renderable.primcount v)
      | None, false =>
          gl.DrawArrays (Renderable.mode v) (Renderable.first v)
            (Renderable.count v)
      end], Some tt).
Proof.
  destruct r as [a v]. cbn [target]. unfold Renderable.Draw, deref.
  rewrite bind_ret_l. cbn [target].
  destruct (Renderable.indexbuffer v) as [ib|]; cbn [isNil negb];
    case_bool_decide as Hp;
    destruct (Z.ltb_spec 0 (Renderable.primcount v)); try lia; reflexivity.
Qed.

(** X11.  The non-instanced setters leave [primcount] alone: a renderable that
    was once set up for instanced drawing keeps drawing instanced after
    [SetDrawArrays], with the new mode, first and count. *)
Theorem SetDrawArrays_keeps_instancing (r : Renderable.T) (a : positive)
    (mode first count : Z) :
  Renderable.indexbuffer r = None → 0 < Renderable.primcount r →
  Renderable.Draw (Some (mkRef a (Renderable.SetDrawArrays r mode first count)))
  = ([gl.DrawArraysInstanced mode first count (Renderable.primcount r)],
     Some tt).
Proof.
  intros Hib Hp. unfold Renderable.Draw, deref. rewrite bind_ret_l.
  cbn. rewrite Hib. cbn.
  by destruct (Z.ltb_spec 0 (Renderable.primcount r)); [|lia].
Qed.

Lemma SetDrawArrays_keeps_instancing_witness :
  Renderable.Draw
    (Some (mkRef 41
       (Renderable.SetDrawArrays
          (Renderable.SetDrawArraysInstanced (target sampleRenderable) 4 0 3 8)
          4 0 6)))
  = ([gl.DrawArraysInstanced 4 0 6 8], Some tt).
Proof.
  apply (SetDrawArrays_keeps_instancing
           (Renderable.SetDrawArraysInstanced (target sampleRenderable) 4 0 3 8)
           41 4 0 6).
  - reflexivity.
  - cbn. lia.
Defined.

Lemma dispatch_returns (d : UniformDescriptor.T) (arg : value) :
  ∃ e, result (Shader.dispatch d arg) = Some e.
Proof.
  unfold Shader.dispatch.
  repeat match goal with
  | |- context [if ?b then _ else _] => destruct b
  end; destruct arg; cbn; eauto.
Qed.

Lemma SetUniform_returns (s : Ref Shader.T) (name : string) (arg : value) :
  ∃ e, result (Shader.SetUniform (Some s) name arg) = Some e.
Proof.
  unfold Shader.SetUniform, deref. rewrite bind_ret_l.
  destruct (Shader.descriptors (target s) !! name); [|cbn; eauto].
  apply dispatch_returns.
Qed.

(** X12.  [Execute] draws whatever the uniforms do: with a drawable, textures
    that are not nil, and a shader (or no uniform at all), it returns; the
    errors of [SetUniform] are dropped; and its last three calls bind the
    drawable, draw it and unbind it, after calls that touch no drawable. *)
Theorem Execute_draws_despite_uniform_errors (c : Ref Command.T)
    (r : Ref Renderable.T) (shader : ptr Shader.T) :
  Command.renderable (target c) = Some r →
  (∀ location texture,
     Command.textures (target c) !! location = Some texture →
     texture ≠ None) →
  (shader = None → Command.uniforms (target c) = ∅) →
  ∃ before draw,
    Command.Execute (Some c) shader
    = (before ++ [gl.BindVertexArray (Renderable.id (target r)); draw;
                  gl.BindVertexArray 0], Some tt)
    ∧ Forall (λ call, is_drawable_call call = false) before
    ∧ Renderable.Draw (Some r) = ([draw], Some tt).
Proof.
  intros Hr Htex Hsh.
  destruct (Renderable_Draw_returns r) as (draw & Hdraw & _).
  pose (bindTex := λ lt : Z * ptr Texture.T, Texture.Bind lt.2 lt.1).
  pose (setUni := λ nv : string * value,
                    Shader.SetUniform shader nv.1 nv.2 ≫= λ _, mret tt).
  assert (forM (λ _ lt, Texture.Bind lt.2 lt.1)
            (map_to_list (Command.textures (target c))) tt
          = (concat ((λ lt, trace (bindTex lt))
                       <$> map_to_list (Command.textures (target c))),
             Some tt)) as H1.
  { apply (forM_unit_ok bindTex). intros [loc tex] Hin.
    apply elem_of_map_to_list in Hin. specialize (Htex loc tex Hin).
    destruct tex as [[a t]|]; [reflexivity|done]. }
  assert (forM (λ _ nv, Shader.SetUniform shader nv.1 nv.2 ≫= λ _, mret tt)
            (map_to_list (Command.uniforms (target c))) tt
          = (concat ((λ nv, trace (setUni nv))
                       <$> map_to_list (Command.uniforms (target c))),
             Some tt)) as H2.
  { apply (forM_unit_ok setUni). intros [name arg] Hin. subst setUni.
    cbn [fst snd].
    destruct shader as [s|].
    - destruct (SetUniform_returns s name arg) as [e He].
      rewrite result_bind, He. reflexivity.
    - rewrite (Hsh eq_refl), map_to_list_empty in Hin.
      by apply elem_of_nil in Hin. }
  eexists _, draw. split; [|split; [|exact Hdraw]].
  - unfold Command.Execute, deref. rewrite bind_ret_l.
    rewrite H1, bind_pair, H2, bind_pair, Hr.
    unfold Renderable.Bind, deref. rewrite bind_ret_l.
    unfold call at 1. rewrite bind_pair, Hdraw, bind_pair.
    cbn [fst snd Renderable.Unbind call]. rewrite app_assoc.
    reflexivity.
  - apply Forall_app. split.
    + apply Forall_concat, Forall_fmap, Forall_forall. intros lt _.
      apply Texture_Bind_no_drawable_call.
    + apply Forall_concat, Forall_fmap, Forall_forall. intros nv _.
      subst setUni. cbn. rewrite trace_bind. apply Forall_app. split.
      * apply SetUniform_no_drawable_call.
      * destruct (result _); constructor.
Qed.

Lemma Execute_draws_despite_uniform_errors_witness :
  ∃ before draw,
    Command.Execute (Some sloppyCommand)
      (Some (sampleShader sampleDescriptors))
    = (before ++ [gl.BindVertexArray 9; draw; gl.BindVertexArray 0], Some tt)
    ∧ Forall (λ call, is_drawable_call call = false) before
    ∧ Renderable.Draw (Some sampleRenderable) = ([draw], Some tt).
Proof.
  apply (Execute_draws_despite_uniform_errors sloppyCommand sampleRenderable
           (Some (sampleShader sampleDescriptors))).
  - reflexivity.
  - intros location texture H.
    destruct (decide (location = 0x84C0)) as [->|Hne].
    + vm_compute in H. injection H as <-. discriminate.
    + unfold sloppyCommand, sampleCommand, drawablelessCommand in H.
      cbn in H. rewrite lookup_insert_ne in H by done.
      by rewrite lookup_empty in H.
  - discriminate.
Defined.

(** The run on the sample command with the undeclared uniform: the texture
    is bound, the declared uniform is set, the undeclared one is skipped
    without a trace, and the drawable is drawn. *)
Example Execute_sloppy_sample :
  Command.Execute (Some sloppyCommand) (Some (sampleShader sampleDescriptors))
  = ([gl.ActiveTexture 0x84C0; gl.BindTexture gl.TEXTURE_2D 5;
      gl.Uniform1i 0 0; gl.BindVertexArray 9; gl.DrawArrays 4 0 3;
      gl.BindVertexArray 0], Some tt).
Proof. vm_compute. reflexivity. Qed.

(** X13.  [Draw] applies the technique once, then executes the commands in the
    order given; the snapshot it leaves is the one [setup] leaves. *)
Theorem Draw_runs_commands_in_order (t : Technique.T)
    (commands : list (ptr Command.T)) (s s' : Snapshot) :
  result (Technique.setup t s) = Some s' →
  (∀ c, c ∈ commands →
     result (Command.Execute c (Technique.shader t)) = Some tt) →
  Technique.Draw t commands s
  = (trace (Technique.setup t s)
       ++ concat ((λ c, trace (Command.Execute c (Technique.shader t)))
                    <$> commands),
     Some s').
Proof.
  intros Hres Hok. unfold Technique.Draw.
  destruct (Technique.setup t s) as [tr [s0|]]; [|discriminate Hres].
  cbn in Hres. injection Hres as ->. rewrite bind_pair.
  rewrite (forM_unit_ok (λ c, Command.Execute c (Technique.shader t)))
    by exact Hok.
  rewrite bind_pair. cbn. by rewrite app_nil_r.
Qed.

Lemma Draw_runs_commands_in_order_witness :
  Technique.Draw sampleTechnique [Some sampleCommand; Some sloppyCommand]
    initialSnapshot
  = (trace (Technique.setup sampleTechnique initialSnapshot)
       ++ concat ((λ c, trace (Command.Execute c
                                 (Technique.shader sampleTechnique)))
                    <$> [Some sampleCommand; Some sloppyCommand]),
     Some snapshotAfterSample).
Proof.
  apply Draw_runs_commands_in_order.
  - reflexivity.
  - intros c Hc.
    apply elem_of_cons in Hc as [->|Hc]; [vm_compute; reflexivity|].
    apply elem_of_cons in Hc as [->|Hc]; [vm_compute; reflexivity|].
    by apply elem_of_nil in Hc.
Defined.

(** X14.  Drawing again with the same technique issues the calls of the
    commands and nothing else: no state is set a second time (given, as for
    [setup], that the technique names a framebuffer or the snapshot held
    none). *)
Theorem Draw_again_only_draws (t : Technique.T)
    (commands : list (ptr Command.T)) (s s' : Snapshot) :
  Technique.framebuffer t ≠ None ∨ prevFrameBuffer s = None →
  result (Technique.setup t s) = Some s' →
  (∀ c, c ∈ commands →
     result (Command.Execute c (Technique.shader t)) = Some tt) →
  Technique.Draw t commands s'
  = (concat ((λ c, trace (Command.Execute c (Technique.shader t)))
               <$> commands),
     Some s').
Proof.
  intros Hfb Hres Hok. unfold Technique.Draw.
  rewrite (setup_again_silent t s s' Hfb Hres), bind_nil_l.
  rewrite (forM_unit_ok (λ c, Command.Execute c (Technique.shader t)))
    by exact Hok.
  rewrite bind_pair. cbn. by rewrite app_nil_r.
Qed.

Lemma Draw_again_only_draws_witness :
  Technique.Draw sampleTechnique [Some sampleCommand] snapshotAfterSample
  = (concat ((λ c, trace (Command.Execute c
                            (Technique.shader sampleTechnique)))
               <$> [Some sampleCommand]),
     Some snapshotAfterSample).
Proof.
  apply (Draw_again_only_draws sampleTechnique [Some sampleCommand]
           initialSnapshot).
  - right. reflexivity.
  - reflexivity.
  - intros c Hc.
    apply elem_of_cons in Hc as [->|Hc]; [vm_compute; reflexivity|].
    by apply elem_of_nil in Hc.
Defined.

(** ** Reflection: what the maps hold and what they do not *)

Section reflection_maps.
Variable d : Shader.Device.
Hypothesis wf : Device_wf d.

Local Abbreviation n := (Shader.ACTIVE_UNIFORMS d).
Local Abbreviation nb := (Shader.ACTIVE_UNIFORM_BLOCKS d).

Lemma descriptors_exact :
  ∃ descs,
    forM (Shader.descriptorStep (reflectedNames d)
            (Shader.queryUniformTypes d (Shader.indicesUpTo n))
            (Shader.queryUniformCounts d (Shader.indicesUpTo n))
            (Shader.queryParentBlockIndices d (Shader.indicesUpTo n))
            (Shader.queryUniformLocations d (reflectedNames d)))
         (Shader.indicesUpTo n) ∅ = ([], Some descs)
    ∧ (∀ i, 0 <= i < n → Shader.UNIFORM_BLOCK_INDEX d i = -1 →
         descs !! uniformName d i = Some (reflectedDescriptor d i))
    ∧ (∀ k, (∀ i, 0 <= i < n → Shader.UNIFORM_BLOCK_INDEX d i = -1 →
               uniformName d i ≠ k) → descs !! k = None).
Proof.
  destruct (forM_insert_spec
              (Shader.descriptorStep (reflectedNames d)
                 (Shader.queryUniformTypes d (Shader.indicesUpTo n))
                 (Shader.queryUniformCounts d (Shader.indicesUpTo n))
                 (Shader.queryParentBlockIndices d (Shader.indicesUpTo n))
                 (Shader.queryUniformLocations d (reflectedNames d)))
              (λ _, []) (λ i, Shader.UNIFORM_BLOCK_INDEX d i =? -1)
              (uniformName d) (reflectedDescriptor d)
              (Shader.indicesUpTo n) ∅)
    as (descs & Hrun & Hin & Hframe).
  - intros m i Hi. by apply descriptorStep_ok.
  - apply NoDup_indicesUpTo.
  - intros i j Hi Hj _ _. apply (uname_inj d wf); by apply elem_of_indicesUpTo.
  - exists descs. split; [by rewrite Hrun, concat_fmap_nil|]. split.
    + intros i Hi Hp. apply Hin; [by apply elem_of_indicesUpTo|].
      rewrite Hp. reflexivity.
    + intros k Hk. rewrite Hframe; [apply lookup_empty|].
      intros i Hi Hkeep. apply Hk; [by apply elem_of_indicesUpTo|].
      by apply Z.eqb_eq.
Qed.

Lemma blockOffsets_exact (b : Z) :
  (∀ i, 0 <= i < n → Shader.UNIFORM_BLOCK_INDEX d i = wrap32 b →
     reflectedOffsets d b !! uniformName d i = Some (Shader.UNIFORM_OFFSET d i))
  ∧ (∀ k, (∀ i, 0 <= i < n → Shader.UNIFORM_BLOCK_INDEX d i = wrap32 b →
             uniformName d i ≠ k) → reflectedOffsets d b !! k = None).
Proof.
  unfold reflectedOffsets, Shader.blockOffsets, Shader.queryParentBlockIndices.
  rewrite imap_indices.
  destruct (forM_insert_spec
              (Shader.offsetStep (reflectedNames d)
                 (Shader.queryUniformOffsets d (Shader.indicesUpTo n)) b)
              (λ _, []) (λ ip, ip.2 =? wrap32 b)
              (λ ip, uniformName d ip.1) (λ ip, Shader.UNIFORM_OFFSET d ip.1)
              ((λ i, (i, Shader.UNIFORM_BLOCK_INDEX d i))
                 <$> Shader.indicesUpTo n) ∅)
    as (offsets & Hrun & Hin & Hframe).
  - intros m ip Hip. by apply offsetStep_ok.
  - apply NoDup_fmap_2; [|apply NoDup_indicesUpTo].
    intros x y H. by injection H.
  - intros x y Hx Hy _ _ Heq.
    apply list_elem_of_fmap in Hx as (i & -> & Hi).
    apply list_elem_of_fmap in Hy as (j & -> & Hj).
    apply elem_of_indicesUpTo in Hi, Hj. cbn [fst] in Heq.
    by rewrite (uname_inj d wf i j Hi Hj Heq).
  - rewrite Hrun. cbn [result snd default]. split.
    + intros i Hi Hp.
      apply (Hin (i, Shader.UNIFORM_BLOCK_INDEX d i)).
      * apply list_elem_of_fmap. exists i. split; [done|].
        by apply elem_of_indicesUpTo.
      * cbn [snd]. rewrite Hp. apply Z.eqb_refl.
    + intros k Hk. rewrite Hframe; [apply lookup_empty|].
      intros ip Hip Hkeep.
      apply list_elem_of_fmap in Hip as (i & -> & Hi).
      apply elem_of_indicesUpTo in Hi. cbn [fst snd] in *.
      apply Hk; [done|]. by apply Z.eqb_eq.
Qed.

Lemma blocks_exact (program : Z) :
  ∃ blocks,
    forM (Shader.blockStep program (reflectedNames d)
            (Shader.queryUniformOffsets d (Shader.indicesUpTo n))
            (Shader.queryParentBlockIndices d (Shader.indicesUpTo n))
            (uniformBlockName d <$> Shader.indicesUpTo nb)
            (Shader.indicesUpTo nb)
            (Shader.UNIFORM_BLOCK_DATA_SIZE d <$> Shader.indicesUpTo nb)
            (Shader.queryUniformBufferAlignment d))
         (Shader.indicesUpTo nb) ∅
    = ((λ b, gl.UniformBlockBinding program b b) <$> Shader.indicesUpTo nb,
       Some blocks)
    ∧ (∀ b, 0 <= b < nb →
         blocks !! uniformBlockName d b = Some (reflectedBlock d b))
    ∧ (∀ k, (∀ b, 0 <= b < nb → uniformBlockName d b ≠ k) →
         blocks !! k = None).
Proof.
  destruct (forM_insert_spec
              (Shader.blockStep program (reflectedNames d)
                 (Shader.queryUniformOffsets d (Shader.indicesUpTo n))
                 (Shader.queryParentBlockIndices d (Shader.indicesUpTo n))
                 (uniformBlockName d <$> Shader.indicesUpTo nb)
                 (Shader.indicesUpTo nb)
                 (Shader.UNIFORM_BLOCK_DATA_SIZE d <$> Shader.indicesUpTo nb)
                 (Shader.queryUniformBufferAlignment d))
              (λ b, [gl.UniformBlockBinding program b b]) (λ _, true)
              (uniformBlockName d) (reflectedBlock d)
              (Shader.indicesUpTo nb) ∅)
    as (blocks & Hrun & Hin & Hframe).
  - intros m b Hb. by apply blockStep_ok.
  - apply NoDup_indicesUpTo.
  - intros a b Ha Hb _ _. apply (bname_inj d wf); by apply elem_of_indicesUpTo.
  - exists blocks. split; [by rewrite Hrun, concat_fmap_singleton|]. split.
    + intros b Hb. apply Hin; [by apply elem_of_indicesUpTo|done].
    + intros k Hk. rewrite Hframe; [apply lookup_empty|].
      intros b Hb _. apply Hk. by apply elem_of_indicesUpTo.
Qed.

(** The whole run of reflection on well-formed device answers. *)
Lemma queryUniforms_exact (s : Ref Shader.T) :
  ∃ descs blocks,
    Shader.queryUniforms (Some s) d
    = ((λ b, gl.UniformBlockBinding (Shader.id (target s)) b b)
         <$> Shader.indicesUpTo nb,
       Some (Shader.mk (Shader.id (target s)) (Shader.shaders (target s))
               descs blocks))
    ∧ (∀ i, 0 <= i < n → Shader.UNIFORM_BLOCK_INDEX d i = -1 →
         descs !! uniformName d i = Some (reflectedDescriptor d i))
    ∧ (∀ k, (∀ i, 0 <= i < n → Shader.UNIFORM_BLOCK_INDEX d i = -1 →
               uniformName d i ≠ k) → descs !! k = None)
    ∧ (∀ b, 0 <= b < nb →
         blocks !! uniformBlockName d b = Some (reflectedBlock d b))
    ∧ (∀ k, (∀ b, 0 <= b < nb → uniformBlockName d b ≠ k) →
         blocks !! k = None).
Proof.
  destruct descriptors_exact as (descs & Hd & Hdin & Hdout).
  destruct (blocks_exact (Shader.id (target s)))
    as (blocks & Hb & Hbin & Hbout).
  exists descs, blocks. split; [|by repeat split].
  unfold Shader.queryUniforms, deref, Shader.queryUniformIndices,
    Shader.queryUniformBlockIndices.
  rewrite bind_ret_l.
  rewrite (iota_ok n) by apply (wf_uniforms d wf).
  rewrite bind_ret_l, (queryUniformNames_ok d wf), bind_ret_l.
  cbn zeta. rewrite Hd, bind_nil_l.
  rewrite (iota_ok nb) by apply (wf_blocks d wf).
  rewrite bind_ret_l, (queryUniformBlockNames_ok d wf), bind_ret_l.
  rewrite queryUniformBlockSizes_ok, bind_ret_l.
  rewrite Hb. cbn. by rewrite app_nil_r.
Qed.
End reflection_maps.

(** A map filled from the indices [0 .. n-1] that satisfy [P] holds nothing
    else. *)
Lemma lookup_from_indices {V} (P : Z → Prop) `{!∀ i, Decision (P i)}
    (key : Z → string) (val : Z → V) (m : gmap string V) (n : Z) :
  (∀ i, 0 <= i < n → P i → m !! key i = Some (val i)) →
  (∀ k, (∀ i, 0 <= i < n → P i → key i ≠ k) → m !! k = None) →
  ∀ k v, m !! k = Some v → ∃ i, 0 <= i < n ∧ P i ∧ key i = k ∧ val i = v.
Proof.
  intros Hin Hout k v Hk.
  destruct (decide (Exists (λ i, P i ∧ key i = k) (Shader.indicesUpTo n)))
    as [Hex|Hno].
  - apply Exists_exists in Hex as (i & Hi & HP & <-).
    apply elem_of_indicesUpTo in Hi.
    rewrite (Hin i Hi HP) in Hk.
    exists i. split; [done|]. split; [done|]. split; congruence.
  - rewrite Hout in Hk; [discriminate Hk|].
    intros i Hi HP Hkey. apply Hno, Exists_exists.
    exists i. split; [by apply elem_of_indicesUpTo|done].
Qed.

Lemma length_substring_0 (s : string) (m : nat) :
  (m ≤ String.length s)%nat → String.length (String.substring 0 m s) = m.
Proof.
  revert m. induction s as [|a s IH]; intros [|m] Hm; simpl in *;
    try reflexivity; try lia.
  rewrite IH; [reflexivity|lia].
Qed.

Lemma wrap32_index (b nb : Z) : 0 <= b < nb → nb < 2 ^ 31 → wrap32 b = b.
Proof. intros Hb Hnb. apply wrap32_id. unfold int32_range. lia. Qed.

(** The decoder of name buffers drops exactly the last byte: it returns the
    name of a null-terminated buffer, and panics on an empty buffer. *)
Theorem toString_drops_terminator (name : string) :
  Shader.toString (cstring name) = ([], Some name)
  ∧ Shader.toString [] = ([], None).
Proof.
  split; [|reflexivity].
  rewrite toString_ok, strippedName_cstring; [reflexivity|].
  unfold cstring. by destruct (String.list_byte_of_string name).
Qed.

(** X15.  On well-formed device answers reflection issues one state-changing
    device call per uniform block, in index order, and binds each block to
    the binding point that equals its index; it issues no other
    state-changing call (its queries are not part of the trace). *)
Theorem queryUniforms_binds_blocks_by_index (s : Ref Shader.T)
    (d : Shader.Device) :
  Device_wf d →
  trace (Shader.queryUniforms (Some s) d)
  = (λ b, gl.UniformBlockBinding (Shader.id (target s)) b b)
      <$> Shader.indicesUpTo (Shader.ACTIVE_UNIFORM_BLOCKS d).
Proof.
  intros wf.
  destruct (queryUniforms_exact d wf s) as (descs & blocks & Hrun & _).
  by rewrite Hrun.
Qed.

Lemma queryUniforms_binds_blocks_by_index_witness :
  trace (Shader.queryUniforms (Some (sampleShader ∅)) sampleDevice)
  = [gl.UniformBlockBinding 7 0 0].
Proof.
  exact (queryUniforms_binds_blocks_by_index (sampleShader ∅) sampleDevice
           sampleDevice_wf).
Defined.

(** X16.  After reflection the descriptor map holds exactly the active
    uniforms that lie outside every block: whatever the map held before is
    gone, and a uniform inside a block has no entry. *)
Theorem queryUniforms_descriptors_exactly_blockless (s : Ref Shader.T)
    (d : Shader.Device) :
  Device_wf d →
  ∃ s', result (Shader.queryUniforms (Some s) d) = Some s'
    ∧ ∀ name, is_Some (Shader.UniformDescriptors s' !! name)
        ↔ ∃ i, 0 <= i < Shader.ACTIVE_UNIFORMS d
               ∧ Shader.UNIFORM_BLOCK_INDEX d i = -1
               ∧ Shader.ActiveUniformName d i = cstring name.
Proof.
  intros wf.
  destruct (queryUniforms_exact d wf s)
    as (descs & blocks & Hrun & Hin & Hout & _).
  eexists. split; [by rewrite Hrun|]. intros name.
  unfold Shader.UniformDescriptors. cbn. split.
  - intros [v Hv].
    destruct (lookup_from_indices
                (λ i, Shader.UNIFORM_BLOCK_INDEX d i = -1)
                (uniformName d) (reflectedDescriptor d) descs
                (Shader.ACTIVE_UNIFORMS d) Hin Hout name v Hv)
      as (i & Hi & Hp & Hkey & _).
    exists i. split; [done|]. split; [done|].
    rewrite <- Hkey. unfold uniformName.
    apply (nullTerminated_cstring 2), (wf_uniform_name d wf i Hi).
  - intros (i & Hi & Hp & Hname). exists (reflectedDescriptor d i).
    rewrite <- (Hin i Hi Hp). f_equal.
    unfold uniformName. by rewrite Hname, strippedName_cstring.
Qed.

Lemma queryUniforms_descriptors_exactly_blockless_witness :
  ∃ s', result (Shader.queryUniforms (Some (sampleShader sampleDescriptors))
                  sampleDevice) = Some s'
    ∧ ∀ name, is_Some (Shader.UniformDescriptors s' !! name)
        ↔ ∃ i, 0 <= i < Shader.ACTIVE_UNIFORMS sampleDevice
               ∧ Shader.UNIFORM_BLOCK_INDEX sampleDevice i = -1
               ∧ Shader.ActiveUniformName sampleDevice i = cstring name.
Proof.
  exact (queryUniforms_descriptors_exactly_blockless
           (sampleShader sampleDescriptors) sampleDevice sampleDevice_wf).
Defined.

(** X17.  Every descriptor reflection stores carries, in its [Name] field, the
    key it is stored under without the key's last character. *)
Theorem queryUniforms_descriptor_Name_is_key_cut (s : Ref Shader.T)
    (d : Shader.Device) :
  Device_wf d →
  ∃ s', result (Shader.queryUniforms (Some s) d) = Some s'
    ∧ ∀ name desc, Shader.UniformDescriptors s' !! name = Some desc →
        UniformDescriptor.Name desc
        = String.substring 0 (String.length name - 1) name
        ∧ String.length name
          = S (String.length (UniformDescriptor.Name desc)).
Proof.
  intros wf.
  destruct (queryUniforms_exact d wf s)
    as (descs & blocks & Hrun & Hin & Hout & _).
  eexists. split; [by rewrite Hrun|]. intros name desc Hdesc.
  unfold Shader.UniformDescriptors in Hdesc. cbn in Hdesc.
  destruct (lookup_from_indices
              (λ i, Shader.UNIFORM_BLOCK_INDEX d i = -1)
              (uniformName d) (reflectedDescriptor d) descs
              (Shader.ACTIVE_UNIFORMS d) Hin Hout name desc Hdesc)
    as (i & Hi & Hp & <- & <-).
  unfold reflectedDescriptor. cbn. split; [reflexivity|].
  pose proof (strippedName_nonempty _ (wf_uniform_name d wf i Hi)) as Hne.
  fold (uniformName d i) in Hne.
  rewrite length_substring_0 by lia. lia.
Qed.

Lemma queryUniforms_descriptor_Name_is_key_cut_witness :
  ∃ s', result (Shader.queryUniforms (Some (sampleShader ∅)) sampleDevice)
        = Some s'
    ∧ ∀ name desc, Shader.UniformDescriptors s' !! name = Some desc →
        UniformDescriptor.Name desc
        = String.substring 0 (String.length name - 1) name
        ∧ String.length name
          = S (String.length (UniformDescriptor.Name desc)).
Proof.
  exact (queryUniforms_descriptor_Name_is_key_cut (sampleShader ∅)
           sampleDevice sampleDevice_wf).
Defined.

(** X18.  Reflection composed with the binder: a uniform outside every block,
    of a handled type, is set by its reported name with a value of the
    matching shape through exactly one device call, at the location the device
    resolves for that name. ([resolved] reads the type and the count of a
    descriptor only.) *)
Theorem reflected_uniform_is_settable (s : Ref Shader.T) (d : Shader.Device)
    (i : Z) (name : string) (k : setter) (arg : value) :
  Device_wf d →
  0 <= i < Shader.ACTIVE_UNIFORMS d →
  Shader.UNIFORM_BLOCK_INDEX d i = -1 →
  Shader.ActiveUniformName d i = cstring name →
  resolved (UniformDescriptor.mk name (wrapU32 (Shader.UNIFORM_TYPE d i))
              (Shader.UNIFORM_SIZE d i) 0) = Some k →
  shape_of arg = setter_shape k →
  ∃ s' c,
    result (Shader.queryUniforms (Some s) d) = Some s'
    ∧ Shader.SetUniform (Some (mkRef (addr s) s')) name arg
      = ([c], Some None)
    ∧ setter_of_call c = Some k
    ∧ location_of_call c = Some (Shader.UniformLocation d name).
Proof.
  intros wf Hi Hp Hname Hres Hshape.
  destruct (queryUniforms_exact d wf s)
    as (descs & blocks & Hrun & Hin & _).
  assert (uniformName d i = name) as Hn.
  { unfold uniformName. by rewrite Hname, strippedName_cstring. }
  specialize (Hin i Hi Hp). rewrite Hn in Hin.
  assert (resolved (reflectedDescriptor d i) = Some k) as Hres'.
  { rewrite <- Hres. reflexivity. }
  destruct (dispatch_resolved (reflectedDescriptor d i) arg k Hres')
    as [Hok _].
  destruct (Hok Hshape) as (c & Hc & Hset & Hloc).
  eexists _, c. split; [by rewrite Hrun|].
  split; [|split; [done|]].
  - rewrite (SetUniform_known _ name (reflectedDescriptor d i)); [done|].
    exact Hin.
  - rewrite Hloc. cbn. by rewrite Hn.
Qed.

Lemma reflected_uniform_is_settable_witness :
  ∃ s' c,
    result (Shader.queryUniforms (Some (sampleShader ∅)) sampleDevice)
    = Some s'
    ∧ Shader.SetUniform (Some (mkRef 1 s')) "color" (VPtrFloat32 100)
      = ([c], Some None)
    ∧ setter_of_call c = Some ArrayVec4
    ∧ location_of_call c = Some 4.
Proof.
  apply (reflected_uniform_is_settable (sampleShader ∅) sampleDevice 0
           "color" ArrayVec4 (VPtrFloat32 100)).
  - exact sampleDevice_wf.
  - vm_compute. split; [discriminate|reflexivity].
  - reflexivity.
  - reflexivity.
  - vm_compute. reflexivity.
  - reflexivity.
Defined.

(** X19.  After reflection the binder does not know the members of uniform
    blocks: setting an active uniform that lies inside a block fails with the
    unknown-uniform error and makes no device call. *)
Theorem reflected_block_member_is_not_settable (s : Ref Shader.T)
    (d : Shader.Device) (i : Z) (name : string) (arg : value) :
  Device_wf d →
  0 <= i < Shader.ACTIVE_UNIFORMS d →
  Shader.UNIFORM_BLOCK_INDEX d i ≠ -1 →
  Shader.ActiveUniformName d i = cstring name →
  ∃ s',
    result (Shader.queryUniforms (Some s) d) = Some s'
    ∧ Shader.SetUniform (Some (mkRef (addr s) s')) name arg
      = ([], Some (Some (ErrUniformNotRecognized name))).
Proof.
  intros wf Hi Hp Hname.
  destruct (queryUniforms_exact d wf s)
    as (descs & blocks & Hrun & _ & Hout & _).
  assert (uniformName d i = name) as Hn.
  { unfold uniformName. by rewrite Hname, strippedName_cstring. }
  eexists. split; [by rewrite Hrun|].
  unfold Shader.SetUniform, deref. rewrite bind_ret_l. cbn.
  rewrite Hout; [reflexivity|].
  intros j Hj Hpj Heq. rewrite <- Hn in Heq.
  apply (uname_inj d wf j i Hj Hi) in Heq. congruence.
Qed.

Lemma reflected_block_member_is_not_settable_witness :
  ∃ s',
    result (Shader.queryUniforms (Some (sampleShader ∅)) sampleDevice)
    = Some s'
    ∧ Shader.SetUniform (Some (mkRef 1 s')) "model" (VPtrFloat32 100)
      = ([], Some (Some (ErrUniformNotRecognized "model"))).
Proof.
  apply (reflected_block_member_is_not_settable (sampleShader ∅) sampleDevice
           1 "model" (VPtrFloat32 100)).
  - exact sampleDevice_wf.
  - vm_compute. split; [discriminate|reflexivity].
  - vm_compute. discriminate.
  - reflexivity.
Defined.

(** X20.  The offsets of a reflected block: [Offset] answers the reported byte
    offset for the name of each uniform the device places in the block, and -1
    with an error for every other name. *)
Theorem reflected_block_Offset (s : Ref Shader.T) (d : Shader.Device)
    (b : Z) (blockName : string) :
  Device_wf d →
  0 <= b < Shader.ACTIVE_UNIFORM_BLOCKS d →
  Shader.ActiveUniformBlockName d b = cstring blockName →
  ∃ s' blk,
    result (Shader.queryUniforms (Some s) d) = Some s'
    ∧ Shader.UniformBlockDescriptors s' !! blockName = Some blk
    ∧ (∀ i name, 0 <= i < Shader.ACTIVE_UNIFORMS d →
         Shader.UNIFORM_BLOCK_INDEX d i = b →
         Shader.ActiveUniformName d i = cstring name →
         UniformBlockDescriptor.Offset blk name
         = (Shader.UNIFORM_OFFSET d i, None))
    ∧ (∀ name,
         (∀ i, 0 <= i < Shader.ACTIVE_UNIFORMS d →
            Shader.UNIFORM_BLOCK_INDEX d i = b →
            Shader.ActiveUniformName d i ≠ cstring name) →
         UniformBlockDescriptor.Offset blk name
         = (-1, Some (UniformBlockDescriptor.ErrNotRecognizedInBlock name))).
Proof.
  intros wf Hb Hbname.
  destruct (queryUniforms_exact d wf s)
    as (descs & blocks & Hrun & _ & _ & Hbin & _).
  assert (uniformBlockName d b = blockName) as Hbn.
  { unfold uniformBlockName. by rewrite Hbname, strippedName_cstring. }
  assert (wrap32 b = b) as Hw.
  { apply (wrap32_index b (Shader.ACTIVE_UNIFORM_BLOCKS d) Hb).
    apply (wf_blocks d wf). }
  destruct (blockOffsets_exact d wf b) as [Hoin Hoout].
  rewrite Hw in Hoin, Hoout.
  exists (Shader.mk (Shader.id (target s)) (Shader.shaders (target s))
            descs blocks), (reflectedBlock d b).
  split; [by rewrite Hrun|]. split.
  { unfold Shader.UniformBlockDescriptors. cbn. rewrite <- Hbn.
    by apply Hbin. }
  unfold UniformBlockDescriptor.Offset, reflectedBlock. cbn. split.
  - intros i name Hi Hp Hname.
    assert (uniformName d i = name) as Hn.
    { unfold uniformName. by rewrite Hname, strippedName_cstring. }
    rewrite <- Hn, (Hoin i Hi Hp). reflexivity.
  - intros name Hno. rewrite Hoout; [reflexivity|].
    intros i Hi Hp Hn. apply (Hno i Hi Hp). rewrite <- Hn.
    unfold uniformName.
    apply (nullTerminated_cstring 2), (wf_uniform_name d wf i Hi).
Qed.

Lemma reflected_block_Offset_witness :
  ∃ s' blk,
    result (Shader.queryUniforms (Some (sampleShader ∅)) sampleDevice)
    = Some s'
    ∧ Shader.UniformBlockDescriptors s' !! "Matrices" = Some blk
    ∧ (∀ i name, 0 <= i < Shader.ACTIVE_UNIFORMS sampleDevice →
         Shader.UNIFORM_BLOCK_INDEX sampleDevice i = 0 →
         Shader.ActiveUniformName sampleDevice i = cstring name →
         UniformBlockDescriptor.Offset blk name
         = (Shader.UNIFORM_OFFSET sampleDevice i, None))
    ∧ (∀ name,
         (∀ i, 0 <= i < Shader.ACTIVE_UNIFORMS sampleDevice →
            Shader.UNIFORM_BLOCK_INDEX sampleDevice i = 0 →
            Shader.ActiveUniformName sampleDevice i ≠ cstring name) →
         UniformBlockDescriptor.Offset blk name
         = (-1, Some (UniformBlockDescriptor.ErrNotRecognizedInBlock name))).
Proof.
  apply (reflected_block_Offset (sampleShader ∅) sampleDevice 0 "Matrices").
  - exact sampleDevice_wf.
  - vm_compute. split; [discriminate|reflexivity].
  - reflexivity.
Defined.

(** X21.  Every block descriptor reflection stores is stored under its own
    [Name], carries the index of a reported block, that block's data size, and
    the one buffer offset alignment the device reports. *)
Theorem reflected_block_fields (s : Ref Shader.T) (d : Shader.Device) :
  Device_wf d →
  ∃ s', result (Shader.queryUniforms (Some s) d) = Some s'
    ∧ ∀ key blk, Shader.UniformBlockDescriptors s' !! key = Some blk →
        UniformBlockDescriptor.Name blk = key
        ∧ 0 <= UniformBlockDescriptor.Index blk
             < Shader.ACTIVE_UNIFORM_BLOCKS d
        ∧ Shader.ActiveUniformBlockName d (UniformBlockDescriptor.Index blk)
          = cstring key
        ∧ UniformBlockDescriptor.UnAlignedSize blk
          = Shader.UNIFORM_BLOCK_DATA_SIZE d (UniformBlockDescriptor.Index blk)
        ∧ UniformBlockDescriptor.Alignment blk
          = Shader.UNIFORM_BUFFER_OFFSET_ALIGNMENT d.
Proof.
  intros wf.
  destruct (queryUniforms_exact d wf s)
    as (descs & blocks & Hrun & _ & _ & Hbin & Hbout).
  eexists. split; [by rewrite Hrun|]. intros key blk Hblk.
  unfold Shader.UniformBlockDescriptors in Hblk. cbn in Hblk.
  destruct (lookup_from_indices (λ _, True)
              (uniformBlockName d) (reflectedBlock d) blocks
              (Shader.ACTIVE_UNIFORM_BLOCKS d)
              (λ b Hb _, Hbin b Hb)
              (λ k Hk, Hbout k (λ b Hb, Hk b Hb I)) key blk Hblk)
    as (b & Hb & _ & <- & <-).
  unfold reflectedBlock, UniformBlockDescriptor.UnAlignedSize. cbn.
  split; [done|]. split; [done|]. split; [|done].
  unfold uniformBlockName.
  apply (nullTerminated_cstring 2), (wf_block_name d wf b Hb).
Qed.

Lemma reflected_block_fields_witness :
  ∃ s', result (Shader.queryUniforms (Some (sampleShader ∅)) sampleDevice)
        = Some s'
    ∧ ∀ key blk, Shader.UniformBlockDescriptors s' !! key = Some blk →
        UniformBlockDescriptor.Name blk = key
        ∧ 0 <= UniformBlockDescriptor.Index blk
             < Shader.ACTIVE_UNIFORM_BLOCKS sampleDevice
        ∧ Shader.ActiveUniformBlockName sampleDevice
            (UniformBlockDescriptor.Index blk) = cstring key
        ∧ UniformBlockDescriptor.UnAlignedSize blk
          = Shader.UNIFORM_BLOCK_DATA_SIZE sampleDevice
              (UniformBlockDescriptor.Index blk)
        ∧ UniformBlockDescriptor.Alignment blk
          = Shader.UNIFORM_BUFFER_OFFSET_ALIGNMENT sampleDevice.
Proof.
  exact (reflected_block_fields (sampleShader ∅) sampleDevice
           sampleDevice_wf).
Defined.

(** X22.  A program without active uniforms and without uniform blocks:
    reflection makes no state-changing device call (its queries are not part
    of the trace) and leaves both maps empty, whatever they held. *)
Theorem queryUniforms_empty_program (s : Ref Shader.T) (d : Shader.Device) :
  Shader.ACTIVE_UNIFORMS d = 0 →
  Shader.ACTIVE_UNIFORM_BLOCKS d = 0 →
  Shader.queryUniforms (Some s) d
  = ([], Some (Shader.mk (Shader.id (target s)) (Shader.shaders (target s))
                 ∅ ∅)).
Proof.
  intros Hn Hnb.
  unfold Shader.queryUniforms, deref, Shader.queryUniformIndices,
    Shader.queryUniformBlockIndices.
  rewrite Hn, Hnb. reflexivity.
Qed.

Lemma queryUniforms_empty_program_witness :
  Shader.queryUniforms (Some (sampleShader sampleDescriptors))
    (Shader.mkDevice 0 (λ _, []) (λ _, 0) (λ _, 0) (λ _, 0) (λ _, 0)
       (λ _, -1) 0 (λ _, []) (λ _, 0) 256)
  = ([], Some (Shader.mk 7 [] ∅ ∅)).
Proof.
  apply (queryUniforms_empty_program (sampleShader sampleDescriptors));
    reflexivity.
Defined.

(** ** Framebuffer attachments: panics, device calls, reading back *)

(** X23.  [AttachTexture] panics in exactly two situations, both on a free
    attachment point: the texture is nil, or the framebuffer is complete but
    its attachment map was never allocated (a zero-valued [FrameBuffer]). *)
Theorem AttachTexture_panics_iff (f : Ref FrameBuffer.T) (attachment : Z)
    (texture : ptr Texture.T) (status : Z) :
  result (FrameBuffer.AttachTexture (Some f) attachment texture status) = None
  ↔ FrameBuffer.lookupTexture (target f) attachment = None
    ∧ (texture = None
       ∨ (FrameBuffer.textures (target f) = None
          ∧ status = gl.FRAMEBUFFER_COMPLETE)).
Proof.
  destruct f as [a [fid tex]].
  unfold FrameBuffer.AttachTexture, deref. rewrite bind_ret_l. cbn.
  destruct (FrameBuffer.lookupTexture _ attachment) as [old|] eqn:Hl; cbn.
  { split; [discriminate|]. by intros [? _]. }
  destruct texture as [t|]; cbn; [|split; [intros _; split; [done|by left]|done]].
  destruct (FrameBuffer.checkAttachmentError status) as [e|] eqn:He; cbn.
  - split; [discriminate|]. intros [_ [?|[_ Hs]]]; [done|].
    apply checkAttachmentError_complete in Hs. congruence.
  - apply checkAttachmentError_complete in He.
    destruct tex as [m|]; cbn.
    + split; [discriminate|]. by intros [_ [?|[? _]]].
    + split; [|done]. intros _. split; [done|]. by right.
Qed.

(** X24.  On a free attachment point and with a texture, [AttachTexture] binds
    the framebuffer, attaches the texture at mip level 0 and unbinds the
    framebuffer again, whatever the status turns out to be; with a nil texture
    it stops right after binding. *)
Theorem AttachTexture_device_calls (f : Ref FrameBuffer.T) (attachment : Z)
    (status : Z) :
  FrameBuffer.lookupTexture (target f) attachment = None →
  (∀ t : Ref Texture.T,
     trace (FrameBuffer.AttachTexture (Some f) attachment (Some t) status)
     = [gl.BindFramebuffer gl.FRAMEBUFFER (FrameBuffer.id (target f));
        gl.FramebufferTexture2D gl.FRAMEBUFFER attachment gl.TEXTURE_2D
          (Texture.id (target t)) 0;
        gl.BindFramebuffer gl.FRAMEBUFFER 0])
  ∧ FrameBuffer.AttachTexture (Some f) attachment None status
    = ([gl.BindFramebuffer gl.FRAMEBUFFER (FrameBuffer.id (target f))], None).
Proof.
  intros Hl. destruct f as [a [fid tex]].
  unfold FrameBuffer.AttachTexture, deref. rewrite !bind_ret_l. cbn in *.
  rewrite Hl. cbn. split; [|reflexivity].
  intros t.
  destruct (FrameBuffer.checkAttachmentError status) as [e|]; cbn;
    [reflexivity|].
  by destruct tex.
Qed.

Lemma AttachTexture_device_calls_witness :
  (∀ t : Ref Texture.T,
     trace (FrameBuffer.AttachTexture (Some sampleFrameBuffer)
              COLOR_ATTACHMENT1 (Some t) gl.FRAMEBUFFER_UNSUPPORTED)
     = [gl.BindFramebuffer gl.FRAMEBUFFER 3;
        gl.FramebufferTexture2D gl.FRAMEBUFFER COLOR_ATTACHMENT1 gl.TEXTURE_2D
          (Texture.id (target t)) 0;
        gl.BindFramebuffer gl.FRAMEBUFFER 0])
  ∧ FrameBuffer.AttachTexture (Some sampleFrameBuffer) COLOR_ATTACHMENT1 None
      gl.FRAMEBUFFER_UNSUPPORTED
    = ([gl.BindFramebuffer gl.FRAMEBUFFER 3], None).
Proof.
  apply (AttachTexture_device_calls sampleFrameBuffer COLOR_ATTACHMENT1
           gl.FRAMEBUFFER_UNSUPPORTED).
  reflexivity.
Defined.

(** X25.  Attach, then read back: after a successful [AttachTexture] the
    getter [Texture] answers that texture with [ok = true], and the attachment
    point is taken for good: any further [AttachTexture] on it is refused
    without a device call and leaves the framebuffer as it is. *)
Theorem AttachTexture_then_Texture (f : Ref FrameBuffer.T) (attachment : Z)
    (texture : ptr Texture.T) (status : Z) (f' : FrameBuffer.T) :
  result (FrameBuffer.AttachTexture (Some f) attachment texture status)
  = Some (f', None) →
  FrameBuffer.Texture_ (Some (mkRef (addr f) f')) attachment
  = ([], Some (texture, true))
  ∧ ∀ texture2 status2,
      FrameBuffer.AttachTexture (Some (mkRef (addr f) f')) attachment
        texture2 status2
      = ([], Some (f', Some (ErrAlreadyAttached attachment))).
Proof.
  destruct f as [a [fid tex]].
  unfold FrameBuffer.AttachTexture, FrameBuffer.Texture_, deref.
  rewrite !bind_ret_l. cbn.
  destruct (FrameBuffer.lookupTexture _ attachment) as [old|] eqn:Hl; cbn;
    [discriminate|].
  destruct texture as [t|]; cbn; [|discriminate].
  destruct (FrameBuffer.checkAttachmentError status) as [e|]; cbn;
    [discriminate|].
  destruct tex as [m|]; cbn; [|discriminate].
  intros H. injection H as <-.
  unfold FrameBuffer.lookupTexture. cbn. rewrite lookup_insert_eq.
  split; [reflexivity|]. intros texture2 status2.
  reflexivity.
Qed.

Lemma AttachTexture_then_Texture_witness :
  FrameBuffer.Texture_
    (Some (mkRef 21
             (FrameBuffer.mk 3
                (Some (<[COLOR_ATTACHMENT1 := Some sampleTexture]>
                         {[ COLOR_ATTACHMENT0 := Some sampleTexture ]})))))
    COLOR_ATTACHMENT1
  = ([], Some (Some sampleTexture, true)).
Proof.
  apply (AttachTexture_then_Texture sampleFrameBuffer COLOR_ATTACHMENT1
           (Some sampleTexture) gl.FRAMEBUFFER_COMPLETE).
  reflexivity.
Defined.

(** ** Aligned size: what the formula computes *)

(** X26.  For a non-negative size and a positive alignment whose sum fits an
    [int32], [AlignedSize] answers the least multiple of the alignment that is
    strictly above the size. *)
Theorem AlignedSize_least_multiple_above (u : UniformBlockDescriptor.T) :
  0 < UniformBlockDescriptor.Alignment u →
  0 <= UniformBlockDescriptor.Size u →
  UniformBlockDescriptor.Size u + UniformBlockDescriptor.Alignment u < 2 ^ 31 →
  ∃ r, UniformBlockDescriptor.AlignedSize u = Some r
    ∧ (UniformBlockDescriptor.Alignment u | r)
    ∧ UniformBlockDescriptor.UnAlignedSize u < r
    ∧ ∀ r', (UniformBlockDescriptor.Alignment u | r') →
            UniformBlockDescriptor.UnAlignedSize u < r' → r <= r'.
Proof.
  destruct u as [name idx size offs alignment].
  unfold UniformBlockDescriptor.AlignedSize,
    UniformBlockDescriptor.UnAlignedSize. cbn.
  intros Ha Hs Hfit.
  destruct (decide (alignment = 0)) as [->|_]; [lia|].
  rewrite Z.rem_mod_nonneg by lia.
  pose proof (Z.mod_pos_bound size alignment Ha) as Hb.
  pose proof (Z.div_mod size alignment ltac:(lia)) as Hdm.
  rewrite wrap32_id by (unfold int32_range; lia).
  eexists. split; [reflexivity|]. split; [|split].
  - exists (size / alignment + 1). nia.
  - lia.
  - intros r' [k ->] Hlt.
    assert (size / alignment < k) by nia. nia.
Qed.

Lemma AlignedSize_least_multiple_above_witness :
  ∃ r, UniformBlockDescriptor.AlignedSize (sampleBlock 20 16) = Some r
    ∧ (16 | r) ∧ 20 < r ∧ ∀ r', (16 | r') → 20 < r' → r <= r'.
Proof.
  apply (AlignedSize_least_multiple_above (sampleBlock 20 16)); cbn; lia.
Defined.

(** ** The life cycle of a program (shader.go) *)

Lemma deletedShaders_app (tr1 tr2 : list (globj.call + glcall)) :
  deletedShaders (tr1 ++ tr2) = deletedShaders tr1 ++ deletedShaders tr2.
Proof. apply omap_app. Qed.

Lemma deletedShaders_deletes (l : list Z) :
  deletedShaders (inl <$> (globj.DeleteShader <$> l)) = l.
Proof. induction l as [|x l IH]; [done|]. cbn. f_equal. exact IH. Qed.

Lemma deletedShaders_inr (tr : list glcall) :
  deletedShaders (inr <$> tr) = [].
Proof. induction tr as [|c tr IH]; [done|]. cbn. exact IH. Qed.

Lemma LinkProgram_deleted (s : Ref Shader.T) (status logLength : Z)
    (log : string) (d : Shader.Device) :
  (status = 0 → 0 <= wrap32 (logLength + 1)) →
  deletedShaders (Shader.LinkProgram s status logLength log d).1
  = Shader.shaders (target s).
Proof.
  intros Hlog. unfold Shader.LinkProgram, Shader.deleteShaders.
  destruct (Z.eqb_spec status 0) as [Hs|Hs]; cbn.
  - destruct (Z.ltb_spec (wrap32 (logLength + 1)) 0) as [Hn|_];
      [specialize (Hlog Hs); lia|].
    cbn. apply deletedShaders_deletes.
  - rewrite deletedShaders_app, deletedShaders_deletes, deletedShaders_inr.
    apply app_nil_r.
Qed.

(** X27.  Attaching two shader objects to a fresh program, as the constructor
    [NewVertFragShader] does: the program is created once, both objects are
    attached to it, and only the first one is recorded. *)
Theorem AttachShader_records_first_only (vertex fragment created created' : Z) :
  created ≠ 0 →
  let first := Shader.AttachShader freshShader vertex created in
  let second := Shader.AttachShader first.2 fragment created' in
  first.1 ++ second.1
  = [globj.CreateProgram; globj.AttachShader created vertex;
     globj.AttachShader created fragment]
  ∧ Shader.id second.2 = created
  ∧ Shader.shaders second.2 = [vertex].
Proof.
  intros Hc. unfold Shader.AttachShader, freshShader. cbn.
  destruct (Z.eqb_spec created 0) as [?|_]; [done|]. done.
Qed.

Lemma AttachShader_records_first_only_witness :
  let first := Shader.AttachShader freshShader 11 7 in
  let second := Shader.AttachShader first.2 12 8 in
  first.1 ++ second.1
  = [globj.CreateProgram; globj.AttachShader 7 11; globj.AttachShader 7 12]
  ∧ Shader.id second.2 = 7
  ∧ Shader.shaders second.2 = [11].
Proof. apply (AttachShader_records_first_only 11 12 7 8). discriminate. Defined.

(** X28.  Attach two shader objects to a fresh program and link it, as
    [NewVertFragShader] does: whether or not linking succeeds, the only shader
    object deleted is the first one attached; the second one is never deleted. *)
Theorem link_deletes_only_first_attached (a : positive)
    (vertex fragment created created' status logLength : Z) (log : string)
    (d : Shader.Device) :
  created ≠ 0 →
  (status = 0 → 0 <= wrap32 (logLength + 1)) →
  let first := Shader.AttachShader freshShader vertex created in
  let second := Shader.AttachShader first.2 fragment created' in
  deletedShaders
    (Shader.LinkProgram (mkRef a second.2) status logLength log d).1
  = [vertex].
Proof.
  intros Hc Hlog first second.
  rewrite (LinkProgram_deleted _ _ _ _ _ Hlog). cbn.
  unfold Shader.AttachShader, freshShader. cbn.
  by destruct (Z.eqb_spec created 0).
Qed.

Lemma link_deletes_only_first_attached_witness :
  deletedShaders
    (Shader.LinkProgram
       (mkRef 1 (Shader.AttachShader
                   (Shader.AttachShader freshShader 11 7).2 12 8).2)
       1 0 EmptyString sampleDevice).1
  = [11].
Proof.
  apply (link_deletes_only_first_attached 1 11 12 7 8 1 0 EmptyString
           sampleDevice); [discriminate|].
  intros H. discriminate H.
Defined.

(** X29.  A successful link on well-formed device answers: the device sees the
    link, the deletion of each recorded shader object and one binding per
    uniform block, in this order; no error is returned, the program keeps its
    name and no shader object stays recorded. *)
Theorem LinkProgram_success (s : Ref Shader.T) (status logLength : Z)
    (log : string) (d : Shader.Device) :
  status ≠ 0 →
  Device_wf d →
  ∃ s',
    Shader.LinkProgram s status logLength log d
    = ([inl (globj.LinkProgram (Shader.id (target s)))]
         ++ (inl <$> (globj.DeleteShader <$> Shader.shaders (target s)))
         ++ (inr <$> ((λ b, gl.UniformBlockBinding (Shader.id (target s)) b b)
                        <$> Shader.indicesUpTo (Shader.ACTIVE_UNIFORM_BLOCKS d))),
       Some (s', None))
    ∧ Shader.id s' = Shader.id (target s)
    ∧ Shader.shaders s' = [].
Proof.
  intros Hs wf. unfold Shader.LinkProgram.
  destruct (Z.eqb_spec status 0) as [?|_]; [done|].
  destruct (queryUniforms_exact d wf
              (mkRef (addr s) (Shader.deleteShaders (target s)).2))
    as (descs & blocks & Hrun & _).
  cbv zeta. rewrite Hrun. cbn. eexists. split; [reflexivity|]. done.
Qed.

Lemma LinkProgram_success_witness :
  ∃ s',
    Shader.LinkProgram (mkRef 1 (Shader.mk 7 [11] ∅ ∅)) 1 0 EmptyString
      sampleDevice
    = ([inl (globj.LinkProgram 7); inl (globj.DeleteShader 11);
        inr (gl.UniformBlockBinding 7 0 0)],
       Some (s', None))
    ∧ Shader.id s' = 7
    ∧ Shader.shaders s' = [].
Proof.
  apply (LinkProgram_success (mkRef 1 (Shader.mk 7 [11] ∅ ∅)) 1 0 EmptyString
           sampleDevice); [discriminate|exact sampleDevice_wf].
Defined.

(** A failed link returns the error with the info log, deletes the recorded
    shader objects and never reaches reflection: both descriptor maps stay
    as they were, so the binder answers as before the link. *)
Theorem LinkProgram_failure_keeps_descriptors (s : Ref Shader.T)
    (logLength : Z) (log : string) (d : Shader.Device) :
  0 <= wrap32 (logLength + 1) →
  ∃ s',
    Shader.LinkProgram s 0 logLength log d
    = ([inl (globj.LinkProgram (Shader.id (target s)))]
         ++ (inl <$> (globj.DeleteShader <$> Shader.shaders (target s))),
       Some (s', Some (Shader.ErrLinkFailed log)))
    ∧ Shader.shaders s' = []
    ∧ Shader.UniformDescriptors s' = Shader.UniformDescriptors (target s)
    ∧ Shader.UniformBlockDescriptors s'
      = Shader.UniformBlockDescriptors (target s)
    ∧ ∀ name arg,
        Shader.SetUniform (Some (mkRef (addr s) s')) name arg
        = Shader.SetUniform (Some s) name arg.
Proof.
  intros Hlog. unfold Shader.LinkProgram. cbn.
  destruct (Z.ltb_spec (wrap32 (logLength + 1)) 0) as [?|_]; [lia|].
  eexists. split; [reflexivity|]. by destruct s.
Qed.

Lemma LinkProgram_failure_keeps_descriptors_witness :
  ∃ s',
    Shader.LinkProgram (sampleShader sampleDescriptors) 0 0 EmptyString
      sampleDevice
    = ([inl (globj.LinkProgram 7)],
       Some (s', Some (Shader.ErrLinkFailed EmptyString)))
    ∧ Shader.shaders s' = []
    ∧ Shader.UniformDescriptors s' = sampleDescriptors
    ∧ Shader.UniformBlockDescriptors s' = ∅
    ∧ ∀ name arg,
        Shader.SetUniform (Some (mkRef 1 s')) name arg
        = Shader.SetUniform (Some (sampleShader sampleDescriptors)) name arg.
Proof.
  apply (LinkProgram_failure_keeps_descriptors
           (sampleShader sampleDescriptors) 0 EmptyString sampleDevice).
  vm_compute. discriminate.
Defined.

(** X30.  [Destroy] deletes the program at most once: a second [Destroy] makes
    no device call and changes nothing. It deletes no shader object and keeps
    the descriptor maps, so the binder still answers for a destroyed program
    as it did before. *)
Theorem Destroy_twice (s : Shader.T) (a : positive) :
  let destroyed := Shader.Destroy s in
  Shader.Destroy destroyed.2 = ([], destroyed.2)
  ∧ Shader.id destroyed.2 = 0
  ∧ (destroyed.1 = [] ↔ Shader.id s = 0)
  ∧ ∀ name arg,
      Shader.SetUniform (Some (mkRef a destroyed.2)) name arg
      = Shader.SetUniform (Some (mkRef a s)) name arg.
Proof.
  unfold Shader.Destroy. destruct (Z.eqb_spec (Shader.id s) 0) as [Hz|Hnz]; cbn.
  - rewrite Hz. cbn. done.
  - split; [done|]. split; [done|]. split; [|done].
    split; [discriminate|done].
Qed.
